(** * Trace-relationship analysis of the robot-shop dataset scripts

    A shallow embedding of [python-scripts/analyze_trace_relationships.py]:
    the data frame is the list of its rows in order, Python dictionaries are
    finite maps, Python sets are finite sets, and a raised exception is the
    [Raise] case of a small result monad. *)

From Stdlib Require Import QArith.
From stdpp Require Import gmap strings list fin_maps sorting pretty relations.

Local Open Scope string_scope.
Local Open Scope list_scope.
Local Open Scope nat_scope.
#[local] Set Warnings "-clear-no-such-hyp".

(** ** Exceptions and the result monad *)

Inductive exn : Set :=
| ZeroDivisionError
| KeyError
| ValueError
| IndexError
| OutOfFuel
| RecursionError.

Inductive result (A : Type) : Type :=
| Ok (a : A)
| Raise (e : exn).
Arguments Ok {A} a.
Arguments Raise {A} e.

#[global] Instance result_ret : MRet result := λ A a, Ok a.
#[global] Instance result_bind : MBind result := λ A B f r,
  match r with
  | Ok a => f a
  | Raise e => Raise e
  end.
#[global] Instance result_fmap : FMap result := λ A B f r,
  match r with
  | Ok a => Ok (f a)
  | Raise e => Raise e
  end.

Definition is_Ok {A} (r : result A) : Prop := ∃ a, r = Ok a.

(** ** Rows of the data frame *)

Record SpanRecord : Set := mkSpan {
  trace_id : string;
  span_id : string;
  parent_span_id : string;
  service_name : string;
  span_name : string;
  span_kind : Z
}.

#[global] Instance SpanRecord_eq_dec : EqDecision SpanRecord.
Proof. solve_decision. Defined.

(** [df[df['parent_span_id'] == '']] and [df[df['parent_span_id'] != '']]. *)
Definition root_spans (df : list SpanRecord) : list SpanRecord :=
  filter (λ r, parent_span_id r = "") df.
Definition child_spans (df : list SpanRecord) : list SpanRecord :=
  filter (λ r, parent_span_id r ≠ "") df.

(** The mask [x['parent_span_id'] == ''] of one row. *)
Definition is_root (r : SpanRecord) : bool := bool_decide (parent_span_id r = "").

(** ** analyze_trace_depth: the two indexes *)

Record SpanInfo : Set := mkInfo {
  info_trace_id : string;
  info_service : string;
  info_span_name : string;
  info_span_kind : Z
}.

Definition info_of (row : SpanRecord) : SpanInfo :=
  mkInfo (trace_id row) (service_name row) (span_name row) (span_kind row).

(** [span_to_children.get(span_id, [])] *)
Definition get_children (span_to_children : gmap string (list string))
    (s : string) : list string :=
  default [] (span_to_children !! s).

(** One iteration of the indexing loop (source lines 180-192). *)
Definition index_row (st : gmap string (list string) * gmap string SpanInfo)
    (row : SpanRecord) : gmap string (list string) * gmap string SpanInfo :=
  let '(span_to_children, span_to_info) := st in
  let span_to_info := <[span_id row := info_of row]> span_to_info in
  if bool_decide (parent_span_id row ≠ "")
  then (<[parent_span_id row :=
            (get_children span_to_children (parent_span_id row) ++ [span_id row])%list]>
          span_to_children, span_to_info)
  else (span_to_children, span_to_info).

Definition build_index (df : list SpanRecord)
    : gmap string (list string) * gmap string SpanInfo :=
  foldl index_row (∅, ∅) df.

Definition span_to_children (df : list SpanRecord) : gmap string (list string) :=
  (build_index df).1.
Definition span_to_info (df : list SpanRecord) : gmap string SpanInfo :=
  (build_index df).2.

(** ** calculate_depth *)

(** Python's [max] over a sequence. *)
Definition py_max (l : list nat) : result nat :=
  match l with
  | [] => Raise ValueError
  | x :: l' => Ok (foldl Nat.max x l')
  end.

(** The nested function of source lines 195-210.  [fuel] is the number of
    nested calls that are still allowed, and a call beyond it raises
    [OutOfFuel]; [visited] is the set each call receives (a fresh copy per
    child in the source, a value here).  The interpreter bounds the nesting
    by its recursion limit: see [calculate_depth_limited]. *)
Fixpoint calculate_depth_fuel (ch : gmap string (list string)) (fuel : nat)
    (span : string) (visited : gset string) : result nat :=
  match fuel with
  | 0 => Raise OutOfFuel
  | S fuel' =>
      if decide (span ∈ visited) then Ok 0
      else
        let visited := {[span]} ∪ visited in
        let children := get_children ch span in
        match children with
        | [] => Ok 1
        | _ =>
            ds ← mapM (λ child, calculate_depth_fuel ch fuel' child visited) children;
            max_child_depth ← py_max ds;
            Ok (1 + max_child_depth)
        end
  end.

(** A number of nested calls that no walk over [df] needs.  With it
    [calculate_depth_from] and [calculate_depth] give the value that the
    walk returns whenever the interpreter's limit lets it return
    ([limited_walk_returns]); what the limit does to a run is stated on
    [calculate_depth_limited] and [analyze_trace_depth_limited]. *)
Definition depth_fuel (df : list SpanRecord) : nat := S (S (length df)).

Definition calculate_depth_from (df : list SpanRecord) (span : string)
    (visited : gset string) : result nat :=
  calculate_depth_fuel (span_to_children df) (depth_fuel df) span visited.

(** [calculate_depth(span_id)]: [visited] defaults to the empty set. *)
Definition calculate_depth (df : list SpanRecord) (span : string) : result nat :=
  calculate_depth_from df span ∅.

(** ** Insertion-ordered dictionaries

    [trace_depths] and [trace_breadths] are plain Python dicts that are later
    iterated ([max(trace_depths, key=...)]), so their key order is kept: a key
    stays where it was first inserted. *)

Fixpoint dict_get {K V} `{EqDecision K} (k : K) (d : list (K * V)) : option V :=
  match d with
  | [] => None
  | (k', v) :: d' => if decide (k = k') then Some v else dict_get k d'
  end.

Fixpoint dict_set {K V} `{EqDecision K} (k : K) (v : V) (d : list (K * V))
    : list (K * V) :=
  match d with
  | [] => [(k, v)]
  | (k', v') :: d' =>
      if decide (k = k') then (k, v) :: d' else (k', v') :: dict_set k v d'
  end.

(** [d[k]] *)
Definition dict_getitem {K V} `{EqDecision K} (k : K) (d : list (K * V)) : result V :=
  match dict_get k d with
  | Some v => Ok v
  | None => Raise KeyError
  end.

(** ** analyze_trace_depth: the loop over the root rows *)

Definition breadth_of (df : list SpanRecord) (span : string) : nat :=
  length (get_children (span_to_children df) span).

(** One iteration of source lines 218-231. *)
Definition root_step (df : list SpanRecord)
    (acc : result (list (string * nat) * list (string * nat)))
    (root : SpanRecord) : result (list (string * nat) * list (string * nat)) :=
  '(trace_depths, trace_breadths) ← acc;
  let tid := trace_id root in
  depth ← calculate_depth df (span_id root);
  let breadth := breadth_of df (span_id root) in
  match dict_get tid trace_depths with
  | None => Ok (dict_set tid depth trace_depths, dict_set tid breadth trace_breadths)
  | Some d0 =>
      b0 ← dict_getitem tid trace_breadths;
      Ok (dict_set tid (Nat.max d0 depth) trace_depths,
          dict_set tid (Nat.max b0 breadth) trace_breadths)
  end.

(** [trace_depths] and [trace_breadths] after the loop. *)
Definition trace_metrics (df : list SpanRecord)
    : result (list (string * nat) * list (string * nat)) :=
  foldl (root_step df) (Ok ([], [])) (root_spans df).

(** ** Statistics printed by analyze_trace_depth (source lines 233-257) *)

Definition py_min (l : list nat) : result nat :=
  match l with
  | [] => Raise ValueError
  | x :: l' => Ok (foldl Nat.min x l')
  end.

(** [a / b] on Python ints: true division, as an exact rational. *)
Definition py_truediv (a b : nat) : result Q :=
  if decide (b = 0) then Raise ZeroDivisionError
  else Ok (Z.of_nat a # Pos.of_nat b).

(** [l[i]] *)
Definition py_index {A} (l : list A) (i : nat) : result A :=
  match l !! i with
  | Some x => Ok x
  | None => Raise IndexError
  end.

(** [max(d, key=d.get)]: the first key, in dict order, of greatest value. *)
Definition py_max_key (d : list (string * nat)) : result string :=
  match d with
  | [] => Raise ValueError
  | kv :: d' =>
      Ok (foldl (λ best kv', if decide (best.2 < kv'.2) then kv' else best) kv d').1
  end.

(** [sorted(Counter(l).items())] *)
Definition counter_sorted (l : list nat) : list (nat * nat) :=
  (λ x, (x, length (filter (λ y, y = x) l))) <$> merge_sort (≤) (remove_dups l).

Record Stats : Set := mkStats {
  st_min : nat;
  st_max : nat;
  st_mean : Q;
  st_median : nat
}.

Definition stats_of (l : list nat) : result Stats :=
  mn ← py_min l;
  mx ← py_max l;
  mean ← py_truediv (sum_list l) (length l);
  med ← py_index (merge_sort (≤) l) (length l / 2);
  Ok (mkStats mn mx mean med).

Record DepthStats : Set := mkDepthStats {
  depth_stats : Stats;
  depth_dist : list (nat * nat);
  breadth_stats : Stats;
  deepest_trace_id : string;
  deepest_depth : nat
}.

Record DepthReport : Set := mkDepthReport {
  trace_depths : list (string * nat);
  trace_breadths : list (string * nat);
  depth_summary : option DepthStats
}.

Definition analyze_trace_depth (df : list SpanRecord) : result DepthReport :=
  '(trace_depths, trace_breadths) ← trace_metrics df;
  match trace_depths with
  | [] => Ok (mkDepthReport trace_depths trace_breadths None)
  | _ =>
      let depths := trace_depths.*2 in
      let breadths := trace_breadths.*2 in
      ds ← stats_of depths;
      bs ← stats_of breadths;
      deepest ← py_max_key trace_depths;
      dd ← dict_getitem deepest trace_depths;
      Ok (mkDepthReport trace_depths trace_breadths
            (Some (mkDepthStats ds (counter_sorted depths) bs deepest dd)))
  end.

(** ** analyze_trace_depth under the interpreter's recursion limit

    [calculate_depth] is plain recursion and the source never changes the
    interpreter's limit, so a walk that nests more calls than the
    interpreter allows stops with RecursionError.  [limit] is the number of
    nested calls of [calculate_depth] that the interpreter leaves room for;
    with Python's default limit of 1000 frames it is below 1000. *)

Definition recursion_limit_reached {A} (r : result A) : result A :=
  match r with
  | Raise OutOfFuel => Raise RecursionError
  | _ => r
  end.

Definition calculate_depth_limited (limit : nat) (df : list SpanRecord)
    (span : string) (visited : gset string) : result nat :=
  recursion_limit_reached
    (calculate_depth_fuel (span_to_children df) limit span visited).

(** One iteration of source lines 218-231, the walk being bounded. *)
Definition root_step_limited (limit : nat) (df : list SpanRecord)
    (acc : result (list (string * nat) * list (string * nat)))
    (root : SpanRecord) : result (list (string * nat) * list (string * nat)) :=
  '(trace_depths, trace_breadths) ← acc;
  let tid := trace_id root in
  depth ← calculate_depth_limited limit df (span_id root) ∅;
  let breadth := breadth_of df (span_id root) in
  match dict_get tid trace_depths with
  | None => Ok (dict_set tid depth trace_depths, dict_set tid breadth trace_breadths)
  | Some d0 =>
      b0 ← dict_getitem tid trace_breadths;
      Ok (dict_set tid (Nat.max d0 depth) trace_depths,
          dict_set tid (Nat.max b0 breadth) trace_breadths)
  end.

Definition trace_metrics_limited (limit : nat) (df : list SpanRecord)
    : result (list (string * nat) * list (string * nat)) :=
  foldl (root_step_limited limit df) (Ok ([], [])) (root_spans df).

Definition analyze_trace_depth_limited (limit : nat) (df : list SpanRecord)
    : result DepthReport :=
  '(trace_depths, trace_breadths) ← trace_metrics_limited limit df;
  match trace_depths with
  | [] => Ok (mkDepthReport trace_depths trace_breadths None)
  | _ =>
      let depths := trace_depths.*2 in
      let breadths := trace_breadths.*2 in
      ds ← stats_of depths;
      bs ← stats_of breadths;
      deepest ← py_max_key trace_depths;
      dd ← dict_getitem deepest trace_depths;
      Ok (mkDepthReport trace_depths trace_breadths
            (Some (mkDepthStats ds (counter_sorted depths) bs deepest dd)))
  end.

(** ** analyze_span_relationships *)

(** [Series.nunique()] *)
Definition nunique (col : list string) : nat := length (remove_dups col).

(** [df[df.duplicated(subset=['span_id'], keep=False)]]: with [keep=False]
    every row whose span_id occurs on more than one row is marked. *)
Definition duplicate_span_ids (df : list SpanRecord) : list SpanRecord :=
  filter (λ r, 1 < length (filter (λ r', span_id r' = span_id r) df)) df.

(** [kind_names.get(kind, f'UNKNOWN({kind})')] *)
Definition kind_name (kind : Z) : string :=
  if decide (kind = 0%Z) then "UNSPECIFIED"
  else if decide (kind = 1%Z) then "INTERNAL"
  else if decide (kind = 2%Z) then "SERVER"
  else if decide (kind = 3%Z) then "CLIENT"
  else if decide (kind = 4%Z) then "PRODUCER"
  else if decide (kind = 5%Z) then "CONSUMER"
  else "UNKNOWN(" +:+ pretty kind +:+ ")".

(** [rows['span_kind'].value_counts().sort_index()] *)
Definition kind_counts (rows : list SpanRecord) : list (Z * nat) :=
  (λ k, (k, length (filter (λ r, span_kind r = k) rows)))
    <$> merge_sort Z.le (remove_dups (span_kind <$> rows)).

(** [rows['service_name'].value_counts()], as counts per service. *)
Definition service_counts (rows : list SpanRecord) : gmap string nat :=
  foldl (λ m r, <[service_name r := S (default 0 (m !! service_name r))]> m) ∅ rows.

(** [n / total * 100] *)
Definition percent (n total : nat) : result Q :=
  q ← py_truediv n total; Ok (q * 100)%Q.

(** The per-kind lines: name, kind, count and share of [rows]. *)
Definition kind_lines (rows : list SpanRecord) : result (list (string * Z * nat * Q)) :=
  mapM (λ kc : Z * nat,
          p ← percent kc.2 (length rows); Ok (kind_name kc.1, kc.1, kc.2, p))
       (kind_counts rows).

Record RelationshipReport : Type := mkRelationshipReport {
  total_spans : nat;
  unique_span_ids : nat;
  unique_parent_ids : nat;
  duplicates : list SpanRecord;
  rel_root_spans : list SpanRecord;
  rel_child_spans : list SpanRecord;
  root_share : Q;
  child_share : Q;
  root_by_service : gmap string nat;
  root_by_kind : list (string * Z * nat * Q);
  child_by_kind : list (string * Z * nat * Q)
}.

Definition analyze_span_relationships (df : list SpanRecord)
    : result RelationshipReport :=
  let total_spans := length df in
  let unique_span_ids := nunique (span_id <$> df) in
  let unique_parent_ids := nunique (parent_span_id <$> child_spans df) in
  let duplicate_span_ids := duplicate_span_ids df in
  let root_spans := root_spans df in
  let child_spans := child_spans df in
  root_share ← percent (length root_spans) total_spans;
  child_share ← percent (length child_spans) total_spans;
  let root_by_service := service_counts root_spans in
  root_by_kind ← kind_lines root_spans;
  child_by_kind ← kind_lines child_spans;
  Ok (mkRelationshipReport total_spans unique_span_ids unique_parent_ids
        duplicate_span_ids root_spans child_spans root_share child_share
        root_by_service root_by_kind child_by_kind).

(** ** analyze_orphaned_spans *)

(** [set(df['span_id'].unique())] *)
Definition all_span_ids (df : list SpanRecord) : gset string :=
  list_to_set (remove_dups (span_id <$> df)).

(** The loop of source lines 90-94. *)
Definition orphaned_spans (df : list SpanRecord) : list SpanRecord :=
  foldl (λ orphaned row,
           if decide (parent_span_id row ∉ all_span_ids df)
           then (orphaned ++ [row])%list else orphaned)
        [] (child_spans df).

(** The function returns the orphan frame, or [None] when there is none. *)
Definition analyze_orphaned_spans (df : list SpanRecord) : option (list SpanRecord) :=
  let orphaned := orphaned_spans df in
  if decide (0 < length orphaned) then Some orphaned else None.

(** The finding shown for an orphan: its span_id and the absent parent. *)
Definition orphan_finding (r : SpanRecord) : string * string :=
  (span_id r, parent_span_id r).

(** ** analyze_trace_structure *)

(** [trace_groups.apply(lambda x: (x['parent_span_id'] == '').sum())] *)
Definition root_spans_per_trace (df : list SpanRecord) : gmap string nat :=
  foldl (λ m r, <[trace_id r :=
                    default 0 (m !! trace_id r) + (if is_root r then 1 else 0)]> m)
        ∅ df.

(** [trace_groups.size()] *)
Definition spans_per_trace (df : list SpanRecord) : gmap string nat :=
  foldl (λ m r, <[trace_id r := S (default 0 (m !! trace_id r))]> m) ∅ df.

(** [root_spans_per_trace[root_spans_per_trace > 1]] *)
Definition multi_root_traces (df : list SpanRecord) : gmap string nat :=
  filter (λ kv, 1 < kv.2) (root_spans_per_trace df).

Record StructureReport : Type := mkStructureReport {
  unique_traces : nat;
  str_spans_per_trace : gmap string nat;
  str_root_spans_per_trace : gmap string nat;
  str_multi_root_traces : gmap string nat
}.

(** The Series that the function computes (source lines 122, 125, 153 and
    159).  The lines that print their statistics are not part of the report.
    On a frame without rows the source does not get through them: the
    groupby-apply of line 153 then yields an empty frame, and line 157
    raises TypeError when it formats its mean.  [main] never calls the
    function on such a frame, as its first analysis has raised by then. *)
Definition analyze_trace_structure (df : list SpanRecord) : StructureReport :=
  mkStructureReport (nunique (trace_id <$> df)) (spans_per_trace df)
    (root_spans_per_trace df) (multi_root_traces df).

(** ** analyze_cross_service_calls *)

(** [dict(zip(keys, values))]: a later pair overwrites an earlier one. *)
Definition py_dict_zip (ks vs : list string) : gmap string string :=
  foldl (λ m kv, <[kv.1 := kv.2]> m) ∅ (zip ks vs).

Definition span_to_service (df : list SpanRecord) : gmap string string :=
  py_dict_zip (span_id <$> df) (service_name <$> df).

Record CrossCall : Set := mkCall {
  cc_parent_service : string;
  cc_child_service : string;
  cc_trace_id : string;
  cc_parent_span_id : string;
  cc_child_span_id : string
}.

#[global] Instance CrossCall_eq_dec : EqDecision CrossCall.
Proof. solve_decision. Defined.

(** One iteration of source lines 273-286. *)
Definition call_step (sts : gmap string string) (calls : list CrossCall)
    (row : SpanRecord) : list CrossCall :=
  let parent_id := parent_span_id row in
  let child_service := service_name row in
  match sts !! parent_id with
  | Some parent_service =>
      if decide (parent_service ≠ child_service)
      then (calls ++ [mkCall parent_service child_service (trace_id row)
                        parent_id (span_id row)])%list
      else calls
  | None => calls
  end.

Definition cross_service_calls (df : list SpanRecord) : list CrossCall :=
  foldl (call_step (span_to_service df)) [] (child_spans df).

Definition edge_key (c : CrossCall) : string * string :=
  (cc_parent_service c, cc_child_service c).

(** The order of a group index: parent_service first, then child_service,
    each compared as strings. *)
Definition key_le (a b : string * string) : Prop :=
  match String.compare a.1 b.1 with
  | Lt => True
  | Eq => String.leb a.2 b.2 = true
  | Gt => False
  end.

#[global] Instance key_le_dec : RelDecision key_le.
Proof.
  intros a b. unfold key_le.
  destruct (String.compare a.1 b.1); apply _.
Defined.

(** [cross_df.groupby(['parent_service', 'child_service']).size()]: one entry
    per distinct pair, in the order of the group index, with its row count. *)
Definition groupby_size (calls : list CrossCall) : list ((string * string) * nat) :=
  (λ k, (k, length (filter (λ c, edge_key c = k) calls)))
    <$> merge_sort key_le (remove_dups (edge_key <$> calls)).

(** The edge mapping: pair of services to number of calls. *)
Definition edge_counts (df : list SpanRecord) : list ((string * string) * nat) :=
  groupby_size (cross_service_calls df).

Definition edge_count (df : list SpanRecord) (parent child : string) : nat :=
  default 0 (dict_get (parent, child) (edge_counts df)).

(** [Series.sort_values(ascending=False)] is pandas code, called here with
    its default [kind='quicksort'], which the library documents as not
    stable (only 'mergesort' and 'stable' are).  What the library promises
    of the call is taken as an interface: the result is a rearrangement of
    the entries, in descending order of value.  How entries of equal value
    are ordered is not part of the interface. *)
Definition count_ge (a b : (string * string) * nat) : Prop := b.2 ≤ a.2.

Class SortValues : Type := {
  sort_values_desc :
    list ((string * string) * nat) → list ((string * string) * nat);
  sort_values_perm : ∀ l, sort_values_desc l ≡ₚ l;
  sort_values_sorted : ∀ l, Sorted count_ge (sort_values_desc l)
}.

(** [pattern_counts] of source line 297. *)
Definition pattern_counts `{SortValues} (df : list SpanRecord)
    : list ((string * string) * nat) :=
  sort_values_desc (edge_counts df).

(** The lines printed by source lines 298-299: [pattern_counts.head(10)]. *)
Definition reported_patterns `{SortValues} (df : list SpanRecord)
    : list ((string * string) * nat) :=
  take 10 (pattern_counts df).

Record CrossReport : Type := mkCrossReport {
  calls_found : nat;
  call_matrix : list ((string * string) * nat);
  most_common : list ((string * string) * nat)
}.

(** [None] is the branch that prints that no cross-service call was found. *)
Definition analyze_cross_service_calls `{SortValues} (df : list SpanRecord)
    : option CrossReport :=
  match cross_service_calls df with
  | [] => None
  | calls =>
      Some (mkCrossReport (length calls) (groupby_size calls) (reported_patterns df))
  end.

(** ** The analyses of main and the values of its summary

    [run_analyses] is the part of [main] made of the five analyses (source
    lines 459-463), in the order they are run, and of the values printed in
    the summary (lines 470-474).  It is not the whole of [main]: the call of
    [visualize_example_traces] at line 464, between the analyses and the
    summary, is modelled on its own below and can end a run with
    RecursionError, and the depth analysis is taken here where the
    interpreter's limit is not reached ([analyze_trace_depth_limited] has
    the limit). *)

Record Summary : Type := mkSummary {
  sum_total_spans : nat;
  sum_unique_traces : nat;
  sum_root_spans : nat;
  sum_child_spans : nat;
  sum_valid_children : Z
}.

Record FullReport : Type := mkFullReport {
  rep_relationships : RelationshipReport;
  rep_orphans : option (list SpanRecord);
  rep_structure : StructureReport;
  rep_depth : DepthReport;
  rep_cross : option CrossReport;
  rep_summary : Summary
}.

Definition run_analyses `{SortValues} (df : list SpanRecord) : result FullReport :=
  rel ← analyze_span_relationships df;
  let orphaned := analyze_orphaned_spans df in
  let structure := analyze_trace_structure df in
  depth ← analyze_trace_depth df;
  let cross := analyze_cross_service_calls df in
  let n_orphans := match orphaned with Some o => length o | None => 0 end in
  Ok (mkFullReport rel orphaned structure depth cross
        (mkSummary (length df) (nunique (trace_id <$> df))
           (length (rel_root_spans rel)) (length (rel_child_spans rel))
           (Z.of_nat (length (rel_child_spans rel)) - Z.of_nat n_orphans))).

(** ** An implementation of the sorting interface *)

(** Insertion into a list in descending order of count, in front of the
    first entry whose count is not greater. *)
Fixpoint insert_desc (x : (string * string) * nat)
    (l : list ((string * string) * nat)) : list ((string * string) * nat) :=
  match l with
  | [] => [x]
  | y :: l' =>
      if bool_decide (y.2 ≤ x.2) then x :: y :: l' else y :: insert_desc x l'
  end.

Definition insertion_sort_desc
    (l : list ((string * string) * nat)) : list ((string * string) * nat) :=
  foldr insert_desc [] l.

#[global] Instance count_ge_trans : Transitive count_ge.
Proof. intros a b c. unfold count_ge. lia. Qed.

#[global] Instance count_ge_dec : RelDecision count_ge.
Proof. intros a b. unfold count_ge. apply _. Defined.

Lemma insert_desc_perm x l : insert_desc x l ≡ₚ x :: l.
Proof.
  induction l as [|y l IH]; simpl; [done|].
  case_bool_decide; [done|].
  rewrite IH. apply Permutation_swap.
Qed.

Lemma insertion_sort_desc_perm l : insertion_sort_desc l ≡ₚ l.
Proof.
  unfold insertion_sort_desc. induction l as [|x l IH]; simpl; [done|].
  by rewrite insert_desc_perm, IH.
Qed.

Lemma insert_desc_HdRel y x l :
  count_ge y x → HdRel count_ge y l → HdRel count_ge y (insert_desc x l).
Proof.
  intros Hyx Hhd. destruct l as [|z l]; simpl; [by constructor|].
  case_bool_decide; constructor; [done|].
  by inversion Hhd.
Qed.

Lemma insert_desc_sorted x l :
  Sorted count_ge l → Sorted count_ge (insert_desc x l).
Proof.
  induction l as [|y l IH]; intros Hs; simpl.
  - by repeat constructor.
  - inversion Hs as [|? ? Hs' Hhd]; subst.
    case_bool_decide as Hc.
    + repeat constructor; [done.. | unfold count_ge; lia].
    + constructor; [by apply IH|].
      apply insert_desc_HdRel; [unfold count_ge; lia | done].
Qed.

Lemma insertion_sort_desc_sorted l : Sorted count_ge (insertion_sort_desc l).
Proof.
  unfold insertion_sort_desc. induction l as [|x l IH]; simpl; [constructor|].
  by apply insert_desc_sorted.
Qed.

(** The interface has an implementation: a sort that keeps entries of equal
    count in their incoming order.  It stands for the library's sort only
    where a statement holds for every implementation. *)
Definition stable_sort : SortValues :=
  {| sort_values_desc := insertion_sort_desc;
     sort_values_perm := insertion_sort_desc_perm;
     sort_values_sorted := insertion_sort_desc_sorted |}.

(** ** Example frames *)

Definition span_A : SpanRecord := mkSpan "T1" "A" "" "web" "GET /" 2.
Definition span_B : SpanRecord := mkSpan "T1" "B" "A" "cart" "POST /add" 3.
Definition span_C : SpanRecord := mkSpan "T1" "C" "B" "payment" "POST /pay" 2.

(** Scenario 1: the chain A(web) <- B(cart) <- C(payment) in trace T1. *)
Definition chain_T1 : list SpanRecord := [span_A; span_B; span_C].

Definition chain_rank (s : string) : nat :=
  if decide (s = "A") then 3
  else if decide (s = "B") then 2
  else if decide (s = "C") then 1
  else 0.

(** Scenario 2: two rows of trace T2, both without parent. *)
Definition two_roots_T2 : list SpanRecord :=
  [ mkSpan "T2" "r1" "" "web" "GET /" 2;
    mkSpan "T2" "r2" "" "web" "GET /" 2 ].

(** Scenario 3: one row whose parent is nowhere in the frame. *)
Definition span_D : SpanRecord := mkSpan "T3" "D" "zzz" "cart" "GET /cart" 2.

(** Scenario 4, with a child of the shared span_id: two rows with span_id
    s1 in different traces and services, then a row whose parent is s1. *)
Definition s1_first : SpanRecord := mkSpan "T1" "s1" "" "web" "GET /" 2.
Definition s1_second : SpanRecord := mkSpan "T2" "s1" "" "cart" "GET /cart" 2.
Definition s1_child : SpanRecord := mkSpan "T1" "c1" "s1" "web" "render" 1.
Definition duplicate_s1 : list SpanRecord := [s1_first; s1_second; s1_child].

(** A parent chain that closes on itself below a root: R <- X <- Y <- X. *)
Definition cyclic_T4 : list SpanRecord :=
  [ mkSpan "T4" "R" "" "web" "GET /" 2;
    mkSpan "T4" "X" "R" "cart" "a" 1;
    mkSpan "T4" "Y" "X" "cart" "b" 1;
    mkSpan "T4" "X" "Y" "cart" "c" 1 ].

(** A root of trace T5 whose only child row carries trace T6. *)
Definition cross_root : SpanRecord := mkSpan "T5" "P" "" "web" "GET /" 2.
Definition cross_child : SpanRecord := mkSpan "T6" "Q" "P" "cart" "add" 3.
Definition cross_trace : list SpanRecord := [cross_root; cross_child].

(** ** Notions used to state the properties *)

(** The parent relation of the frame, read from the rows: [child_of df p c]
    when some row has span_id [c] and the non-empty parent_span_id [p]. *)
Definition child_of (df : list SpanRecord) (p c : string) : Prop :=
  ∃ r, r ∈ df ∧ span_id r = c ∧ parent_span_id r = p ∧ p ≠ "".

Definition acyclic (df : list SpanRecord) : Prop :=
  ∀ s, ¬ tc (child_of df) s s.

(** No span reachable from [s0] through the children lists is its own
    descendant: the part of the parent relation that a walk from [s0] can
    see has no cycle. *)
Definition acyclic_from (df : list SpanRecord) (s0 : string) : Prop :=
  ∀ s, rtc (child_of df) s0 s → ¬ tc (child_of df) s s.

(** The value of [calculate_depth_from] as a number (it always returns one,
    see [calculate_depth_from_Ok]). *)
Definition depth_from (df : list SpanRecord) (s : string) (V : gset string) : nat :=
  match calculate_depth_from df s V with
  | Ok d => d
  | Raise _ => 0
  end.

Definition depth_of (df : list SpanRecord) (s : string) : nat := depth_from df s ∅.

(** The root rows of one trace, in input order. *)
Definition roots_of (df : list SpanRecord) (tid : string) : list SpanRecord :=
  filter (λ r, trace_id r = tid) (root_spans df).

(** The call record that one child row contributes, if any. *)
Definition call_of (sts : gmap string string) (row : SpanRecord) : option CrossCall :=
  match sts !! parent_span_id row with
  | Some parent_service =>
      if decide (parent_service ≠ service_name row)
      then Some (mkCall parent_service (service_name row) (trace_id row)
                   (parent_span_id row) (span_id row))
      else None
  | None => None
  end.

(** The rows carrying span_id [k], in input order. *)
Definition rows_with_id (df : list SpanRecord) (k : string) : list SpanRecord :=
  filter (λ r, span_id r = k) df.

(** The frame with the trace_id of every row replaced by [f] of the row. *)
Definition with_trace (t : string) (r : SpanRecord) : SpanRecord :=
  mkSpan t (span_id r) (parent_span_id r) (service_name r) (span_name r)
    (span_kind r).

Definition retrace (f : SpanRecord → string) (df : list SpanRecord)
    : list SpanRecord :=
  (λ r, with_trace (f r) r) <$> df.

(** The greatest value of [f] over a group of rows; no value for no row. *)
Definition group_max (f : SpanRecord → nat) (rs : list SpanRecord) : option nat :=
  match rs with
  | [] => None
  | _ => Some (max_list (f <$> rs))
  end.

(** A chain of spans: each one is, by some row, the parent of the next. *)
Inductive chain (df : list SpanRecord) : list string → Prop :=
| chain_one s : chain df [s]
| chain_cons p c rest :
    child_of df p c → chain df (c :: rest) → chain df (p :: c :: rest).

(** The keys of a dict filled by first insertion: each value of [l] once,
    at the place of its first occurrence. *)
Definition first_seen (l : list string) : list string :=
  foldl (λ acc x, if decide (x ∈ acc) then acc else acc ++ [x]) [] l.

(** A frame with several traces: the chain of scenario 1, the two roots of
    scenario 2 and the orphan of scenario 3. *)
Definition sample_frame : list SpanRecord :=
  chain_T1 ++ two_roots_T2 ++ [span_D].

(** ** visualize_example_traces *)

(** A row with the further columns that the visualisation reads. *)
Record VizRow : Type := mkVizRow {
  span_columns : SpanRecord;
  anomaly_type : string;
  timestamp : string;
  duration_ms : Q;
  http_method : string;
  http_target : string
}.

(** The value that [span_map] keeps for a span (source lines 361-371). *)
Record SpanEntry : Type := mkEntry {
  entry_service : string;
  entry_span_id : string;
  entry_parent_span_id : string;
  entry_timestamp : string;
  entry_duration_ms : Q;
  entry_span_kind : Z;
  entry_span_name : string;
  entry_http_method : string;
  entry_http_target : string
}.

Definition entry_of (span : VizRow) : SpanEntry :=
  mkEntry (service_name (span_columns span)) (span_id (span_columns span))
    (parent_span_id (span_columns span)) (timestamp span) (duration_ms span)
    (span_kind (span_columns span)) (span_name (span_columns span))
    (http_method span) (http_target span).

(** The loop of source lines 359-371: a later row of the same span_id
    replaces the value and keeps the key's place in the dict. *)
Definition span_map (trace_spans : list VizRow) : list (string * SpanEntry) :=
  foldl (λ m span, dict_set (span_id (span_columns span)) (entry_of span) m)
    [] trace_spans.

(** Source lines 410-414. *)
Definition connector (depth : nat) (is_last : bool) : string :=
  if decide (depth = 0) then "┌─" else if is_last then "└─" else "├─".

(** One printed line of a tree: the prefix, the connector and the span that
    the rest of the line renders.  The rendering (source lines 391-408 and
    417-418) formats fields of the span alone. *)
Record TreeLine : Type := mkLine {
  line_prefix : string;
  line_connector : string;
  line_span : SpanEntry
}.

(** Source line 421. *)
Definition children_of (span_map : list (string * SpanEntry)) (span_id : string)
    : list string :=
  (filter (λ kv, entry_parent_span_id kv.2 = span_id) span_map).*1.

(** [print_span_tree] of source lines 383-429, as the lines it prints.
    [limit] is the number of nested calls that the interpreter still
    allows; a call beyond it raises RecursionError, which is [None]. *)
Fixpoint print_span_tree (limit : nat) (span_map : list (string * SpanEntry))
    (span_id : string) (depth : nat) (is_last : bool) (prefix : string)
    : option (list TreeLine) :=
  match limit with
  | 0 => None
  | S limit' =>
      match dict_get span_id span_map with
      | None => Some []
      | Some span =>
          let children := children_of span_map span_id in
          let child_prefix :=
            prefix +:+ (if is_last || bool_decide (depth = 0) then "   " else "│  ") in
          below ← mapM (λ ic : nat * string,
                          print_span_tree limit' span_map ic.2 (depth + 1)
                            (bool_decide (ic.1 = length children - 1)) child_prefix)
                       (imap pair children);
          Some (mkLine prefix (connector depth is_last) span :: concat below)
      end
  end.

(** What is shown for one example trace: the warning of source line 377, or
    the lines of the trees of its roots and the total of source line 435. *)
Inductive TraceView : Type :=
| NoRootSpan
| SpanTrees (lines : list TreeLine) (total_spans : nat).

(** Source lines 356-435, for one trace. *)
Definition visualize_trace (limit : nat) (df : list VizRow) (tid : string)
    : option TraceView :=
  let trace_spans := filter (λ r, trace_id (span_columns r) = tid) df in
  let span_map := span_map trace_spans in
  let root_spans :=
    filter (λ r, parent_span_id (span_columns r) = "") trace_spans in
  if decide (length root_spans = 0) then Some NoRootSpan
  else
    trees ← mapM (λ root,
                    print_span_tree limit span_map (span_id (span_columns root))
                      0 false "")
                 root_spans;
    Some (SpanTrees (concat trees) (length trace_spans)).

(** Source lines 327-333: trace_id, number of services, number of spans. *)
Definition trace_stats (df : list VizRow) (unique_traces : list string)
    : list (string * nat * nat) :=
  (λ tid,
     let trace_data := filter (λ r, trace_id (span_columns r) = tid) df in
     (tid, nunique (service_name ∘ span_columns <$> trace_data), length trace_data))
    <$> unique_traces.

(** The order of the sort keys [(x[1], x[2])], compared as tuples. *)
Definition stat_key_lt (a b : string * nat * nat) : Prop :=
  a.1.2 < b.1.2 ∨ (a.1.2 = b.1.2 ∧ a.2 < b.2).

#[global] Instance stat_key_lt_dec : RelDecision stat_key_lt.
Proof. intros a b. unfold stat_key_lt. apply _. Defined.

(** [list.sort(key=..., reverse=True)] is stable: entries of equal key keep
    their order.  Insertion from the right, each entry going in front of the
    first one whose key is not greater, is such a sort. *)
Fixpoint insert_stat (x : string * nat * nat) (l : list (string * nat * nat))
    : list (string * nat * nat) :=
  match l with
  | [] => [x]
  | y :: l' => if decide (stat_key_lt x y) then y :: insert_stat x l' else x :: l
  end.

Definition sort_stats (l : list (string * nat * nat)) : list (string * nat * nat) :=
  foldr insert_stat [] l.

(** Source lines 338-347. *)
Definition complex_traces (trace_stats : list (string * nat * nat))
    : list (string * nat * nat) :=
  let complex_traces := filter (λ t, 3 ≤ t.1.2) trace_stats in
  if decide (length complex_traces = 0) then
    let complex_traces := filter (λ t, 2 ≤ t.1.2) trace_stats in
    if decide (length complex_traces = 0) then take 5 trace_stats
    else complex_traces
  else complex_traces.

(** Source lines 349-351. *)
Definition sampled_traces (complex_traces : list (string * nat * nat)) : list string :=
  let num_samples := 5 `min` length complex_traces in
  (λ t, t.1.1) <$> take num_samples complex_traces.

(** The example traces of one anomaly type (source lines 320-351); [None]
    is the branch of source lines 323-325. *)
Definition example_traces (df : list VizRow) (type : string) : option (list string) :=
  let type_df := filter (λ r, anomaly_type r = type) df in
  let unique_traces := first_seen (trace_id ∘ span_columns <$> type_df) in
  if decide (length unique_traces = 0) then None
  else Some (sampled_traces (complex_traces (sort_stats (trace_stats df unique_traces)))).

(** The order of strings that [sorted] uses. *)
Definition string_le (a b : string) : Prop := String.leb a b = true.

#[global] Instance string_le_dec : RelDecision string_le.
Proof. intros a b. unfold string_le. apply _. Defined.

(** [sorted(anomaly_types)] *)
Definition sorted_anomaly_types (df : list VizRow) : list string :=
  merge_sort string_le (first_seen (anomaly_type <$> df)).

(** The function, as what it shows: for each anomaly type in sorted order,
    its example traces with their views.  [num_examples] is a parameter of
    the source that its body does not read. *)
Definition visualize_example_traces (num_examples : nat) (limit : nat)
    (df : list VizRow) : option (list (string * option (list (string * TraceView)))) :=
  mapM (λ type,
          match example_traces df type with
          | None => Some (type, None)
          | Some sampled =>
              views ← mapM (λ tid, view ← visualize_trace limit df tid;
                                   Some (tid, view))
                           sampled;
              Some (type, Some views)
          end)
       (sorted_anomaly_types df).

(** The parent relation that [print_span_tree] follows: [c] is a key of the
    map and its entry names [p] as parent. *)
Definition map_child (sm : list (string * SpanEntry)) (p c : string) : Prop :=
  ∃ e, dict_get c sm = Some e ∧ entry_parent_span_id e = p.

(** The rows of one trace. *)
Definition trace_rows (df : list VizRow) (tid : string) : list VizRow :=
  filter (λ r, trace_id (span_columns r) = tid) df.

(** The entry of [trace_stats] for one trace. *)
Definition trace_stat (df : list VizRow) (tid : string) : string * nat * nat :=
  (tid, nunique (service_name ∘ span_columns <$> trace_rows df tid),
   length (trace_rows df tid)).

(** A row of the frames above with the further columns filled in. *)
Definition with_columns (type : string) (r : SpanRecord) : VizRow :=
  mkVizRow r type "2024-01-01T00:00:00" 1 "GET" "/".

Definition viz_sample : list VizRow :=
  (with_columns "normal" <$> chain_T1) ++ (with_columns "cpu" <$> two_roots_T2).

(** A trace that is one chain of [n] spans: the root n0, and each span ni
    with the one before it as parent. *)
Definition chain_id (i : nat) : string := "n" +:+ pretty i.

Definition chain_row (i : nat) : SpanRecord :=
  mkSpan "T8" (chain_id i) (if decide (i = 0) then "" else chain_id (i - 1))
    "web" "GET /" 2.

Definition deep_chain (n : nat) : list SpanRecord := chain_row <$> seq 0 n.

(** Two traces of one anomaly type with one service and one span each. *)
Definition viz_ties : list VizRow :=
  with_columns "normal" <$>
    [ mkSpan "Ta" "a1" "" "web" "GET /" 2;
      mkSpan "Tb" "b1" "" "web" "GET /" 2 ].

(** A trace in which the span_id of the root comes back on a child row. *)
Definition viz_cyclic : list VizRow :=
  with_columns "normal" <$>
    [ mkSpan "T7" "r" "" "web" "GET /" 2;
      mkSpan "T7" "a" "r" "cart" "add" 3;
      mkSpan "T7" "r" "a" "web" "GET /" 2 ].

(** * Properties *)

(** ** The result monad *)

Section result_monad.
Context {A B : Type}.
Implicit Types (f g : A → result B) (l : list A).

Lemma mapM_result_cons f x l :
  mapM f (x :: l) = y ← f x; ys ← mapM f l; Ok (y :: ys).
Proof. reflexivity. Qed.

Lemma mapM_result_Ok f l ys :
  mapM f l = Ok ys ↔ Forall2 (λ x y, f x = Ok y) l ys.
Proof.
  revert ys. induction l as [|x l IH]; intros ys.
  - split; [intros [= <-]; constructor | by inversion 1].
  - rewrite mapM_result_cons. split.
    + destruct (f x) as [y|] eqn:Hx; [|done]. simpl.
      destruct (mapM f l) as [zs|] eqn:Hl; [|done]. intros [= <-].
      constructor; [done | by apply IH].
    + inversion 1 as [|? y ? zs Hx Hl]; subst. rewrite Hx. simpl.
      apply IH in Hl. by rewrite Hl.
Qed.

Lemma mapM_result_ext f g l :
  (∀ x, x ∈ l → f x = g x) → mapM f l = mapM g l.
Proof.
  induction l as [|x l IH]; intros Hfg; [done|].
  rewrite !mapM_result_cons, Hfg, IH; [done | | left].
  intros y Hy. apply Hfg. by right.
Qed.

Lemma mapM_result_total f l (h : A → B) :
  (∀ x, x ∈ l → f x = Ok (h x)) → mapM f l = Ok (h <$> l).
Proof.
  intros Hf. apply mapM_result_Ok. induction l as [|x l IH]; constructor.
  - apply Hf. left.
  - apply IH. intros y Hy. apply Hf. by right.
Qed.

Lemma mapM_result_Forall f l (P : B → Prop) :
  Forall (λ x, ∃ y, f x = Ok y ∧ P y) l →
  ∃ ys, mapM f l = Ok ys ∧ Forall P ys ∧ length ys = length l.
Proof.
  induction 1 as [|x l (y & Hy & HP) _ (ys & Hys & HPs & Hlen)].
  - exists []. by repeat split.
  - exists (y :: ys). rewrite mapM_result_cons, Hy. simpl. rewrite Hys. simpl.
    repeat split; [by constructor | by rewrite Hlen].
Qed.
End result_monad.

Lemma foldl_max_max_list (x : nat) (l : list nat) :
  foldl Nat.max x l = max_list (x :: l).
Proof.
  revert x. induction l as [|y l IH]; intros x; simpl.
  - lia.
  - rewrite IH. simpl. lia.
Qed.

Lemma py_max_cons x l : py_max (x :: l) = Ok (max_list (x :: l)).
Proof. unfold py_max. by rewrite foldl_max_max_list. Qed.

Lemma max_list_le (l : list nat) (b : nat) :
  (∀ x, x ∈ l → x ≤ b) → max_list l ≤ b.
Proof.
  induction l as [|x l IH]; intros Hb; simpl; [lia|].
  apply Nat.max_lub; [apply Hb; left | apply IH; intros y Hy; apply Hb; by right].
Qed.

Lemma max_list_ge (l : list nat) (x : nat) : x ∈ l → x ≤ max_list l.
Proof. apply max_list_elem_of_le. Qed.

(** ** The children index *)

Lemma build_index_snoc df row :
  build_index (df ++ [row]) = index_row (build_index df) row.
Proof. unfold build_index. by rewrite foldl_snoc. Qed.

(** The children list of [p] holds, in input order, the span_id of every
    row whose parent_span_id is [p]; the empty string has no entry. *)
Lemma children_spec df p :
  get_children (span_to_children df) p =
    if decide (p = "") then []
    else span_id <$> filter (λ r, parent_span_id r = p) df.
Proof.
  unfold span_to_children. induction df as [|row df IH] using rev_ind.
  - unfold get_children. simpl. rewrite lookup_empty. by case_decide.
  - rewrite build_index_snoc, filter_app, fmap_app.
    destruct (build_index df) as [ch info] eqn:Hb. simpl in *.
    rewrite filter_cons, filter_nil.
    case_bool_decide as Hp; simpl.
    + unfold get_children at 1. destruct (decide (parent_span_id row = p)) as [Heq|Hne].
      * subst p. rewrite lookup_insert_eq. simpl. rewrite IH.
        by case_decide.
      * rewrite lookup_insert_ne by done. fold (get_children ch p). rewrite IH.
        case_decide; [done|]. simpl. by rewrite app_nil_r.
    + rewrite IH.
      case_decide as Hp'; [done|].
      case_decide; [congruence|]. simpl. by rewrite app_nil_r.
Qed.

Lemma elem_of_children df p c :
  c ∈ get_children (span_to_children df) p ↔
  ∃ r, r ∈ df ∧ span_id r = c ∧ parent_span_id r = p ∧ p ≠ "".
Proof.
  rewrite children_spec. case_decide as Hp.
  - split; [by intros ?%elem_of_nil | naive_solver].
  - rewrite list_elem_of_fmap. setoid_rewrite list_elem_of_filter. naive_solver.
Qed.

Lemma elem_of_children_child_of df p c :
  c ∈ get_children (span_to_children df) p ↔ child_of df p c.
Proof. apply elem_of_children. Qed.

Lemma ranked_acyclic df (rank : string → nat) :
  (∀ p c, child_of df p c → rank c < rank p) → acyclic df.
Proof.
  intros Hrank. assert (∀ x y, tc (child_of df) x y → rank y < rank x) as Htc.
  { induction 1 as [x y Hxy | x y z Hxy _ IH]; [by apply Hrank|].
    apply Hrank in Hxy. lia. }
  intros s Hs. apply Htc in Hs. lia.
Qed.

(** ** calculate_depth: totality and the fuel-free equation *)

Lemma elem_of_all_span_ids df s :
  s ∈ all_span_ids df ↔ ∃ r, r ∈ df ∧ span_id r = s.
Proof.
  unfold all_span_ids. rewrite elem_of_list_to_set, elem_of_remove_dups,
    list_elem_of_fmap. naive_solver.
Qed.

Lemma length_remove_dups `{EqDecision A} (l : list A) :
  length (remove_dups l) ≤ length l.
Proof.
  induction l as [|x l IH]; simpl; [done|].
  case_decide; simpl; lia.
Qed.

Lemma size_all_span_ids df : size (all_span_ids df) ≤ length df.
Proof.
  unfold all_span_ids. rewrite size_list_to_set by apply NoDup_remove_dups.
  etrans; [apply length_remove_dups|]. by rewrite length_fmap.
Qed.

Lemma children_in_ids df p c :
  c ∈ get_children (span_to_children df) p → c ∈ all_span_ids df.
Proof.
  rewrite elem_of_children, elem_of_all_span_ids. naive_solver.
Qed.

Lemma calculate_depth_fuel_S ch n s V :
  calculate_depth_fuel ch (S n) s V =
    if decide (s ∈ V) then Ok 0
    else match get_children ch s with
         | [] => Ok 1
         | _ =>
             ds ← mapM (λ child, calculate_depth_fuel ch n child ({[s]} ∪ V))
                       (get_children ch s);
             max_child_depth ← py_max ds;
             Ok (1 + max_child_depth)
         end.
Proof. reflexivity. Qed.

#[local] Arguments calculate_depth_fuel : simpl never.

Section depth.
Variable df : list SpanRecord.
Local Abbreviation ch := (span_to_children df).
Local Abbreviation U := (all_span_ids df).

(** A span of the frame is measured within the budget left by the spans
    not yet on the path, and its depth is at most their number. *)
Lemma calculate_depth_fuel_ids n c V :
  c ∈ U → size (U ∖ V) < n →
  ∃ d, calculate_depth_fuel ch n c V = Ok d ∧ d ≤ size (U ∖ V).
Proof.
  revert c V. induction n as [|n IH]; intros c V Hc Hn; [lia|].
  rewrite calculate_depth_fuel_S. case_decide as HV; [exists 0; split; [done | lia]|].
  assert (size (U ∖ ({[c]} ∪ V)) < size (U ∖ V)) as Hlt.
  { apply subset_size. set_solver. }
  destruct (get_children ch c) as [|c1 cs] eqn:Hch.
  { exists 1. split; [done | lia]. }
  destruct (mapM_result_Forall
              (λ child, calculate_depth_fuel ch n child ({[c]} ∪ V))
              (c1 :: cs) (λ d, d ≤ size (U ∖ ({[c]} ∪ V))))
    as (ds & Hds & Hle & Hlen).
  { apply Forall_forall. intros c' Hc'. apply IH; [|lia].
    apply (children_in_ids df c). by rewrite Hch. }
  rewrite Hds. simpl. destruct ds as [|d ds]; [done|].
  rewrite py_max_cons. simpl. eexists. split; [done|].
  assert (max_list (d :: ds) ≤ size (U ∖ ({[c]} ∪ V))) as Hm.
  { apply max_list_le. intros x Hx. by eapply Forall_forall in Hle. }
  simpl in Hm. lia.
Qed.

(** More fuel never changes a result. *)
Lemma calculate_depth_fuel_mono n m s V d :
  calculate_depth_fuel ch n s V = Ok d → n ≤ m →
  calculate_depth_fuel ch m s V = Ok d.
Proof.
  revert m s V d. induction n as [|n IH]; intros m s V d Hd Hnm; [done|].
  destruct m as [|m]; [lia|]. rewrite calculate_depth_fuel_S in *.
  case_decide; [done|]. destruct (get_children ch s) as [|c1 cs]; [done|].
  destruct (mapM _ (c1 :: cs)) as [ds|] eqn:Hds in Hd; [|done].
  apply mapM_result_Ok in Hds.
  assert (mapM (λ child, calculate_depth_fuel ch m child ({[s]} ∪ V)) (c1 :: cs)
          = Ok ds) as ->; [|done].
  apply mapM_result_Ok. eapply Forall2_impl; [done|].
  intros c d' Hc. simpl in Hc. apply IH; [done | lia].
Qed.

Lemma calculate_depth_from_total s V :
  calculate_depth_from df s V = Ok (depth_from df s V) ∧
  depth_from df s V ≤ S (length df).
Proof.
  unfold depth_from, calculate_depth_from, depth_fuel.
  rewrite calculate_depth_fuel_S.
  pose proof (size_all_span_ids df) as HU.
  assert (∀ X, size (U ∖ X) ≤ length df) as Hsz.
  { intros X. etrans; [|exact HU]. apply subseteq_size. set_solver. }
  case_decide; [split; [done | lia]|].
  destruct (get_children ch s) as [|c1 cs] eqn:Hch; [split; [done | lia]|].
  destruct (mapM_result_Forall
              (λ child, calculate_depth_fuel ch (S (length df)) child ({[s]} ∪ V))
              (c1 :: cs) (λ d, d ≤ length df)) as (ds & Hds & Hle & Hlen).
  { apply Forall_forall. intros c' Hc'.
    destruct (calculate_depth_fuel_ids (S (length df)) c' ({[s]} ∪ V))
      as (d & Hd & Hdle).
    - apply (children_in_ids df s). by rewrite Hch.
    - specialize (Hsz ({[s]} ∪ V)). lia.
    - exists d. split; [done|]. specialize (Hsz ({[s]} ∪ V)). lia. }
  rewrite Hds. simpl. destruct ds as [|d ds]; [done|].
  rewrite py_max_cons. simpl. split; [done|].
  assert (max_list (d :: ds) ≤ length df) as Hm.
  { apply max_list_le. intros x Hx. by eapply Forall_forall in Hle. }
  simpl in Hm. lia.
Qed.

Lemma calculate_depth_from_Ok s V :
  calculate_depth_from df s V = Ok (depth_from df s V).
Proof. apply calculate_depth_from_total. Qed.

(** The equation of the source function, without fuel. *)
Lemma calculate_depth_from_unfold s V :
  calculate_depth_from df s V =
    if decide (s ∈ V) then Ok 0
    else match get_children ch s with
         | [] => Ok 1
         | children =>
             ds ← mapM (λ child, calculate_depth_from df child ({[s]} ∪ V)) children;
             max_child_depth ← py_max ds;
             Ok (1 + max_child_depth)
         end.
Proof.
  unfold calculate_depth_from at 1. unfold depth_fuel.
  rewrite calculate_depth_fuel_S.
  case_decide; [done|].
  destruct (get_children ch s) as [|c1 cs] eqn:Hch; [done|].
  erewrite mapM_result_ext; [done|].
  intros c Hc. simpl.
  rewrite (calculate_depth_from_Ok c). unfold calculate_depth_from, depth_fuel.
  destruct (calculate_depth_fuel_ids (S (length df)) c ({[s]} ∪ V))
    as (d & Hd & _).
  - apply (children_in_ids df s). by rewrite Hch.
  - pose proof (size_all_span_ids df) as HU.
    assert (size (U ∖ ({[s]} ∪ V)) ≤ size U) by (apply subseteq_size; set_solver).
    lia.
  - rewrite Hd. symmetry.
    pose proof (calculate_depth_from_Ok c ({[s]} ∪ V)) as Hc'.
    unfold calculate_depth_from, depth_fuel in Hc'.
    apply (calculate_depth_fuel_mono _ (S (S (length df)))) in Hd; [|lia].
    congruence.
Qed.

(** [visited] matters only through the spans reachable from the start. *)
Lemma calculate_depth_fuel_visited n c V W :
  (∀ x, rtc (child_of df) c x → (x ∈ V ↔ x ∈ W)) →
  calculate_depth_fuel ch n c V = calculate_depth_fuel ch n c W.
Proof.
  revert c V W. induction n as [|n IH]; intros c V W HVW; [done|].
  rewrite !calculate_depth_fuel_S. pose proof (HVW c (rtc_refl _ _)) as Hc.
  destruct (decide (c ∈ V)), (decide (c ∈ W)); [done | tauto | tauto |].
  destruct (get_children ch c) as [|c1 cs] eqn:Hch; [done|].
  erewrite mapM_result_ext; [done|].
  intros c' Hc'. simpl. apply IH. intros x Hx.
  assert (rtc (child_of df) c x) as Hcx.
  { eapply rtc_l; [|done]. apply elem_of_children_child_of.
    by rewrite Hch. }
  apply HVW in Hcx. set_solver.
Qed.
End depth.

(** ** Dictionaries *)

Lemma dict_get_set {K V} `{EqDecision K} (k k' : K) (v : V) d :
  dict_get k' (dict_set k v d) = if decide (k' = k) then Some v else dict_get k' d.
Proof.
  induction d as [|[k0 v0] d IH]; simpl.
  - by repeat case_decide.
  - destruct (decide (k = k0)) as [->|Hne]; simpl.
    + by repeat case_decide.
    + rewrite IH. repeat case_decide; congruence.
Qed.

Lemma max_list_app (l k : list nat) :
  max_list (l ++ k) = Nat.max (max_list l) (max_list k).
Proof. induction l as [|x l IH]; simpl; [done|]. rewrite IH. lia. Qed.

Lemma group_max_snoc f rs r :
  group_max f (rs ++ [r]) =
    Some (match group_max f rs with
          | None => f r
          | Some m => Nat.max m (f r)
          end).
Proof.
  assert (max_list (f <$> (rs ++ [r])) = Nat.max (max_list (f <$> rs)) (f r)) as Hm.
  { rewrite fmap_app, max_list_app. simpl. lia. }
  unfold group_max. destruct rs as [|r0 rs].
  - simpl. f_equal. lia.
  - rewrite <-Hm. done.
Qed.

(** ** The loop over the root rows *)

Lemma calculate_depth_Ok df s : calculate_depth df s = Ok (depth_of df s).
Proof. apply calculate_depth_from_Ok. Qed.

Lemma root_loop_spec df rs :
  ∃ td tb,
    foldl (root_step df) (Ok ([], [])) rs = Ok (td, tb) ∧
    ∀ tid,
      dict_get tid td =
        group_max (λ r, depth_of df (span_id r)) (filter (λ r, trace_id r = tid) rs) ∧
      dict_get tid tb =
        group_max (λ r, breadth_of df (span_id r)) (filter (λ r, trace_id r = tid) rs).
Proof.
  induction rs as [|r rs (td & tb & Hfold & Hinv)] using rev_ind.
  - exists [], []. split; [done|]. intros tid. by rewrite filter_nil.
  - rewrite foldl_snoc, Hfold. unfold root_step. simpl.
    rewrite calculate_depth_Ok. simpl.
    destruct (Hinv (trace_id r)) as [Hd Hb].
    destruct (dict_get (trace_id r) td) as [d0|] eqn:Hd0.
    + unfold dict_getitem.
      destruct (filter (λ r0, trace_id r0 = trace_id r) rs) as [|r1 rs1] eqn:Hf;
        [done|].
      rewrite Hb. simpl. eexists _, _. split; [done|].
      intros tid. rewrite !dict_get_set, filter_app, filter_cons, filter_nil.
      destruct (Hinv tid) as [Hd' Hb'].
      case_decide as Htid.
      * subst tid. rewrite decide_True by done. rewrite Hf, !group_max_snoc.
        simpl. split; [|done]. simpl in Hd. congruence.
      * rewrite decide_False by done. by rewrite app_nil_r.
    + eexists _, _. split; [done|].
      intros tid. rewrite !dict_get_set, filter_app, filter_cons, filter_nil.
      destruct (Hinv tid) as [Hd' Hb'].
      case_decide as Htid.
      * subst tid. rewrite decide_True by done. rewrite !group_max_snoc.
        rewrite <-Hd. split; [done|].
        destruct (filter (λ r0, trace_id r0 = trace_id r) rs); [done|].
        done.
      * rewrite decide_False by done. by rewrite app_nil_r.
Qed.

(** [trace_depths] and [trace_breadths] hold, for each trace with a root row,
    the greatest per-root value, and nothing for any other trace. *)
Lemma trace_metrics_spec df :
  ∃ td tb,
    trace_metrics df = Ok (td, tb) ∧
    ∀ tid,
      dict_get tid td = group_max (λ r, depth_of df (span_id r)) (roots_of df tid) ∧
      dict_get tid tb = group_max (λ r, breadth_of df (span_id r)) (roots_of df tid).
Proof. apply root_loop_spec. Qed.

(** ** The statistics never raise on a non-empty dictionary *)

Lemma stats_of_Ok l : l ≠ [] → is_Ok (stats_of l).
Proof.
  intros Hl. destruct l as [|x l]; [done|]. unfold stats_of.
  rewrite py_max_cons. unfold py_min, py_truediv, py_index.
  destruct (lookup_lt_is_Some_2 (merge_sort le (x :: l)) (length (x :: l) / 2))
    as [med Hmed].
  { rewrite (Permutation_length (merge_sort_Permutation _ _)).
    apply Nat.div_lt; simpl; lia. }
  rewrite Hmed. rewrite decide_False by (simpl; lia). by eexists.
Qed.

Lemma foldl_best_elem_of (d : list (string * nat)) best :
  foldl (λ best kv', if decide (best.2 < kv'.2) then kv' else best) best d
    ∈ best :: d.
Proof.
  revert best. induction d as [|kv d IH]; intros best; simpl; [left|].
  case_decide.
  - right. apply IH.
  - specialize (IH best). set_solver.
Qed.

Lemma py_max_key_elem_of d k : py_max_key d = Ok k → k ∈ d.*1.
Proof.
  destruct d as [|kv d]; [done|]. intros [= <-].
  apply list_elem_of_fmap. eexists. split; [done|]. apply foldl_best_elem_of.
Qed.

Lemma dict_get_is_Some {K V} `{EqDecision K} (k : K) (d : list (K * V)) :
  k ∈ d.*1 → is_Some (dict_get k d).
Proof.
  induction d as [|[k0 v0] d IH]; simpl; [by intros ?%elem_of_nil|].
  intros Hk. case_decide; [by eexists|]. apply IH. set_solver.
Qed.

Lemma analyze_trace_depth_Ok df :
  ∃ report,
    analyze_trace_depth df = Ok report ∧
    trace_metrics df = Ok (trace_depths report, trace_breadths report).
Proof.
  destruct (trace_metrics_spec df) as (td & tb & Hm & Hinv).
  unfold analyze_trace_depth. rewrite Hm. simpl.
  destruct td as [|[k v] td]; [by eexists|].
  assert (tb ≠ []) as Htb.
  { intros ->. destruct (Hinv k) as [Hd Hb]. simpl in Hd, Hb.
    rewrite decide_True in Hd by done.
    unfold group_max in *. destruct (roots_of df k); done. }
  remember ((k, v) :: td) as td0 eqn:Htd0.
  destruct (stats_of_Ok (td0.*2)) as [ds Hds]; [by subst|].
  destruct (stats_of_Ok (tb.*2)) as [bs Hbs]; [by destruct tb|].
  destruct (py_max_key td0) as [deepest|] eqn:Hk; [|by subst].
  destruct (dict_get_is_Some deepest td0) as [dd Hdd].
  { by apply py_max_key_elem_of. }
  unfold dict_getitem. cbn [mbind result_bind].
  rewrite Hds, Hbs, Hdd. by eexists.
Qed.

(** ** Depth on an acyclic frame *)

Lemma acyclic_acyclic_from df s0 : acyclic df → acyclic_from df s0.
Proof. intros Hacyc s _. apply Hacyc. Qed.

(** Where a span is not its own descendant, its depth is given by the
    recursive definition. *)
Lemma depth_of_off_cycle df s :
  ¬ tc (child_of df) s s →
  depth_of df s =
    match get_children (span_to_children df) s with
    | [] => 1
    | children => 1 + max_list (depth_of df <$> children)
    end.
Proof.
  intros Hacyc. pose proof (calculate_depth_Ok df s) as Hs.
  unfold calculate_depth in Hs. rewrite calculate_depth_from_unfold in Hs.
  rewrite decide_False in Hs by set_solver.
  destruct (get_children (span_to_children df) s) as [|c1 cs] eqn:Hch.
  { by injection Hs. }
  rewrite (mapM_result_total _ _ (depth_of df)) in Hs.
  - cbn [mbind result_bind] in Hs. rewrite fmap_cons, py_max_cons in Hs.
    cbn [mbind result_bind] in Hs. injection Hs as Hs.
    by rewrite <-Hs, fmap_cons.
  - intros c Hc. rewrite <-calculate_depth_Ok.
    unfold calculate_depth, calculate_depth_from.
    apply calculate_depth_fuel_visited. intros x Hx.
    assert (x ≠ s); [|set_solver].
    intros ->. apply Hacyc. eapply tc_rtc_r; [|done].
    apply tc_once, elem_of_children_child_of. by rewrite Hch.
Qed.

(** C1.  Take a trace with exactly one root row, such that no span reachable
    from that root is its own descendant (as on any frame whose parent
    relation is acyclic).  For every span the walk can reach, the computed
    depth is 1 when the children mapping has no entry for it, and otherwise
    1 plus the greatest depth of its children.  The depth reported for the
    trace is the depth of the root, the breadth reported is the number of
    immediate children of the root, and the depth is 1 when the root has no
    children. *)
Theorem single_root_depth_is_recursive df tid root :
  acyclic_from df (span_id root) →
  roots_of df tid = [root] →
  (∀ s, rtc (child_of df) (span_id root) s →
        calculate_depth df s = Ok (depth_of df s) ∧
        depth_of df s =
          match get_children (span_to_children df) s with
          | [] => 1
          | children => 1 + max_list (depth_of df <$> children)
          end) ∧
  ∃ report,
    analyze_trace_depth df = Ok report ∧
    dict_get tid (trace_depths report) = Some (depth_of df (span_id root)) ∧
    dict_get tid (trace_breadths report) =
      Some (length (get_children (span_to_children df) (span_id root))) ∧
    (get_children (span_to_children df) (span_id root) = [] →
     dict_get tid (trace_depths report) = Some 1).
Proof.
  intros Hacyc Hroot. split.
  { intros s Hs. split; [apply calculate_depth_Ok|].
    by apply depth_of_off_cycle, Hacyc. }
  destruct (analyze_trace_depth_Ok df) as (report & Hrep & Hm).
  destruct (trace_metrics_spec df) as (td & tb & Hm' & Hinv).
  rewrite Hm in Hm'. injection Hm' as <- <-.
  destruct (Hinv tid) as [Hd Hb]. rewrite Hroot in Hd, Hb. simpl in Hd, Hb.
  rewrite Nat.max_0_r in Hd, Hb.
  exists report. repeat split; [done.. |].
  intros Hleaf. rewrite Hd. f_equal.
  rewrite depth_of_off_cycle by (apply Hacyc; done). by rewrite Hleaf.
Qed.

(** ** The chain of scenario 1 *)

Lemma chain_T1_acyclic : acyclic chain_T1.
Proof.
  apply (ranked_acyclic _ chain_rank).
  intros p c (r & Hr & Hc & Hp & Hne). subst p c.
  unfold chain_T1 in Hr. set_unfold in Hr.
  destruct Hr as [Hr | [Hr | [Hr | []]]]; subst r; first [done | vm_compute; lia].
Qed.

(** The chain of scenario 1 meets the hypotheses of C1; unfolding the
    recursive equation at A, B and C gives depth 3, and the breadth is 1. *)
Lemma single_root_depth_chain_T1 :
  ∃ report,
    analyze_trace_depth chain_T1 = Ok report ∧
    dict_get "T1" (trace_depths report) = Some 3 ∧
    dict_get "T1" (trace_breadths report) = Some 1.
Proof.
  destruct (single_root_depth_is_recursive chain_T1 "T1" span_A
              (acyclic_acyclic_from _ _ chain_T1_acyclic) eq_refl)
    as [Hrec (report & Hrep & Hd & Hb & _)].
  assert (child_of chain_T1 "A" "B") as HAB.
  { exists span_B. repeat split; [unfold chain_T1; set_solver | done]. }
  assert (child_of chain_T1 "B" "C") as HBC.
  { exists span_C. repeat split; [unfold chain_T1; set_solver | done]. }
  change (span_id span_A) with "A" in Hrec.
  exists report. split; [exact Hrep|]. split.
  - rewrite Hd. apply (f_equal Some). change (span_id span_A) with "A".
    rewrite (proj2 (Hrec "A" (rtc_refl _ _))).
    replace (get_children (span_to_children chain_T1) "A") with ["B"]
      by (vm_compute; reflexivity).
    simpl. rewrite (proj2 (Hrec "B" (rtc_once _ _ HAB))).
    replace (get_children (span_to_children chain_T1) "B") with ["C"]
      by (vm_compute; reflexivity).
    simpl. rewrite (proj2 (Hrec "C" (rtc_l _ _ _ _ HAB (rtc_once _ _ HBC)))).
    replace (get_children (span_to_children chain_T1) "C") with (@nil string)
      by (vm_compute; reflexivity).
    reflexivity.
  - rewrite Hb. vm_compute. reflexivity.
Defined.

(** Below the root R the chain X <- Y <- X closes on itself; the walk stops
    at the second visit of X. *)
Example cyclic_T4_depth :
  calculate_depth cyclic_T4 "R" = Ok 3 ∧
  calculate_depth_from cyclic_T4 "X" {["R"; "X"; "Y"]} = Ok 0.
Proof. split; vm_compute; reflexivity. Qed.

(** ** The id indexes: a later row overwrites an earlier one *)

Lemma zip_fmap_same {A B C} (f : A → B) (g : A → C) (l : list A) :
  zip (f <$> l) (g <$> l) = (λ x, (f x, g x)) <$> l.
Proof. induction l as [|x l IH]; [done|]. rewrite !fmap_cons. simpl. by rewrite IH. Qed.

Lemma span_to_service_snoc df r :
  span_to_service (df ++ [r]) = <[span_id r := service_name r]> (span_to_service df).
Proof.
  unfold span_to_service, py_dict_zip.
  by rewrite !zip_fmap_same, fmap_app, foldl_app.
Qed.

Lemma span_to_info_snoc df r :
  span_to_info (df ++ [r]) = <[span_id r := info_of r]> (span_to_info df).
Proof.
  unfold span_to_info. rewrite build_index_snoc. unfold index_row.
  destruct (build_index df) as [ch info]. by case_bool_decide.
Qed.

Lemma rows_with_id_snoc df r k :
  rows_with_id (df ++ [r]) k =
    if decide (span_id r = k) then rows_with_id df k ++ [r] else rows_with_id df k.
Proof.
  unfold rows_with_id. rewrite filter_app, filter_cons, filter_nil.
  case_decide; [done | by rewrite app_nil_r].
Qed.

Lemma span_to_service_spec df k :
  span_to_service df !! k = service_name <$> last (rows_with_id df k).
Proof.
  induction df as [|r df IH] using rev_ind; [done|].
  rewrite span_to_service_snoc, rows_with_id_snoc, lookup_insert.
  case_decide; [by rewrite last_snoc | done].
Qed.

Lemma span_to_info_spec df k :
  span_to_info df !! k = info_of <$> last (rows_with_id df k).
Proof.
  induction df as [|r df IH] using rev_ind; [done|].
  rewrite span_to_info_snoc, rows_with_id_snoc, lookup_insert.
  case_decide; [by rewrite last_snoc | done].
Qed.

Lemma span_to_service_Some df k s :
  span_to_service df !! k = Some s →
  ∃ q, q ∈ df ∧ span_id q = k ∧ service_name q = s.
Proof.
  rewrite span_to_service_spec. intros Hs.
  destruct (last (rows_with_id df k)) as [q|] eqn:Hq; [|done].
  injection Hs as <-. apply last_Some_elem_of in Hq.
  apply list_elem_of_filter in Hq as [? ?]. by exists q.
Qed.

Lemma span_to_service_None df k :
  span_to_service df !! k = None ↔ k ∉ all_span_ids df.
Proof.
  rewrite span_to_service_spec, elem_of_all_span_ids. split.
  - intros Hnone (q & Hq & Hk).
    assert (q ∈ rows_with_id df k) as Hin by by apply list_elem_of_filter.
    destruct (rows_with_id df k) as [|x l] using rev_ind;
      [by apply elem_of_nil in Hin | by rewrite last_snoc in Hnone].
  - intros Hno. destruct (last (rows_with_id df k)) as [q|] eqn:Hq; [|done].
    exfalso. apply Hno. apply last_Some_elem_of in Hq.
    apply list_elem_of_filter in Hq as [? ?]. by exists q.
Qed.

(** ** The list of cross-service calls *)

Lemma call_loop_spec sts calls rows :
  foldl (call_step sts) calls rows = calls ++ omap (call_of sts) rows.
Proof.
  revert calls. induction rows as [|row rows IH]; intros calls; simpl.
  - by rewrite app_nil_r.
  - rewrite IH. unfold call_step, call_of.
    destruct (sts !! parent_span_id row) as [ps|]; [|done].
    case_decide; [|done]. by rewrite <-app_assoc.
Qed.

Lemma cross_service_calls_spec df :
  cross_service_calls df = omap (call_of (span_to_service df)) (child_spans df).
Proof. unfold cross_service_calls. by rewrite call_loop_spec. Qed.

Lemma elem_of_cross_service_calls df call :
  call ∈ cross_service_calls df ↔
  ∃ row, row ∈ df ∧ parent_span_id row ≠ "" ∧
         call_of (span_to_service df) row = Some call.
Proof.
  rewrite cross_service_calls_spec, list_elem_of_omap. unfold child_spans.
  setoid_rewrite list_elem_of_filter. naive_solver.
Qed.

(** C3, as the code has it.  Both id indexes keep, for a span_id carried by
    several rows, the row that comes last in input order: a lookup in
    [span_to_info] or [span_to_service] resolves to it, the parent service
    of every cross-service call is the service of the last row carrying the
    parent's span_id, and every row carrying a shared span_id (the first
    one too) is in the duplicate finding. *)
Theorem last_record_wins_index df k :
  span_to_info df !! k = info_of <$> last (rows_with_id df k) ∧
  span_to_service df !! k = service_name <$> last (rows_with_id df k) ∧
  (∀ call, call ∈ cross_service_calls df →
     service_name <$> last (rows_with_id df (cc_parent_span_id call))
       = Some (cc_parent_service call)) ∧
  (∀ r, r ∈ rows_with_id df k → 1 < length (rows_with_id df k) →
     r ∈ duplicate_span_ids df).
Proof.
  split; [apply span_to_info_spec|]. split; [apply span_to_service_spec|]. split.
  - intros call (row & _ & _ & Hcall)%elem_of_cross_service_calls.
    unfold call_of in Hcall.
    destruct (span_to_service df !! parent_span_id row) as [ps|] eqn:Hps; [|done].
    case_decide; [|done]. injection Hcall as <-. simpl.
    by rewrite <-span_to_service_spec.
  - intros r [Hk Hr]%list_elem_of_filter Hlen.
    apply list_elem_of_filter. split; [|done]. unfold rows_with_id in Hlen.
    by rewrite Hk.
Qed.

(** C3 as stated fails on scenario 4: the first row with span_id s1 is
    [s1_first], yet both indexes resolve s1 to [s1_second], and the child of
    s1 gets an edge from the service of [s1_second]. *)
Lemma first_record_does_not_win :
  head (rows_with_id duplicate_s1 "s1") = Some s1_first ∧
  span_to_info duplicate_s1 !! "s1" = Some (info_of s1_second) ∧
  info_of s1_second ≠ info_of s1_first ∧
  span_to_service duplicate_s1 !! "s1" = Some (service_name s1_second) ∧
  service_name s1_second ≠ service_name s1_first ∧
  cross_service_calls duplicate_s1 = [mkCall "cart" "web" "T1" "s1" "c1"] ∧
  duplicate_span_ids duplicate_s1 = [s1_first; s1_second].
Proof. repeat split; first [by vm_compute | done]. Qed.

(** ** Roots per trace *)

Lemma root_spans_snoc df r :
  root_spans (df ++ [r]) =
    if decide (parent_span_id r = "") then root_spans df ++ [r] else root_spans df.
Proof.
  unfold root_spans. rewrite filter_app, filter_cons, filter_nil.
  case_decide; [done | by rewrite app_nil_r].
Qed.

Lemma roots_of_snoc df r tid :
  roots_of (df ++ [r]) tid =
    if decide (parent_span_id r = "" ∧ trace_id r = tid)
    then roots_of df tid ++ [r] else roots_of df tid.
Proof.
  unfold roots_of. rewrite root_spans_snoc.
  destruct (decide (parent_span_id r = "")) as [Hp|Hp].
  - rewrite filter_app, filter_cons, filter_nil.
    destruct (decide (trace_id r = tid)).
    + by rewrite decide_True.
    + rewrite decide_False by tauto. by rewrite app_nil_r.
  - by rewrite decide_False by tauto.
Qed.

Lemma filter_eq_nil {A} (P : A → Prop) `{∀ x, Decision (P x)} (l : list A) :
  filter P l = [] ↔ ∀ x, x ∈ l → ¬ P x.
Proof.
  split.
  - intros Hnil x Hx HP.
    assert (x ∈ filter P l) as Hin by by apply list_elem_of_filter.
    rewrite Hnil in Hin. by apply elem_of_nil in Hin.
  - intros Hno. destruct (filter P l) as [|y l'] eqn:Hf; [done|].
    assert (y ∈ filter P l) as Hy by (rewrite Hf; left).
    apply list_elem_of_filter in Hy as [HP Hy]. by apply Hno in Hy.
Qed.

Lemma roots_of_no_row df tid :
  filter (λ r, trace_id r = tid) df = [] → roots_of df tid = [].
Proof.
  rewrite filter_eq_nil. intros Hno. unfold roots_of, root_spans.
  apply filter_eq_nil. intros x [_ Hx]%list_elem_of_filter. by apply Hno.
Qed.

(** A trace has an entry as soon as it has a row, and the entry counts its
    root rows. *)
Lemma root_spans_per_trace_spec df tid :
  root_spans_per_trace df !! tid =
    match filter (λ r, trace_id r = tid) df with
    | [] => None
    | _ => Some (length (roots_of df tid))
    end.
Proof.
  unfold root_spans_per_trace.
  induction df as [|r df IH] using rev_ind; [done|].
  rewrite foldl_snoc, roots_of_snoc, filter_app, filter_cons, filter_nil.
  destruct (decide (trace_id r = tid)) as [Htid|Htid].
  - subst tid. rewrite lookup_insert_eq, IH. unfold is_root.
    assert (∀ l : list SpanRecord, ∃ x l', l ++ [r] = x :: l') as Hcons.
    { intros [|x l]; simpl; eauto. }
    destruct (Hcons (filter (λ r0, trace_id r0 = trace_id r) df)) as (x & l' & ->).
    f_equal. case_bool_decide as Hp.
    + rewrite decide_True by done. rewrite length_app. simpl.
      destruct (filter _ df) as [|y l] eqn:Hf; simpl; [|lia].
      by rewrite roots_of_no_row.
    + rewrite decide_False by tauto.
      destruct (filter _ df) as [|y l] eqn:Hf; simpl; [|lia].
      by rewrite roots_of_no_row.
  - rewrite lookup_insert_ne, IH by done.
    rewrite decide_False by tauto. by rewrite app_nil_r.
Qed.

Lemma multi_root_traces_spec df tid n :
  multi_root_traces df !! tid = Some n ↔ n = length (roots_of df tid) ∧ 1 < n.
Proof.
  unfold multi_root_traces. rewrite map_lookup_filter_Some. simpl.
  rewrite root_spans_per_trace_spec. split.
  - intros [Hn Hlt]. destruct (filter _ df); [done|]. by injection Hn as <-.
  - intros [-> Hlt]. split; [|done].
    destruct (filter (λ r, trace_id r = tid) df) as [|x l] eqn:Hf; [|done].
    rewrite roots_of_no_row in Hlt by done. simpl in Hlt. lia.
Qed.

Lemma depth_of_leaf df s :
  get_children (span_to_children df) s = [] → depth_of df s = 1.
Proof.
  intros Hleaf. pose proof (calculate_depth_Ok df s) as Hs.
  unfold calculate_depth in Hs. rewrite calculate_depth_from_unfold in Hs.
  rewrite decide_False, Hleaf in Hs by set_solver. by injection Hs.
Qed.

(** C4.  A trace is in the multi-root finding exactly when it has more than
    one root row, with that number of rows; the depth and the breadth
    reported for a trace are the greatest per-root depth and breadth over
    its root rows; a trace without root row has no entry at all; and when
    no root of a trace has children, its depth is 1. *)
Theorem multi_root_metrics_are_max df tid :
  (∀ n, multi_root_traces df !! tid = Some n ↔
        n = length (roots_of df tid) ∧ 1 < n) ∧
  (∀ s, calculate_depth df s = Ok (depth_of df s)) ∧
  ∃ report,
    analyze_trace_depth df = Ok report ∧
    match roots_of df tid with
    | [] =>
        dict_get tid (trace_depths report) = None ∧
        dict_get tid (trace_breadths report) = None
    | roots =>
        dict_get tid (trace_depths report) =
          Some (max_list ((λ r, depth_of df (span_id r)) <$> roots)) ∧
        dict_get tid (trace_breadths report) =
          Some (max_list ((λ r, breadth_of df (span_id r)) <$> roots)) ∧
        ((∀ r, r ∈ roots → get_children (span_to_children df) (span_id r) = []) →
         dict_get tid (trace_depths report) = Some 1)
    end.
Proof.
  split; [intros n; apply multi_root_traces_spec|].
  split; [apply calculate_depth_Ok|].
  destruct (analyze_trace_depth_Ok df) as (report & Hrep & Hm).
  destruct (trace_metrics_spec df) as (td & tb & Hm' & Hinv).
  rewrite Hm in Hm'. injection Hm' as <- <-.
  exists report. split; [done|].
  destruct (Hinv tid) as [Hd Hb]. unfold group_max in Hd, Hb.
  destruct (roots_of df tid) as [|r roots] eqn:Hr; [done|].
  split; [done|]. split; [done|].
  intros Hleaf. rewrite Hd. f_equal.
  assert (∀ l : list SpanRecord,
            l ≠ [] → (∀ x, x ∈ l → depth_of df (span_id x) = 1) →
            max_list ((λ x, depth_of df (span_id x)) <$> l) = 1) as Hone.
  { induction l as [|x l IH]; [done|]. intros _ Hl. rewrite fmap_cons. simpl.
    rewrite Hl by left. destruct l as [|y l]; [done|].
    rewrite IH; [done | done |]. intros z Hz. apply Hl. by right. }
  apply Hone; [done|]. intros x Hx. by apply depth_of_leaf, Hleaf.
Qed.

Example two_roots_T2_report :
  multi_root_traces two_roots_T2 !! "T2" = Some 2 ∧
  trace_depths <$> analyze_trace_depth two_roots_T2 = Ok [("T2", 1)] ∧
  trace_breadths <$> analyze_trace_depth two_roots_T2 = Ok [("T2", 0)].
Proof. repeat split; by vm_compute. Qed.

(** ** Orphans *)

Lemma filter_loop_spec {A} (P : A → Prop) `{∀ x, Decision (P x)} (acc l : list A) :
  foldl (λ acc x, if decide (P x) then acc ++ [x] else acc) acc l = acc ++ filter P l.
Proof.
  revert acc. induction l as [|x l IH]; intros acc; simpl.
  - by rewrite app_nil_r.
  - rewrite IH, filter_cons. case_decide; [|done]. by rewrite <-app_assoc.
Qed.

Lemma orphaned_spans_spec df :
  orphaned_spans df =
    filter (λ r, parent_span_id r ∉ all_span_ids df) (child_spans df).
Proof. unfold orphaned_spans. by rewrite filter_loop_spec. Qed.

(** C5.  The orphan report holds exactly the rows whose parent_span_id is
    non-empty and is the span_id of no row of the whole frame, whatever the
    trace; a row outside the report has an empty parent_span_id or one
    carried as span_id by some row; a frame made of a single row with
    parent zzz and another span_id yields the one finding (its span_id,
    zzz). *)
Theorem orphans_are_unresolved_parents df :
  (∀ r, r ∈ orphaned_spans df ↔
        r ∈ df ∧ parent_span_id r ≠ "" ∧
        ¬ ∃ q, q ∈ df ∧ span_id q = parent_span_id r) ∧
  (∀ r, r ∈ df → r ∉ orphaned_spans df →
        parent_span_id r = "" ∨ ∃ q, q ∈ df ∧ span_id q = parent_span_id r) ∧
  (∀ d, parent_span_id d = "zzz" → span_id d ≠ "zzz" →
        orphan_finding <$> orphaned_spans [d] = [(span_id d, "zzz")] ∧
        analyze_orphaned_spans [d] = Some [d]).
Proof.
  assert (∀ r, r ∈ orphaned_spans df ↔
               r ∈ df ∧ parent_span_id r ≠ "" ∧
               ¬ ∃ q, q ∈ df ∧ span_id q = parent_span_id r) as Hiff.
  { intros r. rewrite orphaned_spans_spec. unfold child_spans.
    rewrite !list_elem_of_filter, elem_of_all_span_ids. tauto. }
  split; [done|]. split.
  - intros r Hr Hno. rewrite Hiff in Hno.
    destruct (decide (parent_span_id r = "")) as [|Hp]; [by left|]. right.
    destruct (decide (parent_span_id r ∈ all_span_ids df)) as [Hin|Hin].
    + by apply elem_of_all_span_ids in Hin.
    + exfalso. apply Hno. repeat split; [done..|].
      by rewrite <-elem_of_all_span_ids.
  - intros d Hp Hd.
    assert (orphaned_spans [d] = [d]) as Ho.
    { rewrite orphaned_spans_spec. unfold child_spans.
      rewrite (filter_cons_True _ d []) by (rewrite Hp; done).
      rewrite filter_nil. rewrite filter_cons_True; [by rewrite filter_nil|].
      rewrite elem_of_all_span_ids. intros (q & Hq & Hqd).
      apply list_elem_of_singleton in Hq. subst q. congruence. }
    unfold analyze_orphaned_spans. rewrite Ho. unfold orphan_finding. simpl.
    by rewrite Hp.
Qed.

Example span_D_is_the_orphan :
  orphan_finding <$> orphaned_spans [span_D] = [("D", "zzz")].
Proof. by vm_compute. Qed.

(** ** Duplicate span_ids *)

Lemma filter_nonempty_lookup {A} (P : A → Prop) `{∀ x, Decision (P x)} (l : list A) :
  0 < length (filter P l) ↔ ∃ j y, l !! j = Some y ∧ P y.
Proof.
  split.
  - intros Hlen. destruct (filter P l) as [|y l'] eqn:Hf; [simpl in Hlen; lia|].
    assert (y ∈ filter P l) as Hy by (rewrite Hf; left).
    apply list_elem_of_filter in Hy as [HP Hy].
    apply list_elem_of_lookup in Hy as [j Hj]. eauto.
  - intros (j & y & Hj & HP).
    assert (y ∈ filter P l) as Hy.
    { apply list_elem_of_filter. split; [done|]. by eapply list_elem_of_lookup_2. }
    destruct (filter P l); [by apply elem_of_nil in Hy | simpl; lia].
Qed.

(** More than one element of [l] satisfies [P] exactly when two distinct
    positions of [l] hold such elements. *)
Lemma filter_two_lookup {A} (P : A → Prop) `{∀ x, Decision (P x)} (l : list A) :
  1 < length (filter P l) ↔
  ∃ i j x y, i ≠ j ∧ l !! i = Some x ∧ l !! j = Some y ∧ P x ∧ P y.
Proof.
  induction l as [|a l IH].
  - split; [simpl; lia | by intros (i & j & x & y & _ & Hi & _)].
  - rewrite filter_cons. split.
    + intros Hlen. destruct (decide (P a)) as [Ha|Ha].
      * simpl in Hlen.
        destruct (proj1 (filter_nonempty_lookup P l)) as (j & y & Hj & Hy); [lia|].
        exists 0, (S j), a, y. by repeat split.
      * apply IH in Hlen as (i & j & x & y & Hij & Hi & Hj & Hx & Hy).
        exists (S i), (S j), x, y. repeat split; [lia | done..].
    + intros (i & j & x & y & Hij & Hi & Hj & Hx & Hy).
      destruct i as [|i], j as [|j]; [done | | |].
      * injection Hi as ->. rewrite decide_True by done. simpl.
        assert (0 < length (filter P l)); [|lia].
        apply filter_nonempty_lookup. eauto.
      * injection Hj as ->. rewrite decide_True by done. simpl.
        assert (0 < length (filter P l)); [|lia].
        apply filter_nonempty_lookup. eauto.
      * assert (1 < length (filter P l)) as Hl.
        { apply IH. exists i, j, x, y. repeat split; [lia | done..]. }
        case_decide; simpl; lia.
Qed.

Lemma elem_of_duplicate_span_ids df r :
  r ∈ duplicate_span_ids df ↔
  ∃ i j r', i ≠ j ∧ df !! i = Some r ∧ df !! j = Some r' ∧ span_id r' = span_id r.
Proof.
  unfold duplicate_span_ids. rewrite list_elem_of_filter, filter_two_lookup. split.
  - intros [(i & j & x & y & Hij & Hi & Hj & Hx & Hy) Hr].
    apply list_elem_of_lookup in Hr as [i0 Hi0].
    destruct (decide (i = i0)) as [->|Hne].
    + exists i0, j, y. repeat split; [done..|]. congruence.
    + exists i0, i, x. by repeat split.
  - intros (i & j & r' & Hij & Hi & Hj & Heq). split.
    + exists i, j, r, r'. by repeat split.
    + by eapply list_elem_of_lookup_2.
Qed.

(** C8.  The duplicate finding is empty exactly when no two rows share a
    span_id; a row is in the finding exactly when some row at another
    position carries the same span_id, so every occurrence is listed, the
    first one included. *)
Theorem duplicates_iff_shared_span_id df :
  (duplicate_span_ids df = [] ↔ NoDup (span_id <$> df)) ∧
  (∀ r, r ∈ duplicate_span_ids df ↔
        ∃ i j r', i ≠ j ∧ df !! i = Some r ∧ df !! j = Some r' ∧
                  span_id r' = span_id r).
Proof.
  split; [|apply elem_of_duplicate_span_ids].
  rewrite NoDup_alt. split.
  - intros Hnil i j x Hi Hj. rewrite list_lookup_fmap in Hi, Hj.
    destruct (df !! i) as [r|] eqn:Hri; [|done].
    destruct (df !! j) as [r'|] eqn:Hrj; [|done].
    simpl in Hi, Hj. destruct (decide (i = j)) as [|Hne]; [done|]. exfalso.
    assert (r ∈ duplicate_span_ids df) as Hin.
    { apply elem_of_duplicate_span_ids. exists i, j, r'.
      repeat split; [done..|]. congruence. }
    rewrite Hnil in Hin. by apply elem_of_nil in Hin.
  - intros Hnodup. destruct (duplicate_span_ids df) as [|r l] eqn:Hd; [done|].
    assert (r ∈ duplicate_span_ids df) as Hin by (rewrite Hd; left).
    apply elem_of_duplicate_span_ids in Hin as (i & j & r' & Hij & Hi & Hj & Heq).
    exfalso. apply Hij. apply (Hnodup i j (span_id r)).
    + by rewrite list_lookup_fmap, Hi.
    + rewrite list_lookup_fmap, Hj. simpl. by rewrite Heq.
Qed.

Example duplicate_s1_finding :
  duplicate_span_ids duplicate_s1 = [s1_first; s1_second] ∧
  duplicate_span_ids chain_T1 = [].
Proof. split; by vm_compute. Qed.

(** ** The edge mapping *)

Lemma dict_get_tabulate {K V} `{EqDecision K} (f : K → V) (keys : list K) (k : K) :
  dict_get k ((λ k', (k', f k')) <$> keys) =
    if decide (k ∈ keys) then Some (f k) else None.
Proof.
  induction keys as [|k0 keys IH].
  - case_decide as Hin; [by apply elem_of_nil in Hin | done].
  - rewrite fmap_cons. cbn [dict_get]. rewrite IH.
    destruct (decide (k = k0)) as [->|Hne].
    + destruct (decide (k0 ∈ k0 :: keys)) as [|Hin]; [done|].
      exfalso. apply Hin. left.
    + destruct (decide (k ∈ keys)), (decide (k ∈ k0 :: keys)); set_solver.
Qed.

Lemma elem_of_group_keys (calls : list CrossCall) k :
  k ∈ merge_sort key_le (remove_dups (edge_key <$> calls)) ↔
  ∃ call, call ∈ calls ∧ edge_key call = k.
Proof.
  rewrite merge_sort_Permutation, elem_of_remove_dups, list_elem_of_fmap.
  naive_solver.
Qed.

Lemma group_keys_NoDup (calls : list CrossCall) :
  NoDup (merge_sort key_le (remove_dups (edge_key <$> calls))).
Proof. rewrite merge_sort_Permutation. apply NoDup_remove_dups. Qed.

Lemma groupby_size_keys calls :
  (groupby_size calls).*1 = merge_sort key_le (remove_dups (edge_key <$> calls)).
Proof.
  unfold groupby_size. rewrite <-list_fmap_compose. apply list_fmap_id.
Qed.

(** The entry of a pair is the number of calls carrying it. *)
Lemma dict_get_groupby_size calls k :
  default 0 (dict_get k (groupby_size calls)) =
    length (filter (λ call, edge_key call = k) calls).
Proof.
  unfold groupby_size. rewrite dict_get_tabulate. case_decide as Hk; [done|].
  simpl. symmetry. apply length_zero_iff_nil, filter_eq_nil.
  intros call Hcall Hkey. apply Hk, elem_of_group_keys. eauto.
Qed.

Lemma length_filter_omap {A B} (g : A → option B) (Q : B → Prop) (P : A → Prop)
    `{∀ y, Decision (Q y)} `{∀ x, Decision (P x)} (l : list A) :
  (∀ x, P x ↔ match g x with Some y => Q y | None => False end) →
  length (filter Q (omap g l)) = length (filter P l).
Proof.
  intros HP. induction l as [|x l IH]; [done|]. simpl. rewrite (filter_cons P).
  specialize (HP x). destruct (g x) as [y|].
  - rewrite filter_cons.
    destruct (decide (Q y)), (decide (P x)); simpl;
      change (list_omap A B g l) with (omap g l); rewrite ?IH;
      first [done | tauto].
  - destruct (decide (P x)); [tauto | done].
Qed.

Lemma call_of_edge_key sts row p c :
  match call_of sts row with
  | Some call => edge_key call = (p, c)
  | None => False
  end ↔
  sts !! parent_span_id row = Some p ∧ service_name row = c ∧ p ≠ c.
Proof.
  unfold call_of. destruct (sts !! parent_span_id row) as [ps|]; [|naive_solver].
  case_decide; unfold edge_key; simpl; naive_solver.
Qed.

Lemma edge_count_rows df p c :
  edge_count df p c =
    length (filter (λ r, (span_to_service df !! parent_span_id r = Some p ∧
                          service_name r = c ∧ p ≠ c) ∧ parent_span_id r ≠ "")
              df).
Proof.
  unfold edge_count, edge_counts.
  rewrite dict_get_groupby_size, cross_service_calls_spec.
  unfold child_spans. rewrite <-list_filter_filter.
  apply length_filter_omap. intros r. symmetry. apply call_of_edge_key.
Qed.

Lemma elem_of_groupby_size calls k n :
  (k, n) ∈ groupby_size calls ↔
  n = length (filter (λ call, edge_key call = k) calls) ∧ 0 < n.
Proof.
  unfold groupby_size. rewrite list_elem_of_fmap.
  setoid_rewrite elem_of_group_keys. split.
  - intros (k' & Heq & call & Hcall & Hkey). injection Heq as <- ->.
    split; [done|]. apply filter_nonempty_lookup.
    apply list_elem_of_lookup in Hcall as [j Hj]. eauto.
  - intros [-> Hpos]. exists k. split; [done|].
    apply filter_nonempty_lookup in Hpos as (j & call & Hj & Hkey).
    exists call. split; [by eapply list_elem_of_lookup_2 | done].
Qed.

Lemma elem_of_edge_counts df p c n :
  ((p, c), n) ∈ edge_counts df ↔ n = edge_count df p c ∧ 0 < n.
Proof.
  unfold edge_count, edge_counts.
  by rewrite dict_get_groupby_size, elem_of_groupby_size.
Qed.

(** C6.  For two different services, the edge mapping counts the rows whose
    non-empty parent_span_id resolves in [span_to_service] to the first
    service and whose own service is the second; a pair has an entry (one
    only) exactly when that count is positive; no pair of equal services has
    one; a resolved parent is the span_id of a row of the frame carrying the
    resolved service; the parent of an orphan does not resolve; and the
    chain of scenario 1 has the two edges web-cart and cart-payment, once
    each. *)
Theorem cross_service_edge_counts df p c :
  (p ≠ c →
   edge_count df p c =
     length (filter (λ r, parent_span_id r ≠ "" ∧
                          span_to_service df !! parent_span_id r = Some p ∧
                          service_name r = c) df)) ∧
  (∀ n, ((p, c), n) ∈ edge_counts df ↔ n = edge_count df p c ∧ 0 < n) ∧
  NoDup (edge_counts df).*1 ∧
  edge_count df p p = 0 ∧
  (∀ k, span_to_service df !! k = Some p →
        ∃ q, q ∈ df ∧ span_id q = k ∧ service_name q = p) ∧
  (∀ r, r ∈ orphaned_spans df →
        span_to_service df !! parent_span_id r = None) ∧
  edge_counts chain_T1 = [(("cart", "payment"), 1); (("web", "cart"), 1)].
Proof.
  split; [|split; [|split; [|split; [|split; [|split]]]]].
  - intros Hpc. rewrite edge_count_rows. f_equal.
    apply list_filter_iff. intros r. tauto.
  - intros n. apply elem_of_edge_counts.
  - unfold edge_counts. rewrite groupby_size_keys. apply group_keys_NoDup.
  - rewrite edge_count_rows. apply length_zero_iff_nil, filter_eq_nil.
    intros r _. tauto.
  - intros k. apply span_to_service_Some.
  - intros r Hr. apply span_to_service_None.
    rewrite orphaned_spans_spec in Hr. by apply list_elem_of_filter in Hr as [? _].
  - by vm_compute.
Qed.

(** ** Sorting by descending count *)

Lemma StronglySorted_lookup {A} (R : relation A) (l : list A) i j a b :
  StronglySorted R l → i < j → l !! i = Some a → l !! j = Some b → R a b.
Proof.
  intros Hs. revert i j. induction Hs as [|x l Hs IH Hall]; intros i j Hij Hi Hj.
  - done.
  - destruct j as [|j]; [lia|]. destruct i as [|i].
    + injection Hi as ->. eapply Forall_forall; [done|].
      by eapply list_elem_of_lookup_2.
    + apply (IH i j); [lia | done..].
Qed.


(** With the stable implementation the two edges of the chain of scenario
    1, both of count 1, stay in the order of the group index. *)
Example stable_sort_chain_T1 :
  @reported_patterns stable_sort chain_T1 =
    [(("cart", "payment"), 1); (("web", "cart"), 1)].
Proof. by vm_compute. Qed.

(** ** The whole run *)

Lemma percent_Ok n total : total ≠ 0 → is_Ok (percent n total).
Proof.
  intros Ht. unfold percent, py_truediv. rewrite decide_False by done.
  by eexists.
Qed.

Lemma kind_lines_Ok rows : is_Ok (kind_lines rows).
Proof.
  unfold kind_lines. destruct rows as [|r rows]; [by eexists|].
  destruct (mapM_result_Forall
              (λ kc : Z * nat,
                 p ← percent kc.2 (length (r :: rows));
                 Ok (kind_name kc.1, kc.1, kc.2, p))
              (kind_counts (r :: rows)) (λ _, True)) as (ys & Hys & _).
  - apply Forall_forall. intros kc _.
    destruct (percent_Ok kc.2 (length (r :: rows))) as [p Hp]; [done|].
    rewrite Hp. by eexists.
  - by eexists.
Qed.

Lemma analyze_span_relationships_Ok df :
  df ≠ [] → is_Ok (analyze_span_relationships df).
Proof.
  intros Hdf. unfold analyze_span_relationships.
  assert (length df ≠ 0) as Hlen by by destruct df.
  destruct (percent_Ok (length (root_spans df)) (length df) Hlen) as [p1 ->].
  destruct (percent_Ok (length (child_spans df)) (length df) Hlen) as [p2 ->].
  destruct (kind_lines_Ok (root_spans df)) as [k1 Hk1].
  destruct (kind_lines_Ok (child_spans df)) as [k2 Hk2].
  cbn [mbind result_bind]. rewrite Hk1, Hk2. by eexists.
Qed.

(** The depth analysis guards its statistics and completes on the empty
    frame. *)
Example analyze_trace_depth_empty :
  analyze_trace_depth [] = Ok (mkDepthReport [] [] None).
Proof. reflexivity. Qed.

(** C9 fails on the empty frame: the first analysis divides the number of
    root rows by the number of rows (source line 51), and the run stops
    there with ZeroDivisionError. *)
Theorem run_analyses_empty_raises `{SortValues} :
  analyze_span_relationships [] = Raise ZeroDivisionError ∧
  run_analyses [] = Raise ZeroDivisionError.
Proof. split; reflexivity. Qed.

(** ** No trace scoping *)

Lemma depth_from_unfold df s V :
  depth_from df s V =
    if decide (s ∈ V) then 0
    else match get_children (span_to_children df) s with
         | [] => 1
         | children =>
             1 + max_list ((λ c, depth_from df c ({[s]} ∪ V)) <$> children)
         end.
Proof.
  pose proof (calculate_depth_from_Ok df s V) as Hs.
  rewrite calculate_depth_from_unfold in Hs.
  case_decide; [by injection Hs|].
  destruct (get_children (span_to_children df) s) as [|c1 cs]; [by injection Hs|].
  rewrite (mapM_result_total _ _ (λ c, depth_from df c ({[s]} ∪ V))) in Hs
    by (intros c _; apply calculate_depth_from_Ok).
  cbn [mbind result_bind] in Hs. rewrite fmap_cons, py_max_cons in Hs.
  cbn [mbind result_bind] in Hs. injection Hs as Hs. by rewrite <-Hs, fmap_cons.
Qed.

Lemma retrace_snoc f df r :
  retrace f (df ++ [r]) = retrace f df ++ [with_trace (f r) r].
Proof. unfold retrace. by rewrite fmap_app. Qed.

Lemma span_to_children_retrace f df :
  span_to_children (retrace f df) = span_to_children df.
Proof.
  unfold span_to_children. induction df as [|r df IH] using rev_ind; [done|].
  rewrite retrace_snoc, !build_index_snoc. unfold index_row.
  destruct (build_index (retrace f df)) as [ch1 info1].
  destruct (build_index df) as [ch2 info2]. simpl in *. subst ch2.
  by case_bool_decide.
Qed.

Lemma span_to_service_retrace f df :
  span_to_service (retrace f df) = span_to_service df.
Proof.
  induction df as [|r df IH] using rev_ind; [done|].
  by rewrite retrace_snoc, !span_to_service_snoc, IH.
Qed.

Lemma calculate_depth_retrace f df s :
  calculate_depth (retrace f df) s = calculate_depth df s.
Proof.
  unfold calculate_depth, calculate_depth_from, depth_fuel, retrace.
  rewrite length_fmap. fold (retrace f df). by rewrite span_to_children_retrace.
Qed.

(** C10.  A row whose non-empty parent_span_id is the span_id of a row of
    another trace is in the children list of that span_id and is no orphan;
    it yields a cross-service call whenever the service the parent resolves
    to differs from its own; and when the parent row is a root, its trace is
    reported with a breadth of at least one and a depth of at least one more
    than the depth of the walk from the child.  The children mapping, the id
    to service mapping and the depth of a span do not change when the
    trace_ids of the rows are replaced at will. *)
Theorem cross_trace_child_is_traversed df r q :
  r ∈ df → q ∈ df →
  parent_span_id r ≠ "" →
  parent_span_id r = span_id q →
  trace_id r ≠ trace_id q →
  span_id r ∈ get_children (span_to_children df) (span_id q) ∧
  (r ∉ orphaned_spans df) ∧
  (span_to_service df !! span_id q =
     service_name <$> last (rows_with_id df (span_id q))) ∧
  (∀ ps, span_to_service df !! span_id q = Some ps → ps ≠ service_name r →
     mkCall ps (service_name r) (trace_id r) (span_id q) (span_id r)
       ∈ cross_service_calls df ∧
     0 < edge_count df ps (service_name r)) ∧
  (parent_span_id q = "" →
   ∃ report d b,
     analyze_trace_depth df = Ok report ∧
     dict_get (trace_id q) (trace_depths report) = Some d ∧
     dict_get (trace_id q) (trace_breadths report) = Some b ∧
     1 ≤ b ∧
     1 + depth_from df (span_id r) {[span_id q]} ≤ d ∧
     (span_id r ≠ span_id q → 2 ≤ d)) ∧
  (∀ f, span_to_children (retrace f df) = span_to_children df ∧
        span_to_service (retrace f df) = span_to_service df ∧
        ∀ s, calculate_depth (retrace f df) s = calculate_depth df s).
Proof.
  intros Hr Hq Hp Hpq Htrace.
  assert (span_id r ∈ get_children (span_to_children df) (span_id q)) as Hchild.
  { apply elem_of_children. exists r. repeat split; [done.. | congruence]. }
  split; [done|]. split.
  { rewrite orphaned_spans_spec, list_elem_of_filter. intros [Hno _].
    apply Hno, elem_of_all_span_ids. exists q. by rewrite Hpq. }
  split; [apply span_to_service_spec|]. split.
  { intros ps Hps Hne.
    assert (mkCall ps (service_name r) (trace_id r) (span_id q) (span_id r)
              ∈ cross_service_calls df) as Hcall.
    { apply elem_of_cross_service_calls. exists r. repeat split; [done..|].
      unfold call_of. rewrite Hpq, Hps. by rewrite decide_True. }
    split; [done|]. unfold edge_count, edge_counts.
    rewrite dict_get_groupby_size. apply filter_nonempty_lookup.
    apply list_elem_of_lookup in Hcall as [j Hj]. eauto. }
  split; [|intros f; split; [apply span_to_children_retrace|];
           split; [apply span_to_service_retrace |
                   intros s; apply calculate_depth_retrace]].
  intros Hroot.
  destruct (analyze_trace_depth_Ok df) as (report & Hrep & Hm).
  destruct (trace_metrics_spec df) as (td & tb & Hm' & Hinv).
  rewrite Hm in Hm'. injection Hm' as <- <-.
  destruct (Hinv (trace_id q)) as [Hd Hb].
  assert (q ∈ roots_of df (trace_id q)) as Hqroot.
  { unfold roots_of, root_spans. by rewrite !list_elem_of_filter. }
  unfold group_max in Hd, Hb.
  destruct (roots_of df (trace_id q)) as [|r0 roots] eqn:Hroots;
    [by apply elem_of_nil in Hqroot|].
  eexists report, _, _. split; [done|]. split; [exact Hd|]. split; [exact Hb|].
  assert (1 ≤ breadth_of df (span_id q)) as Hbreadth.
  { unfold breadth_of.
    destruct (get_children (span_to_children df) (span_id q));
      [by apply elem_of_nil in Hchild | simpl; lia]. }
  assert (1 + depth_from df (span_id r) {[span_id q]} ≤ depth_of df (span_id q))
    as Hdepth.
  { unfold depth_of. rewrite (depth_from_unfold df (span_id q) ∅).
    rewrite decide_False by set_solver. rewrite union_empty_r_L.
    destruct (get_children (span_to_children df) (span_id q)) as [|c1 cs] eqn:Hch;
      [by apply elem_of_nil in Hchild|].
    apply le_n_S, max_list_ge, list_elem_of_fmap. eauto. }
  assert (breadth_of df (span_id q)
          ≤ max_list ((λ x, breadth_of df (span_id x)) <$> r0 :: roots)) as Hb'.
  { apply max_list_ge, list_elem_of_fmap. eauto. }
  assert (depth_of df (span_id q)
          ≤ max_list ((λ x, depth_of df (span_id x)) <$> r0 :: roots)) as Hd'.
  { apply max_list_ge, list_elem_of_fmap. eauto. }
  split; [lia|]. split; [lia|].
  intros Hne.
  assert (1 ≤ depth_from df (span_id r) {[span_id q]}); [|lia].
  rewrite depth_from_unfold. rewrite decide_False by set_solver.
  destruct (get_children (span_to_children df) (span_id r)); lia.
Qed.

(** C10 on a root of trace T5 whose child row carries trace T6: the child is
    in the root's children list, T5 is reported with depth 2 and breadth 1,
    T6 has no entry, and the edge web-cart is counted once. *)
Lemma cross_trace_child_counts :
  "Q" ∈ get_children (span_to_children cross_trace) "P" ∧
  (∃ report,
     analyze_trace_depth cross_trace = Ok report ∧
     dict_get "T5" (trace_depths report) = Some 2 ∧
     dict_get "T5" (trace_breadths report) = Some 1 ∧
     dict_get "T6" (trace_depths report) = None) ∧
  edge_count cross_trace "web" "cart" = 1.
Proof.
  destruct (cross_trace_child_is_traversed cross_trace cross_child cross_root)
    as (Hchild & _ & _ & Hedge & Hroot & _).
  - unfold cross_trace. set_solver.
  - unfold cross_trace. set_solver.
  - discriminate.
  - reflexivity.
  - discriminate.
  - split; [exact Hchild|]. split; [|by vm_compute].
    destruct (Hroot eq_refl) as (report & d & b & Hrep & _).
    exists report. split; [exact Hrep|].
    assert (report = mkDepthReport [("T5", 2)] [("T5", 1)]
                       (depth_summary report)) as ->.
    { vm_compute in Hrep. injection Hrep as <-. reflexivity. }
    by vm_compute.
Defined.

(** * Further properties of the analyses *)

(** ** What calculate_depth measures *)

Section longest_chain.
Variable df : list SpanRecord.
Local Abbreviation ch := (span_to_children df).

(** The walk from [s] with [V] on the path returns the number of spans of
    the longest chain that starts at [s], repeats no span and avoids [V]. *)
Lemma calculate_depth_fuel_chain n s V d :
  calculate_depth_fuel ch n s V = Ok d →
  (s ∈ V → d = 0) ∧
  (s ∉ V →
   ∃ p, chain df (s :: p) ∧ NoDup (s :: p) ∧
        (∀ x, x ∈ s :: p → x ∉ V) ∧ length (s :: p) = d) ∧
  (∀ p, chain df (s :: p) → NoDup (s :: p) →
        (∀ x, x ∈ s :: p → x ∉ V) → length (s :: p) ≤ d).
Proof.
  revert s V d. induction n as [|n IH]; intros s V d Hd; [done|].
  rewrite calculate_depth_fuel_S in Hd.
  destruct (decide (s ∈ V)) as [HV|HV].
  { injection Hd as <-. split; [done|]. split; [done|].
    intros p _ _ Hp. exfalso. apply (Hp s); [left | done]. }
  split; [done|].
  destruct (get_children ch s) as [|c1 cs] eqn:Hch.
  { injection Hd as <-. split.
    - intros _. exists []. split_and!; [apply chain_one | apply NoDup_singleton | | done].
      intros x ->%list_elem_of_singleton. done.
    - intros p Hp _ _. destruct p as [|c rest]; [simpl; lia|].
      inversion Hp as [|? ? ? Hc]; subst.
      apply elem_of_children_child_of in Hc. rewrite Hch in Hc.
      by apply elem_of_nil in Hc. }
  destruct (mapM _ (c1 :: cs)) as [ds|] eqn:Hds in Hd; [|done].
  apply mapM_result_Ok in Hds. cbn [mbind result_bind] in Hd.
  destruct ds as [|d1 ds]; [by inversion Hds|].
  rewrite py_max_cons in Hd. cbn [mbind result_bind] in Hd. injection Hd as <-.
  split.
  - intros _.
    assert (max_list (d1 :: ds) ∈ d1 :: ds) as Hmax by by apply max_list_elem_of.
    apply list_elem_of_lookup in Hmax as [i Hi].
    destruct (Forall2_lookup_r _ _ _ _ _ Hds Hi) as (c & Hc & Hdc).
    simpl in Hdc. apply IH in Hdc as (Hin & Hex & _).
    destruct (decide (c ∈ {[s]} ∪ V)) as [HcV|HcV].
    + rewrite (Hin HcV). exists []. split_and!;
        [apply chain_one | apply NoDup_singleton | | done].
      intros x ->%list_elem_of_singleton. done.
    + destruct (Hex HcV) as (p & Hchain & Hnd & Havoid & Hlen).
      exists (c :: p). split_and!.
      * apply chain_cons; [|done]. apply elem_of_children_child_of.
        rewrite Hch. by eapply list_elem_of_lookup_2.
      * constructor; [|done]. intros Hs. apply Havoid in Hs. set_solver.
      * intros x [->|Hx]%elem_of_cons; [done|]. apply Havoid in Hx. set_solver.
      * simpl in *. lia.
  - intros p Hp Hnd Havoid. destruct p as [|c rest]; [simpl; lia|].
    inversion Hp as [|? ? ? Hc Hrest]; subst.
    apply elem_of_children_child_of in Hc. rewrite Hch in Hc.
    apply list_elem_of_lookup in Hc as [i Hi].
    destruct (Forall2_lookup_l _ _ _ _ _ Hds Hi) as (dc & Hdc & Hcd).
    simpl in Hcd. apply IH in Hcd as (_ & _ & Hub).
    assert (length (c :: rest) ≤ dc) as Hle.
    { apply Hub; [done | by apply NoDup_cons in Hnd as [_ ?] |].
      intros x Hx. apply not_elem_of_union. split.
      - intros ->%elem_of_singleton. by apply NoDup_cons in Hnd as [? _].
      - apply Havoid. by right. }
    assert (dc ≤ max_list (d1 :: ds)) as Hmax
      by (apply max_list_ge; by eapply list_elem_of_lookup_2).
    simpl in *. lia.
Qed.
End longest_chain.

Lemma depth_of_chain_exists df s :
  ∃ p, chain df (s :: p) ∧ NoDup (s :: p) ∧ length (s :: p) = depth_of df s.
Proof.
  pose proof (calculate_depth_Ok df s) as Hs.
  apply calculate_depth_fuel_chain in Hs as (_ & Hex & _).
  destruct Hex as (p & Hc & Hnd & _ & Hlen); [set_solver|]. by exists p.
Qed.

Lemma depth_of_chain_bound df s p :
  chain df (s :: p) → NoDup (s :: p) → length (s :: p) ≤ depth_of df s.
Proof.
  intros Hc Hnd. pose proof (calculate_depth_Ok df s) as Hs.
  apply calculate_depth_fuel_chain in Hs as (_ & _ & Hub).
  apply Hub; [done..|]. set_solver.
Qed.

(** X1.  The depth computed for a span, cyclic parent chains included, is the
    number of spans on a longest chain of parent-to-child steps that starts
    at the span and visits no span twice: such a chain of that length
    exists, and none is longer. *)
Theorem depth_is_longest_simple_chain df s :
  calculate_depth df s = Ok (depth_of df s) ∧
  (∃ p, chain df (s :: p) ∧ NoDup (s :: p) ∧ length (s :: p) = depth_of df s) ∧
  (∀ p, chain df (s :: p) → NoDup (s :: p) → length (s :: p) ≤ depth_of df s).
Proof.
  split; [apply calculate_depth_Ok|].
  split; [apply depth_of_chain_exists | apply depth_of_chain_bound].
Qed.

(** ** The metrics do not depend on the order of the rows *)

Lemma chain_ext df df' p :
  (∀ x y, child_of df x y → child_of df' x y) → chain df p → chain df' p.
Proof.
  intros Hsub. induction 1 as [s | x c rest Hxc _ IH]; [apply chain_one|].
  apply chain_cons; [by apply Hsub | done].
Qed.

(** The depth of a span only depends on the parent relation of the frame. *)
Lemma depth_of_ext df df' s :
  (∀ x y, child_of df x y ↔ child_of df' x y) →
  depth_of df s = depth_of df' s.
Proof.
  intros Hiff. apply Nat.le_antisymm.
  - destruct (depth_of_chain_exists df s) as (p & Hc & Hnd & <-).
    apply depth_of_chain_bound; [|done].
    eapply chain_ext; [|done]. intros x y. apply Hiff.
  - destruct (depth_of_chain_exists df' s) as (p & Hc & Hnd & <-).
    apply depth_of_chain_bound; [|done].
    eapply chain_ext; [|done]. intros x y. apply Hiff.
Qed.

Lemma child_of_Permutation df df' x y :
  df ≡ₚ df' → child_of df x y ↔ child_of df' x y.
Proof.
  intros Hperm. unfold child_of. by setoid_rewrite Hperm.
Qed.

Lemma breadth_of_Permutation df df' s :
  df ≡ₚ df' → breadth_of df s = breadth_of df' s.
Proof.
  intros Hperm. unfold breadth_of. rewrite !children_spec.
  case_decide; [done|]. rewrite !length_fmap. by rewrite Hperm.
Qed.

Lemma max_list_Permutation (l k : list nat) : l ≡ₚ k → max_list l = max_list k.
Proof. induction 1; simpl; lia. Qed.

Lemma roots_of_Permutation df df' tid :
  df ≡ₚ df' → roots_of df tid ≡ₚ roots_of df' tid.
Proof. intros Hperm. unfold roots_of, root_spans. by rewrite Hperm. Qed.

Lemma group_max_Permutation f g rs rs' :
  (∀ r, f r = g r) → rs ≡ₚ rs' → group_max f rs = group_max g rs'.
Proof.
  intros Hfg Hperm. unfold group_max.
  destruct rs as [|r rs], rs' as [|r' rs'].
  - done.
  - by apply Permutation_nil_cons in Hperm.
  - symmetry in Hperm. by apply Permutation_nil_cons in Hperm.
  - f_equal. rewrite (max_list_Permutation _ (f <$> r' :: rs'))
      by by apply fmap_Permutation.
    f_equal. apply list_fmap_ext. intros ???. apply Hfg.
Qed.

(** X2.  Two frames holding the same rows in different orders get the same
    depth and breadth for every span and the same depth and breadth for
    every trace: the report may list the traces in another order, its
    values are the same. *)
Theorem trace_metrics_order_independent df df' :
  df ≡ₚ df' →
  (∀ s, depth_of df s = depth_of df' s ∧ breadth_of df s = breadth_of df' s) ∧
  ∃ report report',
    analyze_trace_depth df = Ok report ∧
    analyze_trace_depth df' = Ok report' ∧
    ∀ tid,
      dict_get tid (trace_depths report) = dict_get tid (trace_depths report') ∧
      dict_get tid (trace_breadths report) = dict_get tid (trace_breadths report').
Proof.
  intros Hperm.
  assert (∀ s, depth_of df s = depth_of df' s) as Hdepth.
  { intros s. apply depth_of_ext. intros x y. by apply child_of_Permutation. }
  split; [intros s; split; [done | by apply breadth_of_Permutation]|].
  destruct (analyze_trace_depth_Ok df) as (report & Hrep & Hm).
  destruct (analyze_trace_depth_Ok df') as (report' & Hrep' & Hm').
  destruct (trace_metrics_spec df) as (td & tb & Hspec & Hinv).
  destruct (trace_metrics_spec df') as (td' & tb' & Hspec' & Hinv').
  rewrite Hm in Hspec. injection Hspec as <- <-.
  rewrite Hm' in Hspec'. injection Hspec' as <- <-.
  exists report, report'. split; [done|]. split; [done|]. intros tid.
  destruct (Hinv tid) as [-> ->]. destruct (Hinv' tid) as [-> ->].
  split; apply group_max_Permutation;
    [by intros r | by apply roots_of_Permutation
    | by intros r; apply breadth_of_Permutation | by apply roots_of_Permutation].
Qed.

(** X2 on the chain of scenario 1 and the same rows in reverse order. *)
Lemma chain_T1_reversed_metrics :
  depth_of (reverse chain_T1) "A" = 3 ∧
  ∃ report',
    analyze_trace_depth (reverse chain_T1) = Ok report' ∧
    dict_get "T1" (trace_depths report') = Some 3.
Proof.
  destruct (trace_metrics_order_independent chain_T1 (reverse chain_T1))
    as (Hspan & report & report' & Hrep & Hrep' & Htid).
  - symmetry. apply reverse_Permutation.
  - split; [rewrite <-(proj1 (Hspan "A")); by vm_compute|].
    exists report'. split; [exact Hrep'|].
    rewrite <-(proj1 (Htid "T1")).
    vm_compute in Hrep. injection Hrep as <-. reflexivity.
Defined.

(** ** The keys of trace_depths and trace_breadths *)

Lemma dict_set_keys {K V} `{EqDecision K} (k : K) (v : V) (d : list (K * V)) :
  (dict_set k v d).*1 = if decide (k ∈ d.*1) then d.*1 else d.*1 ++ [k].
Proof.
  induction d as [|[k0 v0] d IH].
  - simpl. destruct (decide (k ∈ [])) as [Hin|]; [by apply elem_of_nil in Hin | done].
  - cbn [dict_set]. destruct (decide (k = k0)) as [->|Hne].
    + rewrite !fmap_cons. simpl.
      destruct (decide (k0 ∈ k0 :: d.*1)) as [|Hin]; [done|].
      exfalso. apply Hin. left.
    + rewrite !fmap_cons, IH. simpl.
      destruct (decide (k ∈ d.*1)), (decide (k ∈ k0 :: d.*1)); set_solver.
Qed.

Lemma dict_get_None {K V} `{EqDecision K} (k : K) (d : list (K * V)) :
  dict_get k d = None ↔ k ∉ d.*1.
Proof.
  induction d as [|[k0 v0] d IH]; simpl.
  - split; [intros _; apply not_elem_of_nil | done].
  - case_decide as Hk.
    + subst. split; [done|]. intros Hin. exfalso. apply Hin. left.
    + rewrite IH. set_solver.
Qed.

Lemma dict_get_NoDup {K V} `{EqDecision K} (k : K) (v : V) (d : list (K * V)) :
  NoDup d.*1 → (k, v) ∈ d → dict_get k d = Some v.
Proof.
  induction d as [|[k0 v0] d IH]; simpl; [by intros _ ?%elem_of_nil|].
  intros [Hk0 Hnd]%NoDup_cons [Heq|Hin]%elem_of_cons.
  - injection Heq as -> ->. by rewrite decide_True.
  - case_decide as Hk; [|by apply IH]. subst. exfalso. apply Hk0.
    apply list_elem_of_fmap. by exists (k0, v).
Qed.

Lemma first_seen_snoc l x :
  first_seen (l ++ [x]) =
    if decide (x ∈ first_seen l) then first_seen l else first_seen l ++ [x].
Proof. unfold first_seen. by rewrite foldl_snoc. Qed.

Lemma elem_of_first_seen l x : x ∈ first_seen l ↔ x ∈ l.
Proof.
  induction l as [|y l IH] using rev_ind; [done|].
  rewrite first_seen_snoc. case_decide; set_solver.
Qed.

Lemma NoDup_first_seen l : NoDup (first_seen l).
Proof.
  induction l as [|y l IH] using rev_ind; [constructor|].
  rewrite first_seen_snoc. case_decide; [done|].
  apply NoDup_app. split_and!; [done | | apply NoDup_singleton].
  intros x Hx ->%list_elem_of_singleton. done.
Qed.

Lemma root_loop_keys df rs td tb :
  foldl (root_step df) (Ok ([], [])) rs = Ok (td, tb) →
  td.*1 = first_seen (trace_id <$> rs) ∧ tb.*1 = first_seen (trace_id <$> rs).
Proof.
  revert td tb. induction rs as [|r rs IH] using rev_ind; intros td tb.
  - by intros [= <- <-].
  - rewrite foldl_snoc, fmap_app, fmap_cons, fmap_nil, first_seen_snoc.
    destruct (root_loop_spec df rs) as (td0 & tb0 & Hfold & _).
    rewrite Hfold. destruct (IH td0 tb0 Hfold) as [Hkd Hkb].
    unfold root_step. cbn [mbind result_bind].
    rewrite calculate_depth_Ok. cbn [mbind result_bind].
    destruct (dict_get (trace_id r) td0) as [d0|] eqn:Hget.
    + assert (trace_id r ∈ td0.*1) as Hin.
      { destruct (decide (trace_id r ∈ td0.*1)) as [|Hno]; [done|].
        apply dict_get_None in Hno. congruence. }
      destruct (dict_get_is_Some (trace_id r) tb0) as [b0 Hb0]; [by rewrite Hkb, <-Hkd|].
      unfold dict_getitem. rewrite Hb0. cbn [mbind result_bind].
      intros [= <- <-]. rewrite !dict_set_keys, Hkb, <-Hkd.
      rewrite !decide_True by done. done.
    + apply dict_get_None in Hget.
      intros [= <- <-]. rewrite !dict_set_keys, Hkb, <-Hkd.
      rewrite !decide_False by done. done.
Qed.

(** X3.  The two dictionaries of the depth analysis always hold the same
    keys in the same order: the trace_ids of the root rows, each once, in
    the order in which a first root row of the trace appears in the input
    (so the lookup of trace_breadths in the multi-root branch never fails). *)
Theorem trace_dict_keys_first_root_order df :
  ∃ report,
    analyze_trace_depth df = Ok report ∧
    (trace_depths report).*1 = first_seen (trace_id <$> root_spans df) ∧
    (trace_breadths report).*1 = (trace_depths report).*1 ∧
    NoDup (trace_depths report).*1 ∧
    (∀ tid, tid ∈ (trace_depths report).*1 ↔
            ∃ r, r ∈ df ∧ parent_span_id r = "" ∧ trace_id r = tid).
Proof.
  destruct (analyze_trace_depth_Ok df) as (report & Hrep & Hm).
  destruct (root_loop_keys df (root_spans df) _ _ Hm) as [Hkd Hkb].
  exists report. split; [done|]. split; [done|]. split; [by rewrite Hkb|].
  split; [rewrite Hkd; apply NoDup_first_seen|].
  intros tid. rewrite Hkd, elem_of_first_seen, list_elem_of_fmap.
  unfold root_spans. setoid_rewrite list_elem_of_filter. naive_solver.
Qed.

Example sample_frame_keys :
  (trace_depths <$> analyze_trace_depth sample_frame) = Ok [("T1", 3); ("T2", 1)].
Proof. by vm_compute. Qed.

(** X4.  The structure analysis and the depth analysis agree on the traces:
    a trace has a depth exactly when its root count in
    [root_spans_per_trace] is positive, a trace counted with zero roots has
    rows and no depth, and the depth analysis prints its statistics exactly
    when the frame has a root row. *)
Theorem depth_entries_match_root_counts df tid :
  ∃ report,
    analyze_trace_depth df = Ok report ∧
    (is_Some (dict_get tid (trace_depths report)) ↔
     ∃ n, root_spans_per_trace df !! tid = Some n ∧ 0 < n) ∧
    (root_spans_per_trace df !! tid = Some 0 ↔
     dict_get tid (trace_depths report) = None ∧ tid ∈ trace_id <$> df) ∧
    (is_Some (depth_summary report) ↔ root_spans df ≠ []).
Proof.
  destruct (analyze_trace_depth_Ok df) as (report & Hrep & Hm).
  destruct (trace_metrics_spec df) as (td & tb & Hm' & Hinv).
  rewrite Hm in Hm'. injection Hm' as <- <-.
  exists report. split; [done|].
  destruct (Hinv tid) as [Hd _]. rewrite Hd, root_spans_per_trace_spec.
  assert (tid ∈ trace_id <$> df ↔ filter (λ r, trace_id r = tid) df ≠ []) as Hrows.
  { rewrite list_elem_of_fmap. split.
    - intros (r & -> & Hr) Hnil. apply (proj1 (filter_eq_nil _ _) Hnil r); done.
    - intros Hne. destruct (filter _ df) as [|r l] eqn:Hf; [done|].
      assert (r ∈ filter (λ r, trace_id r = tid) df) as Hin by (rewrite Hf; left).
      apply list_elem_of_filter in Hin as [? ?]. by exists r. }
  split; [|split].
  - unfold group_max. split.
    + intros Hsome. destruct (roots_of df tid) as [|r rs] eqn:Hr; [by destruct Hsome|].
      destruct (filter (λ r, trace_id r = tid) df) as [|x l] eqn:Hf.
      { by rewrite roots_of_no_row in Hr. }
      eexists. split; [done|]. simpl. lia.
    + intros (n & Hn & Hpos). destruct (filter _ df); [done|].
      injection Hn as <-. destruct (roots_of df tid); [simpl in Hpos; lia | by eexists].
  - rewrite Hrows. unfold group_max. split.
    + intros Hz. destruct (filter (λ r, trace_id r = tid) df); [done|].
      injection Hz as Hz. apply length_zero_iff_nil in Hz. by rewrite Hz.
    + intros [Hnone Hne]. destruct (filter (λ r, trace_id r = tid) df); [done|].
      destruct (roots_of df tid); [done | done].
  - unfold analyze_trace_depth in Hrep. rewrite Hm in Hrep.
    cbn [mbind result_bind] in Hrep.
    destruct (root_loop_keys df (root_spans df) _ _ Hm) as [Hkd _].
    destruct (trace_depths report) as [|kv td] eqn:Htd.
    + injection Hrep as Hrep. rewrite <-Hrep. simpl.
      split; [by intros [? ?]|]. intros Hne. exfalso.
      destruct (root_spans df) as [|r rs] eqn:Hroots; [done|].
      assert (trace_id r ∈ first_seen (trace_id <$> r :: rs)) as Hin.
      { apply elem_of_first_seen. rewrite fmap_cons. left. }
      rewrite <-Hkd in Hin. by apply elem_of_nil in Hin.
    + split.
      * intros _ Hnil. rewrite Hnil in Hkd. done.
      * intros _.
        destruct (stats_of (kv :: td).*2); cbn [mbind result_bind] in Hrep; [|done].
        destruct (stats_of _) in Hrep; cbn [mbind result_bind] in Hrep; [|done].
        destruct (py_max_key _) in Hrep; cbn [mbind result_bind] in Hrep; [|done].
        destruct (dict_getitem _ _) in Hrep; cbn [mbind result_bind] in Hrep; [|done].
        injection Hrep as Hrep. rewrite <-Hrep. simpl. by eexists.
Qed.

(** ** The statistics of the depth analysis *)

Lemma foldl_min_spec (x : nat) (l : list nat) :
  foldl Nat.min x l ∈ x :: l ∧ ∀ y, y ∈ x :: l → foldl Nat.min x l ≤ y.
Proof.
  revert x. induction l as [|z l IH]; intros x; simpl.
  - split; [left|]. intros y ->%list_elem_of_singleton. done.
  - destruct (IH (x `min` z)) as [Hin Hle]. split.
    + apply elem_of_cons in Hin as [Heq|Hin]; [|set_solver].
      rewrite Heq. destruct (Nat.min_spec x z) as [[_ ->]|[_ ->]]; set_solver.
    + intros y Hy. assert (foldl Nat.min (x `min` z) l ≤ x `min` z) as Hm
        by (apply Hle; left).
      apply elem_of_cons in Hy as [->|[->|Hy]%elem_of_cons]; [lia | lia |].
      apply Hle. by right.
Qed.

Lemma sum_list_bounds (l : list nat) (a b : nat) :
  (∀ x, x ∈ l → a ≤ x ≤ b) → a * length l ≤ sum_list l ≤ b * length l.
Proof.
  induction l as [|x l IH]; intros Hl; simpl; [lia|].
  destruct IH as [IH1 IH2]; [intros y Hy; apply Hl; by right|].
  destruct (Hl x) as [Hx1 Hx2]; [left|]. lia.
Qed.

Lemma length_filter_prefix {A} (P : A → Prop) `{∀ x, Decision (P x)} (l1 l2 : list A) :
  Forall P l1 → length l1 ≤ length (filter P (l1 ++ l2)).
Proof.
  intros Hall. rewrite filter_app, length_app.
  assert (filter P l1 = l1) as ->; [|lia].
  induction Hall as [|x l Hx _ IH]; [done|]. by rewrite filter_cons_True, IH.
Qed.

Lemma length_filter_suffix {A} (P : A → Prop) `{∀ x, Decision (P x)} (l1 l2 : list A) :
  Forall P l2 → length l2 ≤ length (filter P (l1 ++ l2)).
Proof.
  intros Hall. rewrite filter_app, length_app.
  assert (filter P l2 = l2) as ->; [|lia].
  induction Hall as [|x l Hx _ IH]; [done|]. by rewrite filter_cons_True, IH.
Qed.

(** The element at position [i] of the sorted list has at least [i + 1]
    values at or below it and at least [length l - i] at or above it. *)
Lemma sorted_lookup_counts (l : list nat) i m :
  merge_sort (≤) l !! i = Some m →
  i < length (filter (λ x, x ≤ m) l) ∧
  length l - i ≤ length (filter (λ x, m ≤ x) l).
Proof.
  intros Hi. pose proof (merge_sort_Permutation (≤) l) as Hperm.
  assert (StronglySorted (≤) (merge_sort (≤) l)) as Hs
    by (apply StronglySorted_merge_sort; apply _).
  rewrite <-!(Permutation_length (filter_Permutation _ _ _ Hperm)).
  rewrite <-(Permutation_length Hperm).
  pose proof (lookup_lt_Some _ _ _ Hi) as Hlt.
  split.
  - assert (Forall (λ x, x ≤ m) (take (S i) (merge_sort (≤) l))) as Hall.
    { apply Forall_forall. intros x [j [Hj Hji]]%elem_of_take.
      destruct (decide (j = i)) as [->|Hne]; [by simplify_eq|].
      apply (StronglySorted_lookup (≤) _ j i x m Hs); [lia | done..]. }
    pose proof (length_filter_prefix _ _ (drop (S i) (merge_sort (≤) l)) Hall) as Hlen.
    rewrite take_drop, length_take in Hlen. lia.
  - assert (Forall (λ x, m ≤ x) (drop i (merge_sort (≤) l))) as Hall.
    { apply Forall_forall. intros x [j Hj]%list_elem_of_lookup.
      rewrite lookup_drop in Hj.
      destruct j as [|j]; [rewrite Nat.add_0_r in Hj; by simplify_eq|].
      apply (StronglySorted_lookup (≤) _ i (i + S j) m x Hs); [lia | done..]. }
    pose proof (length_filter_suffix _ (take i (merge_sort (≤) l)) _ Hall) as Hlen.
    rewrite take_drop, length_drop in Hlen. lia.
Qed.

Lemma stats_of_spec l st :
  stats_of l = Ok st →
  l ≠ [] ∧
  st_max st = max_list l ∧
  st_min st ∈ l ∧
  (∀ x, x ∈ l → st_min st ≤ x ≤ st_max st) ∧
  st_median st ∈ l ∧
  length l / 2 < length (filter (λ x, x ≤ st_median st) l) ∧
  length l - length l / 2 ≤ length (filter (λ x, st_median st ≤ x) l) ∧
  (inject_Z (Z.of_nat (st_min st)) <= st_mean st)%Q ∧
  (st_mean st <= inject_Z (Z.of_nat (st_max st)))%Q.
Proof.
  unfold stats_of. destruct l as [|x l]; [done|].
  rewrite py_max_cons. unfold py_min, py_truediv, py_index.
  rewrite decide_False by (simpl; lia). cbn [mbind result_bind].
  destruct (merge_sort (≤) (x :: l) !! (length (x :: l) / 2)) as [med|] eqn:Hmed;
    [|done].
  cbn [mbind result_bind]. intros [= <-]. cbn [st_min st_max st_mean st_median].
  destruct (foldl_min_spec x l) as [Hmin Hminle].
  assert (∀ y, y ∈ x :: l → foldl Nat.min x l ≤ y ≤ max_list (x :: l)) as Hb.
  { intros y Hy. split; [by apply Hminle | by apply max_list_ge]. }
  destruct (sorted_lookup_counts _ _ _ Hmed) as [Hlo Hhi].
  split_and!; [done | done | done | done | | done | done | |].
  - rewrite <-(merge_sort_Permutation (≤) (x :: l)).
    by eapply list_elem_of_lookup_2.
  - destruct (sum_list_bounds _ _ _ Hb) as [Hs _].
    unfold Qle. cbn [Qnum Qden inject_Z].
    rewrite <-positive_nat_Z, Nat2Pos.id by (simpl; lia). simpl in Hs |- *. nia.
  - destruct (sum_list_bounds _ _ _ Hb) as [_ Hs].
    unfold Qle. cbn [Qnum Qden inject_Z].
    rewrite <-(positive_nat_Z (Pos.of_nat _)), Nat2Pos.id by (simpl; lia). simpl in Hs |- *. nia.
Qed.

(** [max(d, key=d.get)] is the first pair of greatest value. *)
Lemma foldl_best_first_max (d : list (string * nat)) best :
  ∃ i,
    (best :: d) !! i =
      Some (foldl (λ best kv', if decide (best.2 < kv'.2) then kv' else best) best d) ∧
    (∀ j kv, j < i → (best :: d) !! j = Some kv →
       kv.2 < (foldl (λ best kv', if decide (best.2 < kv'.2) then kv' else best)
                 best d).2) ∧
    (∀ kv, kv ∈ best :: d →
       kv.2 ≤ (foldl (λ best kv', if decide (best.2 < kv'.2) then kv' else best)
                 best d).2).
Proof.
  induction d as [|kv d (i & Hi & Hbefore & Hall)] using rev_ind.
  - exists 0. simpl. split; [done|]. split; [intros; lia|].
    intros kv ->%list_elem_of_singleton. done.
  - rewrite foldl_snoc. rewrite app_comm_cons.
    set (r := foldl _ best d) in *.
    pose proof (lookup_lt_Some _ _ _ Hi) as Hlt.
    case_decide as Hlt'.
    + exists (length (best :: d)). split_and!.
      * by rewrite list_lookup_middle.
      * intros j kv' Hj Hkv'. rewrite lookup_app_l in Hkv' by done.
        apply list_elem_of_lookup_2, Hall in Hkv'. lia.
      * intros kv' [Hin| ->%list_elem_of_singleton]%elem_of_app; [|done].
        apply Hall in Hin. lia.
    + exists i. split_and!.
      * by rewrite lookup_app_l.
      * intros j kv' Hj Hkv'. rewrite lookup_app_l in Hkv' by lia. by eapply Hbefore.
      * intros kv' [Hin| ->%list_elem_of_singleton]%elem_of_app; [by apply Hall | lia].
Qed.

Lemma analyze_trace_depth_inv df report st :
  analyze_trace_depth df = Ok report →
  depth_summary report = Some st →
  trace_metrics df = Ok (trace_depths report, trace_breadths report) ∧
  stats_of (trace_depths report).*2 = Ok (depth_stats st) ∧
  stats_of (trace_breadths report).*2 = Ok (breadth_stats st) ∧
  depth_dist st = counter_sorted (trace_depths report).*2 ∧
  py_max_key (trace_depths report) = Ok (deepest_trace_id st) ∧
  dict_getitem (deepest_trace_id st) (trace_depths report) = Ok (deepest_depth st).
Proof.
  unfold analyze_trace_depth.
  destruct (trace_metrics df) as [[td tb]|]; [|done]. cbn [mbind result_bind].
  destruct td as [|kv td]; [by intros [= <-]|].
  destruct (stats_of ((kv :: td).*2)) as [ds|] eqn:Hds; [|done].
  cbn [mbind result_bind].
  destruct (stats_of (tb.*2)) as [bs|] eqn:Hbs; [|done]. cbn [mbind result_bind].
  destruct (py_max_key (kv :: td)) as [deepest|] eqn:Hkey; [|done].
  cbn [mbind result_bind].
  destruct (dict_getitem deepest (kv :: td)) as [dd|] eqn:Hdd; [|done].
  cbn [mbind result_bind]. intros [= <-].
  cbn [depth_summary trace_depths trace_breadths]. intros [= <-].
  cbn [depth_stats breadth_stats depth_dist deepest_trace_id deepest_depth].
  done.
Qed.

Lemma depth_summary_is_Some df report :
  analyze_trace_depth df = Ok report →
  root_spans df ≠ [] → is_Some (depth_summary report).
Proof.
  intros Hrep Hroots. unfold analyze_trace_depth in Hrep.
  destruct (trace_metrics df) as [[td tb]|] eqn:Hm; [|done].
  cbn [mbind result_bind] in Hrep.
  destruct (root_loop_keys df (root_spans df) _ _ Hm) as [Hkd _].
  destruct td as [|kv td].
  - exfalso. destruct (root_spans df) as [|r rs]; [done|].
    assert (trace_id r ∈ first_seen (trace_id <$> r :: rs)) as Hin.
    { apply elem_of_first_seen. rewrite fmap_cons. left. }
    rewrite <-Hkd in Hin. by apply elem_of_nil in Hin.
  - destruct (stats_of ((kv :: td).*2)); cbn [mbind result_bind] in Hrep; [|done].
    destruct (stats_of _) in Hrep; cbn [mbind result_bind] in Hrep; [|done].
    destruct (py_max_key _) in Hrep; cbn [mbind result_bind] in Hrep; [|done].
    destruct (dict_getitem _ _) in Hrep; cbn [mbind result_bind] in Hrep; [|done].
    injection Hrep as <-. by eexists.
Qed.

(** X5.  When the depth analysis prints its statistics: the maximum is the
    greatest depth of a trace and the minimum the least; the median is the
    depth of some trace, with more than half of the traces at or below it
    and at least the other half at or above it; the mean lies between
    minimum and maximum; the depth printed for the deepest trace is the
    maximum, and the trace named is the first one, in order of first root
    row, that reaches it.  The breadth statistics obey the same bounds. *)
Theorem depth_summary_consistent df report st :
  analyze_trace_depth df = Ok report →
  depth_summary report = Some st →
  (st_max (depth_stats st) = max_list (trace_depths report).*2 ∧
   st_min (depth_stats st) ∈ (trace_depths report).*2 ∧
   (∀ d, d ∈ (trace_depths report).*2 →
         st_min (depth_stats st) ≤ d ≤ st_max (depth_stats st))) ∧
  (st_median (depth_stats st) ∈ (trace_depths report).*2 ∧
   length (trace_depths report) / 2 <
     length (filter (λ d, d ≤ st_median (depth_stats st)) (trace_depths report).*2) ∧
   length (trace_depths report) - length (trace_depths report) / 2 ≤
     length (filter (λ d, st_median (depth_stats st) ≤ d) (trace_depths report).*2)) ∧
  (inject_Z (Z.of_nat (st_min (depth_stats st))) <= st_mean (depth_stats st) ∧
   st_mean (depth_stats st) <= inject_Z (Z.of_nat (st_max (depth_stats st))))%Q ∧
  (deepest_depth st = st_max (depth_stats st) ∧
   ∃ i, trace_depths report !! i = Some (deepest_trace_id st, deepest_depth st) ∧
        ∀ j kv, j < i → trace_depths report !! j = Some kv →
                kv.2 < deepest_depth st) ∧
  (st_max (breadth_stats st) = max_list (trace_breadths report).*2 ∧
   ∀ b, b ∈ (trace_breadths report).*2 →
        st_min (breadth_stats st) ≤ b ≤ st_max (breadth_stats st)).
Proof.
  intros Hrep Hst.
  destruct (analyze_trace_depth_inv _ _ _ Hrep Hst)
    as (Hm & Hds & Hbs & _ & Hkey & Hget).
  apply stats_of_spec in Hds as (Hne & Hmax & Hmin & Hb & Hmed & Hlo & Hhi & Hq1 & Hq2).
  apply stats_of_spec in Hbs as (_ & Hbmax & _ & Hbb & _).
  rewrite length_fmap in Hlo, Hhi.
  split; [done|]. split; [done|]. split; [done|]. split; [|done].
  destruct (root_loop_keys df (root_spans df) _ _ Hm) as [Hkd _].
  assert (NoDup (trace_depths report).*1) as Hnd
    by (rewrite Hkd; apply NoDup_first_seen).
  unfold py_max_key in Hkey.
  destruct (trace_depths report) as [|kv td] eqn:Htd; [done|].
  injection Hkey as Hkey.
  destruct (foldl_best_first_max td kv) as (i & Hi & Hbefore & Hall).
  set (r := foldl _ kv td) in *.
  assert (dict_get r.1 (kv :: td) = Some r.2) as Hr.
  { apply dict_get_NoDup; [done|]. destruct r. by eapply list_elem_of_lookup_2. }
  unfold dict_getitem in Hget. rewrite <-Hkey, Hr in Hget. injection Hget as Hdd.
  assert (r.2 = max_list (kv :: td).*2) as Hrmax.
  { apply Nat.le_antisymm.
    - apply max_list_ge, list_elem_of_fmap. exists r. split; [done|].
      by eapply list_elem_of_lookup_2.
    - apply max_list_le. intros x (kv' & -> & Hin)%list_elem_of_fmap.
      by apply Hall. }
  split; [congruence|]. exists i. rewrite <-Hkey, <-Hdd. split; [by destruct r|].
  done.
Qed.

(** X5 on the sample frame: two traces, of depths 3 and 1. *)
Lemma sample_frame_summary :
  ∃ report st,
    analyze_trace_depth sample_frame = Ok report ∧
    depth_summary report = Some st ∧
    deepest_depth st = st_max (depth_stats st) ∧
    st_max (depth_stats st) = 3.
Proof.
  destruct (analyze_trace_depth sample_frame) as [report|e] eqn:Hrep;
    [|by vm_compute in Hrep].
  destruct (depth_summary report) as [st|] eqn:Hst;
    [|vm_compute in Hrep; injection Hrep as <-; done].
  exists report, st.
  destruct (depth_summary_consistent sample_frame report st Hrep Hst)
    as ((Hmax & _) & _ & _ & (Hdeep & _) & _).
  split; [done|]. split; [done|]. split; [exact Hdeep|].
  rewrite Hmax. vm_compute in Hrep. injection Hrep as <-. reflexivity.
Defined.

(** ** Counting by group *)

Lemma sum_list_fmap_add {A} (f g : A → nat) (l : list A) :
  sum_list ((λ x, f x + g x) <$> l) = sum_list (f <$> l) + sum_list (g <$> l).
Proof.
  induction l as [|x l IH]; [done|].
  rewrite !fmap_cons. cbn [sum_list]. rewrite IH. unfold id. lia.
Qed.

Lemma sum_list_indicator {K} `{EqDecision K} (k : K) (keys : list K) :
  NoDup keys → k ∈ keys →
  sum_list ((λ k', if decide (k = k') then 1 else 0) <$> keys) = 1.
Proof.
  induction keys as [|k0 keys IH]; [by intros _ ?%elem_of_nil|].
  intros [Hk0 Hnd]%NoDup_cons Hin. rewrite fmap_cons. cbn [sum_list sum_list_with id].
  destruct (decide (k = k0)) as [->|Hne].
  - assert (sum_list ((λ k', if decide (k0 = k') then 1 else 0) <$> keys) = 0)
      as ->; [|done].
    clear IH Hnd Hin. induction keys as [|k1 keys IH]; [done|].
    rewrite fmap_cons. cbn [sum_list sum_list_with id].
    rewrite decide_False by (intros ->; apply Hk0; left).
    rewrite IH; [done|]. intros Hin. apply Hk0. by right.
  - rewrite IH; [done | done |].
    apply elem_of_cons in Hin as [?|?]; [done | done].
Qed.

(** The sizes of the groups of a key function add up to the number of
    grouped items, when every item's key is among the distinct keys. *)
Lemma sum_group_sizes {A K} `{EqDecision K} (f : A → K) (keys : list K) (l : list A) :
  NoDup keys → (∀ x, x ∈ l → f x ∈ keys) →
  sum_list ((λ k, length (filter (λ y, f y = k) l)) <$> keys) = length l.
Proof.
  intros Hnd. induction l as [|x l IH]; intros Hkeys.
  - induction keys as [|k keys IHk]; [done|].
    rewrite fmap_cons. cbn [sum_list sum_list_with id]. rewrite filter_nil.
    apply NoDup_cons in Hnd as [_ Hnd]. rewrite IHk; [done | done |].
    by intros x ?%elem_of_nil.
  - transitivity
      (sum_list ((λ k, (if decide (f x = k) then 1 else 0) +
                       length (filter (λ y, f y = k) l)) <$> keys)).
    { f_equal. apply list_fmap_ext. intros _ k _. rewrite filter_cons.
      by destruct (decide (f x = k)). }
    rewrite sum_list_fmap_add, sum_list_indicator, IH; [done | | done |].
    + intros y Hy. apply Hkeys. by right.
    + apply Hkeys. left.
Qed.

Lemma StronglySorted_NoDup_strict {A} (R : relation A) (l : list A) :
  StronglySorted R l → NoDup l → StronglySorted (λ a b, R a b ∧ a ≠ b) l.
Proof.
  induction 1 as [|x l Hs IH Hall]; intros Hnd; [constructor|].
  apply NoDup_cons in Hnd as [Hx Hnd]. constructor; [by apply IH|].
  apply Forall_forall. intros y Hy. split.
  - by eapply Forall_forall in Hall.
  - by intros ->.
Qed.

Lemma StronglySorted_impl {A} (R R' : relation A) (l : list A) :
  (∀ a b, R a b → R' a b) → StronglySorted R l → StronglySorted R' l.
Proof.
  intros HR. induction 1 as [|x l Hs IH Hall]; constructor; [done|].
  eapply Forall_impl; [done|]. intros y. apply HR.
Qed.

Lemma counter_sorted_keys l :
  (counter_sorted l).*1 = merge_sort (≤) (remove_dups l).
Proof.
  unfold counter_sorted. rewrite <-list_fmap_compose. apply list_fmap_id.
Qed.

Lemma counter_sorted_spec (l : list nat) :
  StronglySorted (<) (counter_sorted l).*1 ∧
  (∀ x n, (x, n) ∈ counter_sorted l ↔
          x ∈ l ∧ n = length (filter (λ y, y = x) l)) ∧
  sum_list (counter_sorted l).*2 = length l.
Proof.
  split_and!.
  - rewrite counter_sorted_keys.
    eapply StronglySorted_impl;
      [|apply StronglySorted_NoDup_strict;
        [apply StronglySorted_merge_sort; apply _
        |rewrite merge_sort_Permutation; apply NoDup_remove_dups]].
    intros a b [? ?]. simpl in *. lia.
  - intros x n. unfold counter_sorted. rewrite list_elem_of_fmap. split.
    + intros (k & [= -> ->] & Hk).
      by rewrite merge_sort_Permutation, elem_of_remove_dups in Hk.
    + intros [Hx ->]. exists x. split; [done|].
      by rewrite merge_sort_Permutation, elem_of_remove_dups.
  - unfold counter_sorted. rewrite <-list_fmap_compose.
    apply (sum_group_sizes id).
    + rewrite merge_sort_Permutation. apply NoDup_remove_dups.
    + intros x Hx. by rewrite merge_sort_Permutation, elem_of_remove_dups.
Qed.

Lemma length_filter_fmap {A B} (f : A → B) (P : B → Prop) `{∀ y, Decision (P y)}
    (l : list A) :
  length (filter P (f <$> l)) = length (filter (λ x, P (f x)) l).
Proof.
  induction l as [|x l IH]; [done|].
  rewrite fmap_cons, !filter_cons.
  destruct (decide (P (f x))); simpl; by rewrite IH.
Qed.

(** X6.  The depth distribution printed by the depth analysis lists the
    depths in strictly ascending order, each once; a depth is listed exactly
    when some trace has it, with the number of traces that have it, which is
    never zero; and the counts add up to the number of traces that have a
    root row. *)
Theorem depth_distribution_partitions_traces df report st :
  analyze_trace_depth df = Ok report →
  depth_summary report = Some st →
  StronglySorted (<) (depth_dist st).*1 ∧
  (∀ d n, (d, n) ∈ depth_dist st ↔
          0 < n ∧
          n = length (filter (λ kv, kv.2 = d) (trace_depths report))) ∧
  sum_list (depth_dist st).*2 = length (first_seen (trace_id <$> root_spans df)).
Proof.
  intros Hrep Hst.
  destruct (analyze_trace_depth_inv _ _ _ Hrep Hst) as (Hm & _ & _ & -> & _).
  destruct (counter_sorted_spec (trace_depths report).*2) as (Hsorted & Hmem & Hsum).
  destruct (root_loop_keys df (root_spans df) _ _ Hm) as [Hkd _].
  assert (∀ d, length (filter (λ y, y = d) (trace_depths report).*2) =
               length (filter (λ kv : string * nat, kv.2 = d) (trace_depths report)))
    as Hcount.
  { intros d. apply length_filter_fmap. }
  split_and!; [done | |].
  - intros d n. rewrite Hmem, Hcount. split.
    + intros [Hd ->]. split; [|done]. rewrite <-Hcount.
      apply filter_nonempty_lookup. apply list_elem_of_lookup in Hd as [j Hj].
      by exists j, d.
    + intros [Hpos ->]. split; [|done]. rewrite <-Hcount in Hpos.
      apply filter_nonempty_lookup in Hpos as (j & y & Hj & ->).
      by eapply list_elem_of_lookup_2.
  - by rewrite Hsum, length_fmap, <-Hkd, length_fmap.
Qed.

(** X6 on the sample frame: one trace of depth 1 and one of depth 3. *)
Lemma sample_frame_distribution :
  ∃ report st,
    analyze_trace_depth sample_frame = Ok report ∧
    depth_summary report = Some st ∧
    depth_dist st = [(1, 1); (3, 1)] ∧
    sum_list (depth_dist st).*2 = 2.
Proof.
  destruct (analyze_trace_depth sample_frame) as [report|e] eqn:Hrep;
    [|by vm_compute in Hrep].
  destruct (depth_summary report) as [st|] eqn:Hst;
    [|vm_compute in Hrep; injection Hrep as <-; done].
  exists report, st.
  destruct (depth_distribution_partitions_traces sample_frame report st Hrep Hst)
    as (_ & _ & Hsum).
  split; [done|]. split; [done|]. split; [|by rewrite Hsum].
  vm_compute in Hrep. injection Hrep as <-. by injection Hst as <-.
Defined.

(** ** The relationship analysis *)

Lemma analyze_span_relationships_inv df rep :
  analyze_span_relationships df = Ok rep →
  df ≠ [] ∧
  total_spans rep = length df ∧
  unique_span_ids rep = nunique (span_id <$> df) ∧
  unique_parent_ids rep = nunique (parent_span_id <$> child_spans df) ∧
  duplicates rep = duplicate_span_ids df ∧
  rel_root_spans rep = root_spans df ∧
  rel_child_spans rep = child_spans df ∧
  percent (length (root_spans df)) (length df) = Ok (root_share rep) ∧
  percent (length (child_spans df)) (length df) = Ok (child_share rep) ∧
  root_by_service rep = service_counts (root_spans df) ∧
  kind_lines (root_spans df) = Ok (root_by_kind rep) ∧
  kind_lines (child_spans df) = Ok (child_by_kind rep).
Proof.
  unfold analyze_span_relationships. intros Hrep.
  assert (df ≠ []) as Hne by (by intros ->).
  destruct (percent (length (root_spans df)) (length df)) as [p1|] eqn:Hp1;
    cbn [mbind result_bind] in Hrep; [|done].
  destruct (percent (length (child_spans df)) (length df)) as [p2|] eqn:Hp2;
    cbn [mbind result_bind] in Hrep; [|done].
  destruct (kind_lines (root_spans df)) as [k1|] eqn:Hk1;
    cbn [mbind result_bind] in Hrep; [|done].
  destruct (kind_lines (child_spans df)) as [k2|] eqn:Hk2;
    cbn [mbind result_bind] in Hrep; [|done].
  injection Hrep as <-. by split_and!.
Qed.

Lemma length_root_child_spans df :
  length (root_spans df) + length (child_spans df) = length df.
Proof.
  unfold root_spans, child_spans. induction df as [|r df IH]; [done|].
  rewrite !filter_cons. destruct (decide (parent_span_id r = "")) as [Hp|Hp].
  - rewrite decide_False by (by intros ?). simpl. lia.
  - rewrite decide_True by done. simpl. lia.
Qed.

Lemma length_filter_le {A} (P : A → Prop) `{∀ x, Decision (P x)} (l : list A) :
  length (filter P l) ≤ length l.
Proof.
  induction l as [|x l IH]; [done|].
  rewrite filter_cons. case_decide; simpl; lia.
Qed.

Lemma percent_bounds n total p :
  n ≤ total → percent n total = Ok p → (0 <= p ∧ p <= 100)%Q.
Proof.
  unfold percent, py_truediv. intros Hle.
  case_decide as Ht; [done|]. cbn [mbind result_bind]. intros [= <-].
  unfold Qle. cbn [Qnum Qden Qmult].
  rewrite Pos2Z.inj_mul, <-(positive_nat_Z (Pos.of_nat _)), Nat2Pos.id by done.
  split; lia.
Qed.

(** The counting fold behind [value_counts()] and [groupby().size()]: a key
    has an entry exactly when some item carries it, holding their number. *)
Lemma count_fold_lookup {A} (f : A → string) (l : list A) (k : string) :
  foldl (λ (m : gmap string nat) r, <[f r := S (default 0 (m !! f r))]> m) ∅ l !! k =
    match length (filter (λ r, f r = k) l) with
    | 0 => None
    | n => Some n
    end.
Proof.
  induction l as [|r l IH] using rev_ind; [done|].
  rewrite foldl_snoc, filter_app, filter_cons, filter_nil, length_app.
  destruct (decide (f r = k)) as [->|Hne].
  - rewrite lookup_insert, decide_True by done. rewrite IH. simpl.
    destruct (length (filter _ l)) as [|n] eqn:Hn; simpl.
    + done.
    + by rewrite Nat.add_1_r.
  - rewrite lookup_insert_ne by done. by rewrite IH, Nat.add_0_r.
Qed.

(** X7.  In the report of the relationship analysis every row is counted
    once, as a root or as a child by its parent_span_id; the two shares lie
    between 0 and 100; the unique counts do not exceed the rows they are
    taken from; and a service is listed under the roots exactly when it has
    a root row, with the number of its root rows. *)
Theorem relationship_counts_partition df rep :
  analyze_span_relationships df = Ok rep →
  (length (rel_root_spans rep) + length (rel_child_spans rep) = total_spans rep ∧
   ∀ r, r ∈ df ↔
        (r ∈ rel_root_spans rep ∧ parent_span_id r = "") ∨
        (r ∈ rel_child_spans rep ∧ parent_span_id r ≠ "")) ∧
  (0 <= root_share rep ∧ root_share rep <= 100 ∧
   0 <= child_share rep ∧ child_share rep <= 100)%Q ∧
  (0 < unique_span_ids rep ≤ total_spans rep ∧
   unique_parent_ids rep ≤ length (rel_child_spans rep)) ∧
  (∀ svc n, root_by_service rep !! svc = Some n ↔
            0 < n ∧
            n = length (filter (λ r, service_name r = svc) (rel_root_spans rep))).
Proof.
  intros (Hne & -> & -> & -> & _ & -> & -> & Hrs & Hcs & -> & _)
    %analyze_span_relationships_inv.
  pose proof (length_root_child_spans df) as Hlen.
  apply percent_bounds in Hrs as [? ?]; [|lia].
  apply percent_bounds in Hcs as [? ?]; [|lia].
  split_and!; try done.
  - intros r. unfold root_spans, child_spans. rewrite !list_elem_of_filter.
    destruct (decide (parent_span_id r = "")); naive_solver.
  - unfold nunique. destruct df as [|r df]; [done|].
    destruct (remove_dups (span_id <$> r :: df)) as [|x l] eqn:Hrd; [|simpl; lia].
    assert (span_id r ∈ remove_dups (span_id <$> r :: df)) as Hin
      by (apply elem_of_remove_dups; rewrite fmap_cons; left).
    rewrite Hrd in Hin. by apply elem_of_nil in Hin.
  - unfold nunique. etrans; [apply length_remove_dups|]. by rewrite length_fmap.
  - unfold nunique. etrans; [apply length_remove_dups|]. by rewrite length_fmap.
  - intros svc n. unfold service_counts. rewrite count_fold_lookup.
    destruct (length (filter _ (root_spans df))) as [|m]; [|naive_solver lia].
    split; [done | lia].
Qed.

(** X7 on the sample frame: three roots and three children. *)
Lemma sample_frame_partition :
  ∃ rep,
    analyze_span_relationships sample_frame = Ok rep ∧
    length (rel_root_spans rep) + length (rel_child_spans rep) = 6.
Proof.
  destruct (analyze_span_relationships sample_frame) as [rep|e] eqn:Hrep;
    [|by vm_compute in Hrep].
  exists rep. split; [done|].
  destruct (relationship_counts_partition sample_frame rep Hrep)
    as ((Hlen & _) & _).
  rewrite Hlen. vm_compute in Hrep. injection Hrep as <-. reflexivity.
Defined.

Lemma kind_counts_keys rows :
  (kind_counts rows).*1 = merge_sort Z.le (remove_dups (span_kind <$> rows)).
Proof.
  unfold kind_counts. rewrite <-list_fmap_compose. apply list_fmap_id.
Qed.

Lemma kind_counts_spec rows :
  StronglySorted Z.lt (kind_counts rows).*1 ∧
  (∀ k n, (k, n) ∈ kind_counts rows ↔
          0 < n ∧ n = length (filter (λ r, span_kind r = k) rows)) ∧
  sum_list (kind_counts rows).*2 = length rows.
Proof.
  split_and!.
  - rewrite kind_counts_keys.
    eapply StronglySorted_impl;
      [|apply StronglySorted_NoDup_strict;
        [apply StronglySorted_merge_sort; apply _
        |rewrite merge_sort_Permutation; apply NoDup_remove_dups]].
    intros a b [? ?]. simpl in *. lia.
  - intros k n. unfold kind_counts. rewrite list_elem_of_fmap. split.
    + intros (k' & [= -> ->] & Hk). split; [|done].
      rewrite merge_sort_Permutation, elem_of_remove_dups, list_elem_of_fmap in Hk.
      destruct Hk as (r & -> & Hr). apply filter_nonempty_lookup.
      apply list_elem_of_lookup in Hr as [j Hj]. by exists j, r.
    + intros [Hpos ->]. exists k. split; [done|].
      rewrite merge_sort_Permutation, elem_of_remove_dups, list_elem_of_fmap.
      apply filter_nonempty_lookup in Hpos as (j & r & Hj & <-).
      exists r. split; [done|]. by eapply list_elem_of_lookup_2.
  - unfold kind_counts. rewrite <-list_fmap_compose.
    apply (sum_group_sizes span_kind).
    + rewrite merge_sort_Permutation. apply NoDup_remove_dups.
    + intros r Hr. rewrite merge_sort_Permutation, elem_of_remove_dups,
        list_elem_of_fmap. by exists r.
Qed.

Lemma kind_lines_spec rows lines :
  kind_lines rows = Ok lines →
  (λ line : string * Z * nat * Q, (line.1.1.2, line.1.2)) <$> lines = kind_counts rows ∧
  Forall (λ line : string * Z * nat * Q,
            line.1.1.1 = kind_name line.1.1.2 ∧
            percent line.1.2 (length rows) = Ok line.2) lines.
Proof.
  unfold kind_lines. rewrite mapM_result_Ok.
  induction 1 as [|[k n] line kcs lines Hline _ [IH1 IH2]]; [done|].
  simpl in Hline. destruct (percent n (length rows)) as [p|] eqn:Hp; [|done].
  cbn [mbind result_bind] in Hline. injection Hline as <-.
  rewrite fmap_cons, IH1. split; [done|]. by constructor.
Qed.

Lemma append_paren_inj (x y : string) : x +:+ ")" = y +:+ ")" → x = y.
Proof.
  revert y. induction x as [|a x IH]; intros [|b y]; simpl; try done.
  - intros [= -> Hy]. by destruct y.
  - intros [= -> Hx]. by destruct x.
  - intros [= -> Hxy]. f_equal. by apply IH.
Qed.

Lemma kind_name_inj : Inj (=) (=) kind_name.
Proof.
  intros k1 k2. unfold kind_name.
  repeat case_decide; subst; try done; simpl; try discriminate.
  intros [= Heq]. simpl in Heq. apply append_paren_inj in Heq.
  by apply (inj pretty).
Qed.

(** X8.  The per-kind lines of the relationship analysis, for the roots and
    for the children alike: the kinds come in strictly ascending order, each
    once; a kind has a line exactly when some row of the group has it, with
    the number of those rows, never zero; the counts of the lines add up to
    the size of the group; each share lies between 0 and 100; and two lines
    never carry the same name, also for kinds outside 0..5. *)
Theorem kind_lines_partition_group df rep :
  analyze_span_relationships df = Ok rep →
  ∀ lines rows,
    (lines = root_by_kind rep ∧ rows = rel_root_spans rep) ∨
    (lines = child_by_kind rep ∧ rows = rel_child_spans rep) →
    StronglySorted Z.lt ((λ line, line.1.1.2) <$> lines) ∧
    (∀ k n, (∃ name p, (name, k, n, p) ∈ lines) ↔
            0 < n ∧ n = length (filter (λ r, span_kind r = k) rows)) ∧
    sum_list ((λ line, line.1.2) <$> lines) = length rows ∧
    (∀ line, line ∈ lines →
             line.1.1.1 = kind_name line.1.1.2 ∧ (0 <= line.2 ∧ line.2 <= 100)%Q) ∧
    NoDup ((λ line, line.1.1.1) <$> lines).
Proof.
  intros (_ & _ & _ & _ & _ & Hr & Hc & _ & _ & _ & Hrk & Hck)
    %analyze_span_relationships_inv lines rows Hcase.
  assert (kind_lines rows = Ok lines) as Hlines.
  { destruct Hcase as [[-> ->]|[-> ->]]; by rewrite ?Hr, ?Hc. }
  clear Hcase Hr Hc Hrk Hck.
  apply kind_lines_spec in Hlines as [Hkc Hall].
  destruct (kind_counts_spec rows) as (Hsorted & Hmem & Hsum).
  rewrite Forall_forall in Hall.
  assert ((λ line : string * Z * nat * Q, line.1.1.2) <$> lines =
          (kind_counts rows).*1) as Hkeys.
  { rewrite <-Hkc, <-list_fmap_compose. done. }
  assert (∀ line, line ∈ lines → (line.1.1.2, line.1.2) ∈ kind_counts rows) as Hin.
  { intros line Hline. rewrite <-Hkc. apply list_elem_of_fmap. by exists line. }
  split_and!.
  - by rewrite Hkeys.
  - intros k n. rewrite <-Hmem, <-Hkc, list_elem_of_fmap. split.
    + intros (name & p & Hline). by exists (name, k, n, p).
    + intros ([[[name k'] n'] p] & [= -> ->] & Hline). by exists name, p.
  - rewrite <-Hsum, <-Hkc, <-list_fmap_compose. done.
  - intros line Hline. destruct (Hall line Hline) as [Hname Hp].
    split; [done|]. eapply percent_bounds; [|done].
    apply Hin, Hmem in Hline as [_ ->]. apply length_filter_le.
  - assert (NoDup ((λ line : string * Z * nat * Q, line.1.1.2) <$> lines)) as Hnd.
    { rewrite Hkeys, kind_counts_keys, merge_sort_Permutation.
      apply NoDup_remove_dups. }
    assert ((λ line : string * Z * nat * Q, line.1.1.1) <$> lines =
            kind_name <$> ((λ line : string * Z * nat * Q, line.1.1.2) <$> lines))
      as ->.
    { rewrite <-list_fmap_compose. apply list_fmap_ext.
      intros i line Hi. apply Hall. by eapply list_elem_of_lookup_2. }
    apply NoDup_fmap_2; [apply kind_name_inj | done].
Qed.

(** X8 on the sample frame: its three roots all have kind 2. *)
Lemma sample_frame_root_kinds :
  ∃ rep,
    analyze_span_relationships sample_frame = Ok rep ∧
    sum_list ((λ line, line.1.2) <$> root_by_kind rep) = 3.
Proof.
  destruct (analyze_span_relationships sample_frame) as [rep|e] eqn:Hrep;
    [|by vm_compute in Hrep].
  exists rep. split; [done|].
  destruct (kind_lines_partition_group sample_frame rep Hrep
              (root_by_kind rep) (rel_root_spans rep))
    as (_ & _ & Hsum & _); [by left|].
  rewrite Hsum. vm_compute in Hrep. injection Hrep as <-. reflexivity.
Defined.

Lemma NoDup_length_remove_dups `{EqDecision A} (l : list A) :
  length (remove_dups l) = length l ↔ NoDup l.
Proof.
  split.
  - induction l as [|x l IH]; [constructor|]. simpl.
    pose proof (length_remove_dups l) as Hle.
    case_decide as Hx; simpl; [lia|]. intros [= Hlen].
    constructor; [done | by apply IH].
  - intros Hnd. induction Hnd as [|x l Hx Hnd IH]; [done|]. simpl.
    case_decide; [done|]. simpl. by rewrite IH.
Qed.

Lemma duplicate_span_ids_nil df :
  duplicate_span_ids df = [] ↔ NoDup (span_id <$> df).
Proof.
  rewrite NoDup_alt. split.
  - intros Hnil i j s Hi Hj. destruct (decide (i = j)) as [|Hne]; [done|].
    apply list_lookup_fmap_Some in Hi as (r & -> & Hi).
    apply list_lookup_fmap_Some in Hj as (r' & Heq & Hj).
    assert (r ∈ duplicate_span_ids df) as Hin.
    { apply elem_of_duplicate_span_ids. by exists i, j, r'. }
    rewrite Hnil in Hin. by apply elem_of_nil in Hin.
  - intros Hinj. destruct (duplicate_span_ids df) as [|r l] eqn:Hd; [done|].
    assert (r ∈ duplicate_span_ids df) as Hin by (rewrite Hd; left).
    apply elem_of_duplicate_span_ids in Hin as (i & j & r' & Hij & Hi & Hj & Heq).
    exfalso. apply Hij. apply (Hinj i j (span_id r)).
    + by rewrite list_lookup_fmap, Hi.
    + by rewrite list_lookup_fmap, Hj, <-Heq.
Qed.

Lemma sublist_filter_mono {A} (P : A → Prop) `{∀ x, Decision (P x)} (k l : list A) :
  k `sublist_of` l → filter P k `sublist_of` filter P l.
Proof.
  induction 1 as [|x k l _ IH|x k l _ IH]; [done| |].
  - rewrite !filter_cons. case_decide; [by constructor | done].
  - rewrite filter_cons. case_decide; [by constructor | done].
Qed.

(** The rows whose key occurs once carry pairwise distinct keys. *)
Lemma NoDup_fmap_unique_rows {A B} `{EqDecision B} (f : A → B) (l k : list A) :
  k `sublist_of` l →
  NoDup (f <$> filter (λ x, ¬ 1 < length (filter (λ y, f y = f x) l)) k).
Proof.
  induction k as [|x k IH]; intros Hsub; [constructor|].
  assert (k `sublist_of` l) as Hk by (etrans; [by apply sublist_cons|done]).
  rewrite filter_cons. case_decide as Hx; [|by apply IH].
  rewrite fmap_cons. constructor; [|by apply IH].
  intros (y & Hfy & [_ Hy]%list_elem_of_filter)%list_elem_of_fmap. apply Hx.
  pose proof (sublist_length _ _
                (sublist_filter_mono (λ y, f y = f x) _ _ Hsub)) as Hlen.
  rewrite filter_cons, decide_True in Hlen by done. simpl in Hlen.
  assert (0 < length (filter (λ y, f y = f x) k)); [|lia].
  apply filter_nonempty_lookup. apply list_elem_of_lookup in Hy as [j Hj].
  by exists j, y.
Qed.

(** X9.  The relationship analysis reports span_ids as all unique exactly
    when the number of unique span_ids equals the number of rows; when it
    warns instead, the duplicate entries it counts number at least two and
    more than the rows in excess of the unique span_ids. *)
Theorem duplicate_warning_matches_unique_count df rep :
  analyze_span_relationships df = Ok rep →
  (duplicates rep = [] ↔ unique_span_ids rep = total_spans rep) ∧
  (duplicates rep ≠ [] →
   2 ≤ length (duplicates rep) ∧
   total_spans rep - unique_span_ids rep < length (duplicates rep)).
Proof.
  intros (_ & -> & -> & _ & -> & _)%analyze_span_relationships_inv.
  split.
  - rewrite duplicate_span_ids_nil. unfold nunique.
    by rewrite <-NoDup_length_remove_dups, length_fmap.
  - intros Hne.
    destruct (duplicate_span_ids df) as [|r l] eqn:Hd; [done|]. rewrite <-Hd.
    assert (r ∈ duplicate_span_ids df) as Hin by (rewrite Hd; left).
    apply list_elem_of_filter in Hin as [Hlt Hr]. split.
    + etrans; [exact Hlt|].
      rewrite <-(list_filter_filter_l (λ r', span_id r' = span_id r)
                   (λ r0, 1 < length (filter (λ r', span_id r' = span_id r0) df)) df).
      * apply length_filter_le.
      * intros x Hx. by rewrite Hx.
    + set (uniq := filter (λ x, ¬ 1 < length (filter (λ y, span_id y = span_id x) df))
                     df).
      assert (length (duplicate_span_ids df) + length uniq = length df) as Hsplit.
      { rewrite <-length_app. apply Permutation_length.
        apply (filter_app_complement
                 (λ r0, 1 < length (filter (λ r', span_id r' = span_id r0) df))). }
      assert (0 < length (duplicate_span_ids df)) by (rewrite Hd; simpl; lia).
      assert (S (length uniq) ≤ nunique (span_id <$> df)); [|lia].
      rewrite <-(length_fmap span_id uniq). unfold nunique.
      change (S (length (span_id <$> uniq)))
        with (length (span_id r :: (span_id <$> uniq))).
      apply submseteq_length, NoDup_submseteq.
      * constructor; [|by apply NoDup_fmap_unique_rows].
        intros (u & Hid & [Hu _]%list_elem_of_filter)%list_elem_of_fmap.
        apply Hu. by rewrite <-Hid.
      * intros s Hs. apply elem_of_remove_dups, list_elem_of_fmap.
        apply elem_of_cons in Hs as [->|(u & -> & [_ Hu]%list_elem_of_filter)
                                          %list_elem_of_fmap]; eauto.
Qed.

(** X9 on the frame with a shared span_id: two duplicate entries, one row in
    excess of the unique span_ids. *)
Lemma duplicate_s1_warning :
  ∃ rep,
    analyze_span_relationships duplicate_s1 = Ok rep ∧
    unique_span_ids rep ≠ total_spans rep ∧
    2 ≤ length (duplicates rep).
Proof.
  destruct (analyze_span_relationships duplicate_s1) as [rep|e] eqn:Hrep;
    [|by vm_compute in Hrep].
  exists rep. split; [done|].
  destruct (duplicate_warning_matches_unique_count duplicate_s1 rep Hrep)
    as [Hiff Hwarn].
  assert (duplicates rep ≠ []) as Hne
    by (vm_compute in Hrep; injection Hrep as <-; done).
  split; [|by apply Hwarn]. intros Heq. by apply Hne, Hiff.
Defined.

(** ** The structure analysis *)

Lemma spans_per_trace_spec df tid :
  spans_per_trace df !! tid =
    match length (filter (λ r, trace_id r = tid) df) with
    | 0 => None
    | n => Some n
    end.
Proof. apply count_fold_lookup. Qed.

Lemma snd_fmap_of_keys {K V} (g : K → V) (l : list (K * V)) :
  (∀ k v, (k, v) ∈ l → v = g k) → l.*2 = g <$> l.*1.
Proof.
  induction l as [|[k v] l IH]; intros Hl; [done|].
  rewrite !fmap_cons. simpl. rewrite (Hl k v) by left. f_equal.
  apply IH. intros k' v' Hin. apply Hl. by right.
Qed.

(** The values of a map of group sizes add up to the number of grouped
    items. *)
Lemma sum_map_group_sizes {A} (f : A → string) (m : gmap string nat) (l : list A) :
  (∀ k n, m !! k = Some n → n = length (filter (λ y, f y = k) l)) →
  (∀ x, x ∈ l → is_Some (m !! f x)) →
  sum_list (map_to_list m).*2 = length l.
Proof.
  intros Hval Hkey.
  rewrite (snd_fmap_of_keys (λ k, length (filter (λ y, f y = k) l))).
  - apply sum_group_sizes; [apply NoDup_fst_map_to_list|].
    intros x [n Hn]%Hkey. apply list_elem_of_fmap. exists (f x, n).
    split; [done|]. by apply elem_of_map_to_list.
  - intros k n Hin%elem_of_map_to_list. by apply Hval.
Qed.

(** X10.  The structure analysis groups the rows by trace_id: a trace has
    an entry in the spans-per-trace counts exactly when it has a row,
    holding the number of its rows; the number of unique traces is the
    number of groups; the root counts are kept for the same traces and
    never exceed the span counts; the span counts add up to the number of
    rows and the root counts to the number of root rows; and the traces
    warned about are among the groups. *)
Theorem trace_structure_counts df :
  (∀ tid n, str_spans_per_trace (analyze_trace_structure df) !! tid = Some n ↔
            0 < n ∧ n = length (filter (λ r, trace_id r = tid) df)) ∧
  unique_traces (analyze_trace_structure df) =
    size (str_spans_per_trace (analyze_trace_structure df)) ∧
  (∀ tid, is_Some (str_root_spans_per_trace (analyze_trace_structure df) !! tid) ↔
          is_Some (str_spans_per_trace (analyze_trace_structure df) !! tid)) ∧
  (∀ tid k n,
     str_root_spans_per_trace (analyze_trace_structure df) !! tid = Some k →
     str_spans_per_trace (analyze_trace_structure df) !! tid = Some n → k ≤ n) ∧
  sum_list (map_to_list (str_spans_per_trace (analyze_trace_structure df))).*2 =
    length df ∧
  sum_list (map_to_list (str_root_spans_per_trace (analyze_trace_structure df))).*2 =
    length (root_spans df) ∧
  str_multi_root_traces (analyze_trace_structure df) ⊆
    str_root_spans_per_trace (analyze_trace_structure df).
Proof.
  cbn [analyze_trace_structure str_spans_per_trace unique_traces
         str_root_spans_per_trace str_multi_root_traces].
  assert (∀ tid n, spans_per_trace df !! tid = Some n ↔
                   0 < n ∧ n = length (filter (λ r, trace_id r = tid) df)) as Hspans.
  { intros tid n. rewrite spans_per_trace_spec.
    destruct (length (filter _ df)) as [|m]; [|naive_solver lia].
    split; [done | lia]. }
  assert (∀ tid, is_Some (spans_per_trace df !! tid) ↔
                 filter (λ r, trace_id r = tid) df ≠ []) as Hsome.
  { intros tid. rewrite spans_per_trace_spec.
    destruct (filter _ df) as [|x l]; simpl; [|by split].
    split; [by intros [? ?] | done]. }
  split_and!.
  - done.
  - unfold nunique. rewrite <-length_map_to_list, <-(length_fmap fst).
    apply Permutation_length, NoDup_Permutation.
    + apply NoDup_remove_dups.
    + apply NoDup_fst_map_to_list.
    + intros tid. rewrite elem_of_remove_dups, list_elem_of_fmap. split.
      * intros (r & -> & Hr).
        destruct (proj2 (Hsome (trace_id r))) as [n Hn].
        { intros Hno. rewrite filter_eq_nil in Hno. by apply (Hno r). }
        apply list_elem_of_fmap. exists (trace_id r, n). split; [done|].
        by apply elem_of_map_to_list.
      * intros ([tid' n] & -> & Hn%elem_of_map_to_list)%list_elem_of_fmap.
        apply Hspans in Hn as [Hpos Hneq]. rewrite Hneq in Hpos.
        apply filter_nonempty_lookup in Hpos as (j & r & Hj & <-).
        exists r. split; [done|]. by eapply list_elem_of_lookup_2.
  - intros tid. rewrite Hsome, root_spans_per_trace_spec.
    destruct (filter _ df) as [|x l]; [|by split].
    split; [by intros [? ?] | done].
  - intros tid k n Hk Hn. rewrite root_spans_per_trace_spec in Hk.
    apply Hspans in Hn as [_ ->]. destruct (filter _ df) as [|x l] eqn:Hf; [done|].
    injection Hk as <-. rewrite <-Hf. unfold roots_of, root_spans.
    rewrite list_filter_filter.
    rewrite <-(list_filter_filter_l
                 (λ a : SpanRecord, trace_id a = tid ∧ parent_span_id a = "")
                 (λ r, trace_id r = tid) df) by naive_solver.
    apply length_filter_le.
  - apply (sum_map_group_sizes trace_id).
    + intros tid n Hn. by apply Hspans in Hn as [_ ->].
    + intros r Hr. apply Hsome. intros Hno. rewrite filter_eq_nil in Hno. by apply (Hno r).
  - apply (sum_map_group_sizes trace_id).
    + intros tid n Hn. rewrite root_spans_per_trace_spec in Hn.
      destruct (filter _ df); [done|]. by injection Hn as <-.
    + intros r [_ Hr]%list_elem_of_filter. rewrite root_spans_per_trace_spec.
      destruct (filter _ df) as [|x l] eqn:Hf; [|done].
      exfalso. rewrite filter_eq_nil in Hf. by apply (Hf r).
  - apply map_filter_subseteq.
Qed.

(** ** Where the child rows go *)

Lemma length_filter_complement {A} (P : A → Prop) `{∀ x, Decision (P x)} (l : list A) :
  length (filter P l) + length (filter (λ x, ¬ P x) l) = length l.
Proof.
  rewrite <-length_app. apply Permutation_length, filter_app_complement.
Qed.

Lemma resolved_rows_split df (l : list SpanRecord) :
  length (filter (λ r, parent_span_id r ∈ all_span_ids df) l) =
    length (omap (call_of (span_to_service df)) l) +
    length (filter (λ r, span_to_service df !! parent_span_id r = Some (service_name r))
              l).
Proof.
  induction l as [|r l IH]; [done|].
  rewrite !filter_cons. cbn [omap list_omap].
  change (list_omap _ _ (call_of (span_to_service df)) l)
    with (omap (call_of (span_to_service df)) l).
  unfold call_of at 1.
  destruct (span_to_service df !! parent_span_id r) as [ps|] eqn:Hps.
  - rewrite decide_True.
    2: { destruct (decide (parent_span_id r ∈ all_span_ids df)) as [|Hno]; [done|].
         apply span_to_service_None in Hno. congruence. }
    destruct (decide (ps ≠ service_name r)) as [Hne|Heq].
    + rewrite decide_False by congruence. simpl. lia.
    + apply dec_stable in Heq. rewrite decide_True by congruence. simpl. lia.
  - rewrite decide_False by (by apply span_to_service_None).
    rewrite decide_False by done. done.
Qed.

(** X11.  Every child row goes one of three ways: it is an orphan, it
    yields a cross-service call, or its parent resolves to a row of its own
    service.  So the number that the summary prints as child spans with
    valid parents, the child rows less the orphans, is the number of child
    rows whose parent_span_id is some row's span_id; it is never negative,
    it bounds the number of cross-service calls, and the orphan analysis
    returns nothing exactly when it equals the number of child rows.  The
    row of an orphan never yields a call. *)
Theorem child_rows_accounting df :
  length (child_spans df) =
    length (orphaned_spans df) + length (cross_service_calls df) +
    length (filter (λ r, span_to_service df !! parent_span_id r = Some (service_name r))
              (child_spans df)) ∧
  (Z.of_nat (length (child_spans df)) -
     Z.of_nat (match analyze_orphaned_spans df with
               | Some o => length o
               | None => 0
               end) =
   Z.of_nat (length (filter (λ r, parent_span_id r ∈ all_span_ids df)
                       (child_spans df))))%Z ∧
  length (cross_service_calls df) ≤
    length (filter (λ r, parent_span_id r ∈ all_span_ids df) (child_spans df)) ∧
  (analyze_orphaned_spans df = None ↔
   length (filter (λ r, parent_span_id r ∈ all_span_ids df) (child_spans df)) =
     length (child_spans df)) ∧
  (∀ call o, call ∈ cross_service_calls df → o ∈ orphaned_spans df →
             cc_parent_span_id call ≠ parent_span_id o).
Proof.
  pose proof (length_filter_complement
                (λ r, parent_span_id r ∈ all_span_ids df) (child_spans df)) as Hsplit.
  pose proof (resolved_rows_split df (child_spans df)) as Hres.
  rewrite <-cross_service_calls_spec in Hres.
  assert (length (orphaned_spans df) =
          length (filter (λ r, ¬ parent_span_id r ∈ all_span_ids df) (child_spans df)))
    as Horph by by rewrite orphaned_spans_spec.
  assert (match analyze_orphaned_spans df with
          | Some o => length o
          | None => 0
          end = length (orphaned_spans df)) as Hsome.
  { unfold analyze_orphaned_spans. case_decide; [done | lia]. }
  split_and!.
  - lia.
  - rewrite Hsome. lia.
  - lia.
  - unfold analyze_orphaned_spans. case_decide; split; try done; lia.
  - intros call o (row & _ & _ & Hcall)%elem_of_cross_service_calls Ho Heq.
    rewrite orphaned_spans_spec in Ho. apply list_elem_of_filter in Ho as [Ho _].
    apply span_to_service_None in Ho. unfold call_of in Hcall.
    destruct (span_to_service df !! parent_span_id row) as [ps|] eqn:Hps; [|done].
    case_decide; [|done]. injection Hcall as <-. simpl in Heq. congruence.
Qed.

(** ** The report of the cross-service analysis *)

Lemma sum_groupby_size calls : sum_list (groupby_size calls).*2 = length calls.
Proof.
  unfold groupby_size. rewrite <-list_fmap_compose.
  apply (sum_group_sizes edge_key); [apply group_keys_NoDup|].
  intros call Hcall. apply elem_of_group_keys. by exists call.
Qed.

(** X12.  What the cross-service analysis reports.  It prints that no call
    was found exactly when no child row has a parent resolving to another
    service.  Otherwise the number of calls found is positive; the counts
    of the call matrix add up to it, so every call is counted under exactly
    one pair of services; the lines of most common patterns number ten or
    as many as there are pairs, whichever is less; their counts add up to no
    more than the calls found; and a pair left out of these lines never has
    a greater count than a pair shown. *)
Theorem cross_report_totals `{SortValues} df :
  match analyze_cross_service_calls df with
  | None =>
      cross_service_calls df = [] ∧
      ∀ r ps, r ∈ df → parent_span_id r ≠ "" →
              span_to_service df !! parent_span_id r = Some ps →
              ps = service_name r
  | Some rep =>
      0 < calls_found rep ∧
      calls_found rep = length (cross_service_calls df) ∧
      call_matrix rep = edge_counts df ∧
      sum_list (call_matrix rep).*2 = calls_found rep ∧
      length (most_common rep) = 10 `min` length (call_matrix rep) ∧
      sum_list (most_common rep).*2 ≤ calls_found rep ∧
      (∀ a b, a ∈ most_common rep → b ∈ call_matrix rep → b ∉ most_common rep →
              b.2 ≤ a.2)
  end.
Proof.
  unfold analyze_cross_service_calls.
  destruct (cross_service_calls df) as [|call calls] eqn:Hcalls.
  - split; [done|]. intros r ps Hr Hp Hps.
    destruct (decide (ps = service_name r)) as [|Hne]; [done|]. exfalso.
    assert (mkCall ps (service_name r) (trace_id r) (parent_span_id r) (span_id r)
              ∈ cross_service_calls df) as Hin.
    { apply elem_of_cross_service_calls. exists r. split_and!; [done..|].
      unfold call_of. rewrite Hps. by rewrite decide_True. }
    rewrite Hcalls in Hin. by apply elem_of_nil in Hin.
  - cbn [calls_found call_matrix most_common]. rewrite <-Hcalls.
    assert (StronglySorted count_ge (pattern_counts df)) as Hs.
    { apply Sorted_StronglySorted; [apply _|]. apply sort_values_sorted. }
    assert (pattern_counts df ≡ₚ edge_counts df) as Hperm
      by apply sort_values_perm.
    assert (sum_list (pattern_counts df).*2 = length (cross_service_calls df))
      as Hsum.
    { rewrite Hperm. apply sum_groupby_size. }
    split_and!.
    + rewrite Hcalls. simpl. lia.
    + done.
    + done.
    + apply sum_groupby_size.
    + unfold reported_patterns. rewrite length_take.
      by rewrite (Permutation_length Hperm).
    + rewrite <-Hsum. unfold reported_patterns.
      rewrite <-(take_drop 10 (pattern_counts df)) at 2.
      rewrite fmap_app, sum_list_with_app. lia.
    + intros a b Ha Hb Hnb. unfold reported_patterns in Ha, Hnb.
      apply elem_of_take in Ha as (i & Hi & Hi10).
      change (groupby_size (cross_service_calls df)) with (edge_counts df) in Hb.
      rewrite <-Hperm in Hb. apply list_elem_of_lookup in Hb as [j Hj].
      destruct (decide (j < 10)) as [Hlt|Hge].
      * exfalso. apply Hnb. apply elem_of_take. eauto.
      * apply (StronglySorted_lookup count_ge _ i j a b Hs); [lia | done..].
Qed.

(** ** Orphans and the depth analysis *)

Lemma unique_span_id_row df r r' :
  NoDup (span_id <$> df) → r ∈ df → r' ∈ df → span_id r = span_id r' → r = r'.
Proof.
  induction df as [|x df IH]; [by intros _ ?%elem_of_nil|].
  rewrite fmap_cons. intros [Hx Hnd]%NoDup_cons Hr Hr' Heq.
  apply elem_of_cons in Hr as [->|Hr]; apply elem_of_cons in Hr' as [->|Hr'].
  - done.
  - exfalso. apply Hx. rewrite Heq. apply list_elem_of_fmap. by exists r'.
  - exfalso. apply Hx. rewrite <-Heq. apply list_elem_of_fmap. by exists r.
  - by apply IH.
Qed.

(** With unique span_ids, a span at or below an orphan is the child of no
    span outside the orphan's subtree that is some row's span_id. *)
Lemma below_orphan_parent df o y x :
  NoDup (span_id <$> df) → o ∈ orphaned_spans df →
  (∃ q, q ∈ df ∧ span_id q = y) →
  child_of df y x → rtc (child_of df) (span_id o) x →
  rtc (child_of df) (span_id o) y.
Proof.
  intros Hnd Ho Hy (r & Hr & Hrx & Hry & _) Hx.
  rewrite orphaned_spans_spec in Ho.
  apply list_elem_of_filter in Ho as [Hpo [_ Ho]%list_elem_of_filter].
  apply rtc_inv_r in Hx as [<-|(q & Hq & (r' & Hr' & Hrx' & Hrq & _))].
  - assert (r = o) as -> by by apply (unique_span_id_row df).
    exfalso. apply Hpo. rewrite Hry. by apply elem_of_all_span_ids.
  - assert (r = r') as -> by (apply (unique_span_id_row df); congruence).
    congruence.
Qed.

Lemma chain_avoids_orphan df o y p :
  NoDup (span_id <$> df) → o ∈ orphaned_spans df →
  (∃ q, q ∈ df ∧ span_id q = y) →
  ¬ rtc (child_of df) (span_id o) y →
  chain df (y :: p) →
  Forall (λ x, ¬ rtc (child_of df) (span_id o) x) (y :: p).
Proof.
  intros Hnd Ho. revert y. induction p as [|c p IH]; intros y Hy Hny Hchain.
  - by constructor.
  - constructor; [done|]. inversion Hchain as [|? ? ? Hyc Hrest]; subst.
    apply IH; [| |done].
    + destruct Hyc as (r & Hr & Hrc & _). by exists r.
    + intros Hc. apply Hny. by eapply below_orphan_parent.
Qed.

(** No span on a chain from a root row is at or below an orphan. *)
Lemma root_chain_avoids_orphan df o root p :
  NoDup (span_id <$> df) → o ∈ orphaned_spans df → root ∈ root_spans df →
  chain df (span_id root :: p) →
  Forall (λ x, ¬ rtc (child_of df) (span_id o) x) (span_id root :: p).
Proof.
  intros Hnd Ho [Hroot Hr]%list_elem_of_filter Hchain.
  apply chain_avoids_orphan; [done | done | by exists root | | done].
  intros [Heq|(q & _ & (r & Hr' & Hid & Hpar & Hne))]%rtc_inv_r.
  - assert (o = root) as ->.
    { apply (unique_span_id_row df); [done | | done..].
      rewrite orphaned_spans_spec in Ho.
      by apply list_elem_of_filter in Ho as [_ [_ Ho]%list_elem_of_filter]. }
    rewrite orphaned_spans_spec in Ho.
    by apply list_elem_of_filter in Ho as [_ [Ho _]%list_elem_of_filter].
  - assert (r = root) as -> by by apply (unique_span_id_row df).
    congruence.
Qed.

Lemma chain_filter (P : SpanRecord → Prop) `{∀ r, Decision (P r)} df l :
  chain (filter P df) l → chain df l.
Proof.
  induction 1 as [s|p c rest (r & [_ Hr]%list_elem_of_filter & Hrest) _ IH].
  - apply chain_one.
  - apply chain_cons; [by exists r | done].
Qed.

(** A chain survives the removal of rows that carry none of its spans. *)
Lemma chain_kept (P : SpanRecord → Prop) `{∀ r, Decision (P r)} df l :
  chain df l → (∀ r, r ∈ df → span_id r ∈ l → P r) → chain (filter P df) l.
Proof.
  induction 1 as [s|p c rest (r & Hr & Hc & Hrest) _ IH]; intros HP.
  - apply chain_one.
  - apply chain_cons.
    + exists r. split; [|done]. apply list_elem_of_filter. split; [|done].
      apply HP; [done|]. rewrite Hc. right. left.
    + apply IH. intros r' Hr' Hin. apply HP; [done | by right].
Qed.

Lemma filter_ext_in {A} (P1 P2 : A → Prop) `{∀ x, Decision (P1 x)}
    `{∀ x, Decision (P2 x)} (l : list A) :
  (∀ x, x ∈ l → (P1 x ↔ P2 x)) → filter P1 l = filter P2 l.
Proof.
  induction l as [|x l IH]; intros Hl; [done|].
  rewrite !filter_cons.
  destruct (decide (P1 x)) as [H1|H1], (decide (P2 x)) as [H2|H2].
  - f_equal. apply IH. intros y Hy. apply Hl. by right.
  - exfalso. apply H2, Hl; [left | done].
  - exfalso. apply H1, Hl; [left | done].
  - apply IH. intros y Hy. apply Hl. by right.
Qed.

Lemma foldl_ext_in {A B} (f g : B → A → B) (b : B) (l : list A) :
  (∀ acc x, x ∈ l → f acc x = g acc x) → foldl f b l = foldl g b l.
Proof.
  revert b. induction l as [|x l IH]; intros b Hfg; [done|]. simpl.
  rewrite Hfg by left. apply IH. intros acc y Hy. apply Hfg. by right.
Qed.

(** Rows at or below an orphan can be removed without a change to the depth
    or the breadth of any root, when span_ids are unique. *)
Lemma orphan_subtree_removal df o (P : SpanRecord → Prop) `{∀ r, Decision (P r)} :
  NoDup (span_id <$> df) → o ∈ orphaned_spans df →
  (∀ r, r ∈ df → ¬ P r → rtc (child_of df) (span_id o) (span_id r)) →
  root_spans (filter P df) = root_spans df ∧
  ∀ root, root ∈ root_spans df →
    depth_of (filter P df) (span_id root) = depth_of df (span_id root) ∧
    breadth_of (filter P df) (span_id root) = breadth_of df (span_id root).
Proof.
  intros Hnd Ho Hremoved.
  assert (∀ root p r, root ∈ root_spans df → chain df (span_id root :: p) →
                      r ∈ df → span_id r ∈ span_id root :: p → P r) as Hkept.
  { intros root p r Hroot Hchain Hr Hin.
    destruct (decide (P r)) as [|Hn]; [done|]. exfalso.
    pose proof (root_chain_avoids_orphan df o root p Hnd Ho Hroot Hchain) as Hall.
    rewrite Forall_forall in Hall. apply (Hall _ Hin). by apply Hremoved. }
  split.
  - unfold root_spans. rewrite list_filter_filter.
    apply filter_ext_in. intros r Hr. split; [by intros [? _]|].
    intros Hp. split; [done|].
    apply (Hkept r [] r); [by apply list_elem_of_filter | apply chain_one | done |].
    left.
  - intros root Hroot. split.
    + apply Nat.le_antisymm.
      * destruct (depth_of_chain_exists (filter P df) (span_id root))
          as (p & Hchain & Hnd' & <-).
        apply depth_of_chain_bound; [by eapply chain_filter | done].
      * destruct (depth_of_chain_exists df (span_id root))
          as (p & Hchain & Hnd' & <-).
        apply depth_of_chain_bound; [|done].
        apply chain_kept; [done|]. intros r. by apply (Hkept root p).
    + unfold breadth_of. rewrite !children_spec.
      case_decide as Hs; [done|]. rewrite !length_fmap. f_equal.
      rewrite list_filter_filter. apply filter_ext_in.
      intros r Hr. split; [by intros [? _]|]. intros Hp. split; [done|].
      apply (Hkept root [span_id r] r); [done | | done | right; left].
      apply chain_cons; [|apply chain_one]. exists r. by rewrite Hp.
Qed.

(** X13.  When span_ids are unique, neither an orphan nor any span below it
    lies on a parent chain that starts at a root row, and the rows of an
    orphan's subtree add to the depth of no trace: with any of them removed
    from the frame, [calculate_depth] returns the same depth for every root
    row and [analyze_trace_depth] gives the same report. *)
Theorem orphan_subtree_is_not_measured df o :
  NoDup (span_id <$> df) →
  o ∈ orphaned_spans df →
  (∀ root p x, root ∈ root_spans df → chain df (span_id root :: p) →
               rtc (child_of df) (span_id o) x → x ∉ span_id root :: p) ∧
  ∀ (P : SpanRecord → Prop) (HP : ∀ r, Decision (P r)),
    (∀ r, r ∈ df → ¬ P r → rtc (child_of df) (span_id o) (span_id r)) →
    (∀ root, root ∈ root_spans df →
       calculate_depth (filter P df) (span_id root) =
         calculate_depth df (span_id root) ∧
       depth_of (filter P df) (span_id root) = depth_of df (span_id root)) ∧
    analyze_trace_depth (filter P df) = analyze_trace_depth df.
Proof.
  intros Hnd Ho. split.
  - intros root p x Hroot Hchain Hx Hin.
    pose proof (root_chain_avoids_orphan df o root p Hnd Ho Hroot Hchain) as Hall.
    rewrite Forall_forall in Hall. by apply (Hall x).
  - intros P HP Hremoved.
    destruct (orphan_subtree_removal df o P Hnd Ho Hremoved) as [Hroots Hsame].
    split.
    + intros root Hroot. destruct (Hsame root Hroot) as [Hd _].
      by rewrite !calculate_depth_Ok, Hd.
    + assert (trace_metrics (filter P df) = trace_metrics df) as Hmetrics.
      { unfold trace_metrics. rewrite Hroots. apply foldl_ext_in.
        intros acc root Hroot. destruct (Hsame root Hroot) as [Hd Hb].
        unfold root_step. by rewrite !calculate_depth_Ok, Hd, Hb. }
      unfold analyze_trace_depth. by rewrite Hmetrics.
Qed.

(** X13 on the sample frame: the orphan D is not on the chain A, B, C, and
    the depth report is the same without its row. *)
Lemma sample_frame_orphan_off_chain :
  ("D" ∉ ["A"; "B"; "C"]) ∧
  analyze_trace_depth (filter (λ r, span_id r ≠ "D") sample_frame) =
    analyze_trace_depth sample_frame.
Proof.
  destruct (orphan_subtree_is_not_measured sample_frame span_D) as [Hchain Hrem].
  - apply (bool_decide_unpack _). by vm_compute.
  - apply (bool_decide_unpack _). by vm_compute.
  - split.
    + apply (Hchain span_A ["B"; "C"] "D").
      * apply (bool_decide_unpack _). by vm_compute.
      * apply chain_cons; [|apply chain_cons; [|apply chain_one]].
        -- exists span_B. split_and!; [|done..].
           apply (bool_decide_unpack _). by vm_compute.
        -- exists span_C. split_and!; [|done..].
           apply (bool_decide_unpack _). by vm_compute.
      * apply rtc_refl.
    + apply (Hrem (λ r, span_id r ≠ "D") _). intros r _ Hn.
      apply dec_stable in Hn. rewrite Hn. apply rtc_refl.
Defined.

(** * The visualisation of example traces *)

(** ** The span map of a trace *)

Lemma span_map_snoc rows r :
  span_map (rows ++ [r]) =
    dict_set (span_id (span_columns r)) (entry_of r) (span_map rows).
Proof. unfold span_map. by rewrite foldl_snoc. Qed.

Lemma span_map_keys rows :
  (span_map rows).*1 = first_seen (span_id ∘ span_columns <$> rows).
Proof.
  induction rows as [|r rows IH] using rev_ind; [done|].
  rewrite span_map_snoc, dict_set_keys, fmap_app, fmap_cons, fmap_nil,
    first_seen_snoc, IH. done.
Qed.

Lemma span_map_NoDup rows : NoDup (span_map rows).*1.
Proof. rewrite span_map_keys. apply NoDup_first_seen. Qed.

(** The entry of a span_id is taken from the last row that carries it. *)
Lemma span_map_lookup rows k :
  dict_get k (span_map rows) =
    entry_of <$> last (filter (λ r, span_id (span_columns r) = k) rows).
Proof.
  induction rows as [|r rows IH] using rev_ind; [done|].
  rewrite span_map_snoc, dict_get_set, filter_app, filter_cons, filter_nil.
  destruct (decide (k = span_id (span_columns r))) as [->|Hne].
  - rewrite decide_True by done. by rewrite last_snoc.
  - rewrite decide_False by done. by rewrite app_nil_r.
Qed.

Lemma span_map_lookup_row rows k e :
  dict_get k (span_map rows) = Some e →
  ∃ r, r ∈ rows ∧ span_id (span_columns r) = k ∧ e = entry_of r.
Proof.
  rewrite span_map_lookup. intros He.
  destruct (last (filter _ rows)) as [r|] eqn:Hlast; [|done].
  injection He as <-. apply last_Some_elem_of, list_elem_of_filter in Hlast as [? ?].
  by exists r.
Qed.

Lemma span_map_lookup_unique rows r :
  NoDup (span_id ∘ span_columns <$> rows) → r ∈ rows →
  dict_get (span_id (span_columns r)) (span_map rows) = Some (entry_of r).
Proof.
  intros Hnd Hr.
  destruct (dict_get (span_id (span_columns r)) (span_map rows)) as [e|] eqn:He.
  - apply span_map_lookup_row in He as (r' & Hr' & Hid & ->). do 2 f_equal.
    clear -Hnd Hr Hr' Hid. induction rows as [|x rows IH]; [by apply elem_of_nil in Hr|].
    rewrite fmap_cons in Hnd. apply NoDup_cons in Hnd as [Hx Hnd].
    apply elem_of_cons in Hr as [->|Hr]; apply elem_of_cons in Hr' as [->|Hr'].
    + done.
    + exfalso. apply Hx. simpl. rewrite <-Hid. apply list_elem_of_fmap. by exists r'.
    + exfalso. apply Hx. simpl. rewrite Hid. apply list_elem_of_fmap. by exists r.
    + by apply IH.
  - exfalso. apply dict_get_None in He. apply He. rewrite span_map_keys.
    apply elem_of_first_seen, list_elem_of_fmap. by exists r.
Qed.

Lemma dict_get_elem_of {K V} `{EqDecision K} (k : K) (v : V) (d : list (K * V)) :
  dict_get k d = Some v → (k, v) ∈ d.
Proof.
  induction d as [|[k0 v0] d IH]; simpl; [done|].
  case_decide as Hk; [intros [= ->]; subst; left | intros ?%IH; by right].
Qed.

(** ** The traversal *)

Lemma print_span_tree_S limit sm span_id depth is_last prefix :
  print_span_tree (S limit) sm span_id depth is_last prefix =
    match dict_get span_id sm with
    | None => Some []
    | Some span =>
        below ← mapM (λ ic : nat * string,
                        print_span_tree limit sm ic.2 (depth + 1)
                          (bool_decide (ic.1 = length (children_of sm span_id) - 1))
                          (prefix +:+ (if is_last || bool_decide (depth = 0)
                                       then "   " else "│  ")))
                     (imap pair (children_of sm span_id));
        Some (mkLine prefix (connector depth is_last) span :: concat below)
    end.
Proof. reflexivity. Qed.

#[local] Arguments print_span_tree : simpl never.

Lemma imap_pair_snd {A} (l : list A) : (imap pair l).*2 = l.
Proof.
  rewrite fmap_imap. rewrite <-(list_fmap_id l) at 2.
  rewrite <-imap_const. by apply imap_ext.
Qed.

Lemma mapM_option_Forall2 {A B} (f : A → option B) (l : list A) (P : A → B → Prop) :
  (∀ a, a ∈ l → ∃ b, f a = Some b ∧ P a b) →
  ∃ bs, mapM f l = Some bs ∧ Forall2 P l bs.
Proof.
  induction l as [|a l IH]; intros Hl.
  - exists []. split; [done | constructor].
  - destruct (Hl a) as (b & Hb & HP); [left|].
    destruct IH as (bs & Hbs & HPs); [intros a' Ha'; apply Hl; by right|].
    exists (b :: bs). split; [|by constructor].
    apply mapM_Some. constructor; [done|]. by apply mapM_Some.
Qed.

Lemma tc_inv_l {A} (R : relation A) x z :
  tc R x z → ∃ y, R x y ∧ rtc R y z.
Proof.
  destruct 1 as [x z Hxz | x y z Hxy Hyz].
  - exists z. split; [done | apply rtc_refl].
  - exists y. split; [done | by apply tc_rtc].
Qed.

Lemma tc_inv_r {A} (R : relation A) x z :
  tc R x z → ∃ y, rtc R x y ∧ R y z.
Proof.
  induction 1 as [x z Hxz | x y z Hxy _ (w & Hyw & Hwz)].
  - exists x. split; [apply rtc_refl | done].
  - exists w. split; [by eapply rtc_l | done].
Qed.

Section traversal.
Variable sm : list (string * SpanEntry).
Hypothesis sm_NoDup : NoDup sm.*1.
Hypothesis sm_keyed : ∀ k e, (k, e) ∈ sm → entry_span_id e = k.

Local Abbreviation R := (map_child sm).
Local Abbreviation ids :=
  (λ lines : list TreeLine, entry_span_id ∘ line_span <$> lines).

Lemma map_child_functional p p' c : R p c → R p' c → p = p'.
Proof. intros (e & He & <-) (e' & He' & <-). congruence. Qed.

Lemma map_child_key p c : R p c → is_Some (dict_get c sm).
Proof. intros (e & He & _). by eexists. Qed.

Lemma elem_of_children_of p c : c ∈ children_of sm p ↔ R p c.
Proof.
  unfold children_of, map_child. rewrite list_elem_of_fmap. split.
  - intros ([k e] & -> & [Hp Hin]%list_elem_of_filter). exists e.
    split; [|done]. by apply dict_get_NoDup.
  - intros (e & He & Hp). exists (c, e). split; [done|].
    apply list_elem_of_filter. split; [done|]. by apply dict_get_elem_of.
Qed.

Lemma children_of_NoDup p : NoDup (children_of sm p).
Proof.
  unfold children_of. eapply sublist_NoDup; [exact sm_NoDup|].
  apply fmap_sublist, sublist_filter.
Qed.

(** A cycle that the traversal can reach uses up every limit. *)
Lemma print_span_tree_cycle limit y depth is_last prefix :
  is_Some (dict_get y sm) →
  (∃ x, rtc R y x ∧ tc R x x) →
  print_span_tree limit sm y depth is_last prefix = None.
Proof.
  revert y depth is_last prefix.
  induction limit as [|limit IH]; intros y depth is_last prefix [e He] (x & Hyx & Hxx);
    [done|].
  rewrite print_span_tree_S, He.
  assert (∃ c, R y c ∧ rtc R c x) as (c & Hyc & Hcx).
  { apply rtc_inv in Hyx as [->|(c & Hyc & Hcx)]; [by apply tc_inv_l | eauto]. }
  assert (c ∈ children_of sm y) as Hc by by apply elem_of_children_of.
  apply list_elem_of_lookup in Hc as [i Hi].
  match goal with
  | |- mbind _ (mapM ?f ?l) = None => assert (mapM f l = None) as ->; [|done]
  end.
  apply mapM_None, Exists_exists. exists (i, c). split.
  - by apply (elem_of_lookup_imap_2 pair _ c i).
  - apply IH; [by eapply map_child_key | eauto].
Qed.

(** The lines of a list of trees, when the trees are those of distinct
    spans whose descendants do not overlap. *)
Lemma concat_trees_spec {A} (key : A → string) (Q : string → string → Prop)
    (items : list A) (below : list (list TreeLine)) :
  Forall2 (λ a lines, NoDup (ids lines) ∧ ∀ y, y ∈ ids lines ↔ Q (key a) y)
    items below →
  NoDup (key <$> items) →
  (∀ c1 c2 y, c1 ∈ key <$> items → c2 ∈ key <$> items → Q c1 y → Q c2 y → c1 = c2) →
  NoDup (ids (concat below)) ∧
  ∀ y, y ∈ ids (concat below) ↔ ∃ c, c ∈ key <$> items ∧ Q c y.
Proof.
  induction 1 as [|a lines items below [Hnd Hmem] _ IH]; intros Hnd2 Hdisj.
  - split; [constructor|]. intros y. split; [by intros ?%elem_of_nil|].
    by intros (c & ?%elem_of_nil & _).
  - rewrite fmap_cons in Hnd2, Hdisj. apply NoDup_cons in Hnd2 as [Ha Hnd2].
    destruct IH as [IHnd IHmem]; [done | |].
    { intros c1 c2 y H1 H2. apply Hdisj; by right. }
    cbn [concat]. rewrite fmap_app. split.
    + apply NoDup_app. split_and!; [done | | done].
      intros y Hy%Hmem (c & Hc & Hcy)%IHmem.
      apply Ha. rewrite (Hdisj (key a) c y); [done | left | by right | done..].
    + intros y. rewrite elem_of_app, Hmem, IHmem, fmap_cons. split.
      * intros [Hy|(c & Hc & Hy)]; [exists (key a); split; [left|done]|].
        exists c. split; [by right | done].
      * intros (c & [->|Hc]%elem_of_cons & Hy); [by left|]. right. eauto.
Qed.

(** Two spans above the same span lie on one chain. *)
Lemma map_child_chain a b y : rtc R a y → rtc R b y → rtc R a b ∨ rtc R b a.
Proof.
  intros Ha. revert b. revert y Ha.
  apply (rtc_ind_r (λ y, ∀ b, rtc R b y → rtc R a b ∨ rtc R b a)).
  - intros b Hb. by right.
  - intros w y Haw Hwy IH b Hb. apply rtc_inv_r in Hb as [->|(w' & Hbw' & Hw'y)].
    + left. by eapply rtc_r.
    + rewrite (map_child_functional w' w y) in Hbw' by done. by apply IH.
Qed.

Lemma children_disjoint x c1 c2 y :
  (∀ z, rtc R x z → ¬ tc R z z) →
  R x c1 → R x c2 → rtc R c1 y → rtc R c2 y → c1 = c2.
Proof.
  intros Hacyc.
  assert (∀ a b, R x a → R x b → rtc R a b → a = b) as Hone.
  { intros a b Ha Hb Hab. apply rtc_tc in Hab as [|Hab]; [done|]. exfalso.
    apply tc_inv_r in Hab as (w & Haw & Hwb).
    rewrite (map_child_functional w x b) in Haw by done.
    apply (Hacyc x); [apply rtc_refl|].
    apply (tc_rtc_r x a x); [by apply tc_once | done]. }
  intros H1 H2 Hy1 Hy2.
  destruct (map_child_chain c1 c2 y Hy1 Hy2) as [H|H];
    [by apply Hone | symmetry; by apply Hone].
Qed.

(** Below a span that reaches no cycle, the traversal returns within a
    limit of the number of spans, printing each span below it once. *)
Lemma print_span_tree_total limit x depth is_last prefix (V : gset string) :
  is_Some (dict_get x sm) →
  x ∉ V → V ⊆ list_to_set sm.*1 →
  (∀ v, v ∈ V → tc R v x) →
  (∀ y, rtc R x y → ¬ tc R y y) →
  size (list_to_set sm.*1 ∖ V : gset string) ≤ limit →
  ∃ lines,
    print_span_tree limit sm x depth is_last prefix = Some lines ∧
    NoDup (ids lines) ∧ ∀ y, y ∈ ids lines ↔ rtc R x y.
Proof.
  revert x depth is_last prefix V.
  induction limit as [|limit IH];
    intros x depth is_last prefix V [e He] HxV HV Hanc Hacyc Hsize.
  { exfalso. assert (x ∈ (list_to_set sm.*1 ∖ V : gset string)) as Hx.
    { apply elem_of_difference. split; [|done]. apply elem_of_list_to_set.
      apply dict_get_elem_of in He. apply list_elem_of_fmap. by exists (x, e). }
    assert (size (list_to_set sm.*1 ∖ V : gset string) = 0) as Hz by lia.
    apply size_empty_inv in Hz. set_solver. }
  assert (x ∈ (list_to_set sm.*1 : gset string)) as HxK.
  { apply elem_of_list_to_set. apply dict_get_elem_of in He.
    apply list_elem_of_fmap. by exists (x, e). }
  rewrite print_span_tree_S, He.
  destruct (mapM_option_Forall2
              (λ ic : nat * string,
                 print_span_tree limit sm ic.2 (depth + 1)
                   (bool_decide (ic.1 = length (children_of sm x) - 1))
                   (prefix +:+ (if is_last || bool_decide (depth = 0)
                                then "   " else "│  ")))
              (imap pair (children_of sm x))
              (λ ic lines, NoDup (ids lines) ∧ ∀ y, y ∈ ids lines ↔ rtc R ic.2 y))
    as (below & -> & Hbelow).
  { intros [i c0] (j & c & [= -> ->] & Hc)%elem_of_lookup_imap. simpl.
    apply list_elem_of_lookup_2, elem_of_children_of in Hc.
    apply (IH c _ _ _ ({[x]} ∪ V)).
    - by eapply map_child_key.
    - intros [->%elem_of_singleton|Hv]%elem_of_union.
      + apply (Hacyc x); [apply rtc_refl | by apply tc_once].
      + apply (Hacyc c); [by apply rtc_once|].
        eapply tc_r; [by apply Hanc | done].
    - apply union_subseteq. split; [|done]. by apply singleton_subseteq_l.
    - intros v [->%elem_of_singleton|Hv]%elem_of_union; [by apply tc_once|].
      eapply tc_r; [by apply Hanc | done].
    - intros y Hy. apply Hacyc. by eapply rtc_l.
    - assert (size (list_to_set sm.*1 ∖ ({[x]} ∪ V) : gset string) <
              size (list_to_set sm.*1 ∖ V : gset string)); [|lia].
      apply subset_size. split; [set_solver|].
      intros Hsub. assert (x ∈ (list_to_set sm.*1 ∖ V : gset string)) as Hx
        by set_solver.
      apply Hsub in Hx. set_solver. }
  cbn [mbind option_bind]. eexists. split; [done|].
  destruct (concat_trees_spec snd (rtc R) _ _ Hbelow) as [Hnd Hmem].
  { rewrite imap_pair_snd. apply children_of_NoDup. }
  { intros c1 c2 y. rewrite imap_pair_snd, !elem_of_children_of.
    intros H1 H2. by apply (children_disjoint x). }
  assert (entry_span_id e = x) as Hex by (by apply sm_keyed, dict_get_elem_of).
  split.
  - rewrite fmap_cons. simpl. rewrite Hex. constructor; [|done].
    intros (c & Hc & Hcx)%Hmem. rewrite imap_pair_snd in Hc.
    apply elem_of_children_of in Hc.
    apply (Hacyc x); [apply rtc_refl|].
    apply (tc_rtc_r x c x); [by apply tc_once | done].
  - intros y. rewrite fmap_cons, elem_of_cons, Hmem, imap_pair_snd. simpl.
    rewrite Hex. split.
    + intros [->|(c & Hc%elem_of_children_of & Hcy)]; [apply rtc_refl|].
      by eapply rtc_l.
    + intros [->|(c & Hc & Hcy)]%rtc_inv; [by left|]. right. exists c.
      split; [by apply elem_of_children_of | done].
Qed.

Lemma cycle_below_is_cycle_above x y : rtc R x y → tc R y y → tc R x x.
Proof.
  induction 1 as [|x z y Hxz Hzy IH]; [done|]. intros Hyy.
  apply IH, tc_inv_r in Hyy as (w & Hzw & Hwz).
  rewrite (map_child_functional w x z) in Hzw by done.
  apply (tc_rtc_r x z x); [by apply tc_once | done].
Qed.

(** A span whose entry has no parent, in a map without the empty key,
    reaches no cycle. *)
Lemma root_reaches_no_cycle root e :
  dict_get root sm = Some e → entry_parent_span_id e = "" →
  dict_get "" sm = None →
  ∀ y, rtc R root y → ¬ tc R y y.
Proof.
  intros He Hp Hempty y Hy Hyy.
  apply (cycle_below_is_cycle_above root y Hy), tc_inv_r in Hyy as (w & Hrw & Hwr).
  rewrite (map_child_functional w "" root) in Hrw; [|done|by exists e].
  apply rtc_inv_r in Hrw as [->|(v & _ & (e' & He' & _))]; congruence.
Qed.

End traversal.

(** Every line that the traversal prints renders an entry of the map, and
    a traversal that starts at a key prints its entry first. *)
Lemma print_span_tree_lines sm limit x depth is_last prefix lines :
  print_span_tree limit sm x depth is_last prefix = Some lines →
  Forall (λ line, ∃ k, dict_get k sm = Some (line_span line)) lines ∧
  ∀ e, dict_get x sm = Some e →
       ∃ rest, lines = mkLine prefix (connector depth is_last) e :: rest.
Proof.
  revert x depth is_last prefix lines.
  induction limit as [|limit IH]; intros x depth is_last prefix lines; [done|].
  rewrite print_span_tree_S.
  destruct (dict_get x sm) as [e|] eqn:He; [|intros [= <-]; by split].
  destruct (mapM _ _) as [below|] eqn:Hbelow; [|done].
  cbn [mbind option_bind]. intros [= <-]. split.
  - constructor; [by exists x|]. apply mapM_Some in Hbelow.
    apply Forall_concat. clear -IH Hbelow.
    induction Hbelow as [|ic ls ics below Hic _ IH']; constructor; [|done].
    by apply IH in Hic as [? _].
  - intros e' [= <-]. by eexists.
Qed.

Section trace_view.
Variables (df : list VizRow) (tid : string).

Local Abbreviation rows := (trace_rows df tid).
Local Abbreviation sm := (span_map (trace_rows df tid)).
Local Abbreviation row_id := (λ r : VizRow, span_id (span_columns r)).

Lemma visualize_trace_unfold limit :
  visualize_trace limit df tid =
    if decide (length (filter (λ r, parent_span_id (span_columns r) = "") rows) = 0)
    then Some NoRootSpan
    else
      trees ← mapM (λ root, print_span_tree limit sm (row_id root) 0 false "")
                   (filter (λ r, parent_span_id (span_columns r) = "") rows);
      Some (SpanTrees (concat trees) (length rows)).
Proof. reflexivity. Qed.

Lemma span_map_keyed k e : (k, e) ∈ sm → entry_span_id e = k.
Proof.
  intros Hin. apply dict_get_NoDup in Hin; [|apply span_map_NoDup].
  by apply span_map_lookup_row in Hin as (r & _ & <- & ->).
Qed.

Lemma span_map_key_of_row r : r ∈ rows → is_Some (dict_get (row_id r) sm).
Proof.
  intros Hr. apply dict_get_is_Some. rewrite span_map_keys.
  apply elem_of_first_seen, list_elem_of_fmap. by exists r.
Qed.

Lemma span_map_no_empty_key :
  "" ∉ row_id <$> rows → dict_get "" sm = None.
Proof.
  intros Hno. apply dict_get_None. by rewrite span_map_keys, elem_of_first_seen.
Qed.

(** With unique span_ids the relation that the traversal follows is the
    parent relation of the rows of the trace. *)
Lemma map_child_rows p c :
  NoDup (row_id <$> rows) →
  map_child sm p c ↔
  ∃ r, r ∈ rows ∧ row_id r = c ∧ parent_span_id (span_columns r) = p.
Proof.
  intros Hnd. split.
  - intros (e & (r & Hr & Hid & ->)%span_map_lookup_row & Hp). by exists r.
  - intros (r & Hr & <- & <-). exists (entry_of r).
    split; [by apply span_map_lookup_unique | done].
Qed.

End trace_view.

(** X14.  The tree printing has no guard against cycles.  When a span that
    is reachable from a root row of a trace, through the entries of the
    trace's span map, is its own descendant, [print_span_tree] nests calls
    without end: whatever the interpreter's recursion limit, the
    visualisation of that trace stops with RecursionError, and so does the
    whole visualisation as soon as the trace is among the examples of an
    anomaly type. *)
Theorem reachable_cycle_exhausts_recursion df tid root x :
  root ∈ trace_rows df tid →
  parent_span_id (span_columns root) = "" →
  rtc (map_child (span_map (trace_rows df tid))) (span_id (span_columns root)) x →
  tc (map_child (span_map (trace_rows df tid))) x x →
  ∀ limit,
    visualize_trace limit df tid = None ∧
    ∀ num_examples type sampled,
      type ∈ sorted_anomaly_types df →
      example_traces df type = Some sampled →
      tid ∈ sampled →
      visualize_example_traces num_examples limit df = None.
Proof.
  intros Hroot Hparent Hreach Hcycle limit.
  assert (visualize_trace limit df tid = None) as Hnone.
  { rewrite visualize_trace_unfold.
    assert (root ∈ filter (λ r, parent_span_id (span_columns r) = "")
                      (trace_rows df tid)) as Hin
      by by apply list_elem_of_filter.
    rewrite decide_False.
    2: { intros Hlen. apply length_zero_iff_nil in Hlen. rewrite Hlen in Hin.
         by apply elem_of_nil in Hin. }
    match goal with
    | |- mbind _ (mapM ?f ?l) = None => assert (mapM f l = None) as ->; [|done]
    end.
    apply mapM_None, Exists_exists. exists root. split; [done|].
    apply print_span_tree_cycle.
    - apply span_map_NoDup.
    - by apply span_map_key_of_row.
    - eauto. }
  split; [done|]. intros num_examples type sampled Htype Hex Htid.
  unfold visualize_example_traces. apply mapM_None, Exists_exists.
  exists type. split; [done|]. rewrite Hex.
  match goal with
  | |- mbind _ (mapM ?f ?l) = None => assert (mapM f l = None) as ->; [|done]
  end.
  apply mapM_None, Exists_exists. exists tid. split; [done|]. by rewrite Hnone.
Qed.

(** X14 on a trace whose root span_id comes back on a child row. *)
Lemma viz_cyclic_exhausts_recursion :
  visualize_trace 1000 viz_cyclic "T7" = None ∧
  visualize_example_traces 10 1000 viz_cyclic = None.
Proof.
  pose proof (reachable_cycle_exhausts_recursion viz_cyclic "T7"
                (with_columns "normal" (mkSpan "T7" "r" "" "web" "GET /" 2)) "r")
    as Hthm.
  destruct (Hthm ltac:(vm_compute; left) ltac:(reflexivity) ltac:(apply rtc_refl)
              ltac:(apply (tc_l _ "r" "a" "r");
                    [eexists; split; [by vm_compute | done]
                    |apply tc_once; eexists; split; [by vm_compute | done]])
              1000) as [Htrace Hall].
  split; [exact Htrace|].
  apply (Hall 10 "normal" ["T7"]).
  - vm_compute. left.
  - by vm_compute.
  - left.
Defined.

(** X15.  Whatever the frame, a tree view stays inside its trace: the total
    shown is the number of rows of the trace; the view has a first line,
    printed for the first root row with the top connector and no prefix;
    and every line renders a row of that trace, namely the last row in the
    trace that carries its span_id.  A row of another trace is never shown,
    also when it names a span of this trace as its parent. *)
Theorem tree_view_stays_in_trace limit df tid lines total :
  visualize_trace limit df tid = Some (SpanTrees lines total) →
  total = length (trace_rows df tid) ∧
  (∃ root e rest,
     head (filter (λ r, parent_span_id (span_columns r) = "") (trace_rows df tid)) =
       Some root ∧
     dict_get (span_id (span_columns root)) (span_map (trace_rows df tid)) = Some e ∧
     lines = mkLine "" "┌─" e :: rest) ∧
  ∀ line, line ∈ lines →
    ∃ r, r ∈ df ∧ trace_id (span_columns r) = tid ∧ line_span line = entry_of r ∧
         last (filter (λ r', span_id (span_columns r') = span_id (span_columns r))
                 (trace_rows df tid)) = Some r.
Proof.
  rewrite visualize_trace_unfold. case_decide as Hlen; [done|].
  destruct (mapM _ _) as [trees|] eqn:Htrees; [|done].
  cbn [mbind option_bind]. intros [= <- <-]. apply mapM_Some in Htrees.
  split; [done|]. split.
  - destruct (filter _ (trace_rows df tid)) as [|root roots] eqn:Hroots; [done|].
    exists root. inversion Htrees as [|? tree ? trees' Htree _]; subst.
    assert (root ∈ trace_rows df tid) as Hroot.
    { assert (root ∈ root :: roots) as Hin by left.
      rewrite <-Hroots in Hin. by apply list_elem_of_filter in Hin as [_ ?]. }
    destruct (span_map_key_of_row df tid root Hroot) as [e He].
    apply print_span_tree_lines in Htree as [_ Hfirst].
    destruct (Hfirst e He) as [rest ->]. by exists e, (rest ++ concat trees').
  - intros line Hline.
    assert (Forall (λ line, ∃ k, dict_get k (span_map (trace_rows df tid)) =
                                   Some (line_span line)) (concat trees)) as Hall.
    { apply Forall_concat. clear -Htrees.
      induction Htrees as [|root tree roots trees Htree _ IH]; constructor; [|done].
      by apply print_span_tree_lines in Htree as [? _]. }
    rewrite Forall_forall in Hall. destruct (Hall line Hline) as [k Hk].
    rewrite span_map_lookup in Hk.
    destruct (last (filter _ (trace_rows df tid))) as [r|] eqn:Hlast; [|done].
    injection Hk as Hk. pose proof Hlast as Hin.
    apply last_Some_elem_of, list_elem_of_filter in Hin as [Hid Hr].
    apply list_elem_of_filter in Hr as [Htid Hr].
    exists r. split_and!; [done..|]. by rewrite Hid.
Qed.

(** X15 on the sample frame: the view of trace T1 counts its three rows. *)
Lemma viz_sample_T1_view :
  ∃ lines total,
    visualize_trace 20 viz_sample "T1" = Some (SpanTrees lines total) ∧
    total = length (trace_rows viz_sample "T1").
Proof.
  destruct (visualize_trace 20 viz_sample "T1") as [[|lines total]|] eqn:Hview;
    [by vm_compute in Hview | | by vm_compute in Hview].
  exists lines, total. split; [done|].
  exact (proj1 (tree_view_stays_in_trace 20 viz_sample "T1" lines total Hview)).
Defined.

Lemma size_span_map_keys rows :
  size (list_to_set (span_map rows).*1 ∖ ∅ : gset string) ≤ length rows.
Proof.
  rewrite difference_empty_L, size_list_to_set by apply span_map_NoDup.
  rewrite span_map_keys. clear.
  induction rows as [|r rows IH] using rev_ind; [done|].
  rewrite fmap_app, fmap_cons, fmap_nil, first_seen_snoc, length_app. simpl.
  case_decide; [lia|]. rewrite length_app. simpl. lia.
Qed.

(** X16.  When the rows of a trace have pairwise distinct, non-empty
    span_ids, the visualisation of the trace returns within a recursion
    limit of the number of its rows.  It shows the warning exactly when the
    trace has no root row; otherwise it prints no span twice, and prints a
    span exactly when it is a root of the trace or descends from one
    through rows of the trace. *)
Theorem unique_span_ids_tree_view df tid limit :
  NoDup (span_id ∘ span_columns <$> trace_rows df tid) →
  "" ∉ span_id ∘ span_columns <$> trace_rows df tid →
  length (trace_rows df tid) ≤ limit →
  (∀ p c, map_child (span_map (trace_rows df tid)) p c ↔
          ∃ r, r ∈ trace_rows df tid ∧ span_id (span_columns r) = c ∧
               parent_span_id (span_columns r) = p) ∧
  ∃ view,
    visualize_trace limit df tid = Some view ∧
    match view with
    | NoRootSpan =>
        ∀ r, r ∈ trace_rows df tid → parent_span_id (span_columns r) ≠ ""
    | SpanTrees lines total =>
        total = length (trace_rows df tid) ∧
        NoDup (entry_span_id ∘ line_span <$> lines) ∧
        ∀ x, x ∈ entry_span_id ∘ line_span <$> lines ↔
             ∃ root, root ∈ trace_rows df tid ∧
                     parent_span_id (span_columns root) = "" ∧
                     rtc (map_child (span_map (trace_rows df tid)))
                       (span_id (span_columns root)) x
    end.
Proof.
  intros Hnd Hempty Hlimit. split; [intros p c; by apply map_child_rows|].
  rewrite visualize_trace_unfold.
  set (sm := span_map (trace_rows df tid)).
  set (roots := filter (λ r, parent_span_id (span_columns r) = "") (trace_rows df tid)).
  assert (∀ root, root ∈ roots →
            root ∈ trace_rows df tid ∧ parent_span_id (span_columns root) = "" ∧
            dict_get (span_id (span_columns root)) sm = Some (entry_of root) ∧
            ∀ y, rtc (map_child sm) (span_id (span_columns root)) y →
                 ¬ tc (map_child sm) y y) as Hroots.
  { intros root [Hp Hr]%list_elem_of_filter.
    assert (dict_get (span_id (span_columns root)) sm = Some (entry_of root)) as He
      by by apply span_map_lookup_unique.
    split_and!; [done..|].
    apply (root_reaches_no_cycle sm _ (entry_of root)); [done | done |].
    by apply span_map_no_empty_key. }
  case_decide as Hlen.
  { eexists. split; [done|]. intros r Hr Hp.
    assert (r ∈ roots) as Hin by by apply list_elem_of_filter.
    apply length_zero_iff_nil in Hlen. rewrite Hlen in Hin.
    by apply elem_of_nil in Hin. }
  destruct (mapM_option_Forall2
              (λ root, print_span_tree limit sm (span_id (span_columns root)) 0 false "")
              roots
              (λ root lines,
                 NoDup (entry_span_id ∘ line_span <$> lines) ∧
                 ∀ y, y ∈ entry_span_id ∘ line_span <$> lines ↔
                      rtc (map_child sm) (span_id (span_columns root)) y))
    as (trees & -> & Htrees).
  { intros root (Hr & Hp & He & Hacyc)%Hroots.
    apply (print_span_tree_total sm (span_map_NoDup _) (span_map_keyed df tid)
             limit _ 0 false "" ∅).
    - by eexists.
    - apply not_elem_of_empty.
    - apply empty_subseteq.
    - by intros v ?%elem_of_empty.
    - done.
    - etrans; [apply size_span_map_keys | done]. }
  cbn [mbind option_bind]. eexists. split; [done|]. split; [done|].
  destruct (concat_trees_spec (λ r : VizRow, span_id (span_columns r))
              (rtc (map_child sm)) roots trees Htrees) as [Hnodup Hmem].
  { eapply sublist_NoDup; [exact Hnd|]. apply fmap_sublist, sublist_filter. }
  { intros c1 c2 y (r1 & -> & Hr1)%list_elem_of_fmap (r2 & -> & Hr2)%list_elem_of_fmap
      Hy1 Hy2.
    apply Hroots in Hr1 as (Hin1 & Hp1 & He1 & _).
    apply Hroots in Hr2 as (Hin2 & Hp2 & He2 & _).
    assert (∀ a b ea, dict_get a sm = Some ea → is_Some (dict_get b sm) →
                      (∀ w, map_child sm w b → w = "") →
                      rtc (map_child sm) a b → a = b) as Hone.
    { intros a b ea Ha Hb Hbroot Hab.
      apply rtc_inv_r in Hab as [|(w & Haw & Hwb)]; [done|]. exfalso.
      apply Hbroot in Hwb as ->.
      pose proof (span_map_no_empty_key df tid Hempty) as Hnone. fold sm in Hnone.
      apply rtc_inv_r in Haw as [->|(v & _ & (e' & He' & _))]; congruence. }
    destruct (map_child_chain sm _ _ y Hy1 Hy2) as [H|H].
    - apply (Hone _ _ _ He1); [by eexists | | done].
      intros w Hw. apply (map_child_functional sm w "" _ Hw). by eexists.
    - symmetry. apply (Hone _ _ _ He2); [by eexists | | done].
      intros w Hw. apply (map_child_functional sm w "" _ Hw). by eexists. }
  split; [done|]. intros x. rewrite Hmem. split.
  - intros (c & (root & -> & Hroot)%list_elem_of_fmap & Hx).
    apply Hroots in Hroot as (? & ? & _). by exists root.
  - intros (root & Hr & Hp & Hx). exists (span_id (span_columns root)).
    split; [|done]. apply list_elem_of_fmap. exists root. split; [done|].
    by apply list_elem_of_filter.
Qed.

(** X16 on the sample frame: trace T1 prints its spans A, B and C once. *)
Lemma viz_sample_T1_tree :
  ∃ lines,
    visualize_trace 3 viz_sample "T1" = Some (SpanTrees lines 3) ∧
    NoDup (entry_span_id ∘ line_span <$> lines).
Proof.
  destruct (unique_span_ids_tree_view viz_sample "T1" 3)
    as (_ & view & Hview & Hspec).
  - vm_compute. repeat constructor; set_solver.
  - vm_compute. set_solver.
  - vm_compute. lia.
  - destruct view as [|lines total];
      [by vm_compute in Hview|].
    destruct Hspec as (-> & Hnd & _). exists lines. split; [|done].
    rewrite Hview. reflexivity.
Defined.

(** ** The choice of the example traces *)

Lemma insert_stat_perm x l : insert_stat x l ≡ₚ x :: l.
Proof.
  induction l as [|y l IH]; simpl; [done|].
  case_decide; [|done]. rewrite IH. apply Permutation_swap.
Qed.

Lemma sort_stats_perm l : sort_stats l ≡ₚ l.
Proof.
  induction l as [|x l IH]; simpl; [done|].
  by rewrite insert_stat_perm, IH.
Qed.

Lemma insert_stat_sorted x l :
  StronglySorted (λ a b, ¬ stat_key_lt a b) l →
  StronglySorted (λ a b, ¬ stat_key_lt a b) (insert_stat x l).
Proof.
  induction 1 as [|y l Hs IH Hall]; simpl; [repeat constructor|].
  case_decide as Hxy.
  - constructor; [done|]. rewrite insert_stat_perm. constructor; [|done].
    unfold stat_key_lt in *. lia.
  - constructor; [by constructor|]. constructor; [done|].
    eapply Forall_impl; [done|]. intros z. unfold stat_key_lt in *. lia.
Qed.

Lemma sort_stats_sorted l :
  StronglySorted (λ a b, ¬ stat_key_lt a b) (sort_stats l).
Proof.
  induction l as [|x l IH]; simpl; [constructor | by apply insert_stat_sorted].
Qed.

Lemma StronglySorted_sublist {A} (R : relation A) (k l : list A) :
  k `sublist_of` l → StronglySorted R l → StronglySorted R k.
Proof.
  intros Hsub Hs. revert k Hsub.
  induction Hs as [|x l Hs IH Hall]; intros k Hsub.
  - apply sublist_nil_r in Hsub as ->. constructor.
  - apply sublist_cons_r in Hsub as [Hsub|(k' & -> & Hsub)]; [by apply IH|].
    constructor; [by apply IH|].
    apply Forall_forall. intros y Hy. eapply Forall_forall in Hall; [done|].
    by eapply elem_of_sublist.
Qed.

(** In a sorted list, an entry beyond the first [n] does not come before
    one of the first [n]. *)
Lemma take_sorted_left_out {A} (R : relation A) (l : list A) n a b :
  StronglySorted R l → a ∈ take n l → b ∈ l → b ∉ take n l → R a b.
Proof.
  intros Hs Ha Hb Hnb.
  rewrite <-(take_drop n l) in Hs, Hb.
  apply elem_of_app in Hb as [|Hb]; [done|].
  by eapply StronglySorted_app_1_elem_of.
Qed.

Lemma complex_traces_sublist stats : complex_traces stats `sublist_of` stats.
Proof.
  unfold complex_traces. repeat case_decide;
    [apply sublist_take | apply sublist_filter..].
Qed.

Lemma complex_traces_nonempty stats : stats ≠ [] → complex_traces stats ≠ [].
Proof.
  intros Hne. unfold complex_traces. repeat case_decide.
  - by destruct stats.
  - intros Hnil. by rewrite Hnil in *.
  - intros Hnil. by rewrite Hnil in *.
Qed.

(** A trace that [complex_traces] drops has fewer services than each one it
    keeps, and the number of services of the kept ones reaches 3, or 2,
    whenever that of some trace does. *)
Lemma complex_traces_tier stats t t' :
  t ∈ complex_traces stats → t' ∈ stats →
  (t' ∉ complex_traces stats →
   t'.1.2 < t.1.2 ∨ ((t' ∉ take 5 stats) ∧ t ∈ take 5 stats)) ∧
  ∀ k, 2 ≤ k ≤ 3 → k ≤ t'.1.2 → k ≤ t.1.2.
Proof.
  unfold complex_traces. intros Ht Ht'.
  destruct (decide (length (filter (λ t, 3 ≤ t.1.2) stats) = 0)) as [H3|H3].
  - apply length_zero_iff_nil in H3. rewrite filter_eq_nil in H3.
    destruct (decide (length (filter (λ t, 2 ≤ t.1.2) stats) = 0)) as [H2|H2].
    + apply length_zero_iff_nil in H2. rewrite filter_eq_nil in H2.
      split; [by right|]. intros k Hk Hle. apply H2 in Ht'. lia.
    + apply list_elem_of_filter in Ht as [Ht2 Ht]. split.
      * intros Hout. left. rewrite list_elem_of_filter in Hout.
        assert (¬ 2 ≤ t'.1.2) by tauto. lia.
      * intros k Hk Hle. apply H3 in Ht'. lia.
  - apply list_elem_of_filter in Ht as [Ht3 Ht]. split.
    + intros Hout. left. rewrite list_elem_of_filter in Hout.
      assert (¬ 3 ≤ t'.1.2) by tauto. lia.
    + intros k Hk Hle. lia.
Qed.

Lemma trace_stats_eq df traces : trace_stats df traces = trace_stat df <$> traces.
Proof. reflexivity. Qed.

(** X17.  The example traces of an anomaly type.  The branch that prints
    that no trace was found is taken only for a type without rows.
    Otherwise between one and five traces are shown, none twice, each with a
    row of the type; they come in descending order of number of services,
    then of spans, both counted over the whole frame; when some trace of
    the type has three services, or two, so has every trace shown; and a
    trace of the type that is left out has neither more services than a
    trace shown, nor as many services and more spans. *)
Theorem example_traces_spec df type :
  match example_traces df type with
  | None => ∀ r, r ∈ df → anomaly_type r ≠ type
  | Some sampled =>
      0 < length sampled ≤ 5 ∧
      NoDup sampled ∧
      (∀ tid, tid ∈ sampled →
              ∃ r, r ∈ df ∧ anomaly_type r = type ∧ trace_id (span_columns r) = tid) ∧
      (∀ i j a b, i < j → sampled !! i = Some a → sampled !! j = Some b →
                  ¬ stat_key_lt (trace_stat df a) (trace_stat df b)) ∧
      (∀ tid r', tid ∈ sampled → r' ∈ df → anomaly_type r' = type →
                 (∀ k, 2 ≤ k ≤ 3 →
                       k ≤ (trace_stat df (trace_id (span_columns r'))).1.2 →
                       k ≤ (trace_stat df tid).1.2) ∧
                 (trace_id (span_columns r') ∉ sampled →
                  ¬ stat_key_lt (trace_stat df tid)
                      (trace_stat df (trace_id (span_columns r')))))
  end.
Proof.
  unfold example_traces.
  set (traces := first_seen (trace_id ∘ span_columns <$>
                               filter (λ r, anomaly_type r = type) df)).
  assert (∀ tid, tid ∈ traces ↔
                 ∃ r, r ∈ df ∧ anomaly_type r = type ∧
                      trace_id (span_columns r) = tid) as Htraces.
  { intros tid. unfold traces. rewrite elem_of_first_seen, list_elem_of_fmap.
    setoid_rewrite list_elem_of_filter. naive_solver. }
  case_decide as Hlen.
  { intros r Hr Htype. apply length_zero_iff_nil in Hlen.
    assert (trace_id (span_columns r) ∈ traces) as Hin by (apply Htraces; eauto).
    rewrite Hlen in Hin. by apply elem_of_nil in Hin. }
  rewrite trace_stats_eq.
  set (sorted := sort_stats (trace_stat df <$> traces)).
  assert (sorted ≡ₚ trace_stat df <$> traces) as Hperm by apply sort_stats_perm.
  assert (StronglySorted (λ a b, ¬ stat_key_lt a b) sorted) as Hsorted
    by apply sort_stats_sorted.
  assert (∀ t, t ∈ sorted ↔ ∃ tid, tid ∈ traces ∧ t = trace_stat df tid) as Hmem.
  { intros t. rewrite Hperm, list_elem_of_fmap. naive_solver. }
  assert (NoDup ((λ t : string * nat * nat, t.1.1) <$> sorted)) as Hnd.
  { rewrite Hperm, <-list_fmap_compose.
    assert ((λ t : string * nat * nat, t.1.1) ∘ trace_stat df <$> traces = traces)
      as ->; [|apply NoDup_first_seen].
    rewrite <-(list_fmap_id traces) at 2. by apply list_fmap_ext. }
  pose proof (complex_traces_sublist sorted) as Hsub.
  set (complex := complex_traces sorted) in *.
  assert (StronglySorted (λ a b, ¬ stat_key_lt a b) complex) as Hcs
    by by eapply StronglySorted_sublist.
  assert (complex ≠ []) as Hcne.
  { apply complex_traces_nonempty. intros Hnil.
    apply Permutation_length in Hperm. rewrite Hnil, length_fmap in Hperm.
    simpl in Hperm. lia. }
  unfold sampled_traces.
  set (shown := take (5 `min` length complex) complex).
  assert (shown = take 5 complex) as Hshown.
  { unfold shown. destruct (decide (5 ≤ length complex)).
    - by rewrite Nat.min_l.
    - rewrite Nat.min_r, !take_ge by lia. done. }
  assert (shown `sublist_of` sorted) as Hss
    by (etrans; [apply sublist_take | done]).
  assert (∀ tid, tid ∈ (λ t : string * nat * nat, t.1.1) <$> shown →
                 trace_stat df tid ∈ shown ∧ tid ∈ traces) as Hshown_mem.
  { intros tid (t & -> & Ht)%list_elem_of_fmap.
    pose proof (elem_of_sublist _ _ _ Ht Hss) as Hin.
    apply Hmem in Hin as (tid & Htid & ->). by split. }
  split_and!.
  - rewrite length_fmap. unfold shown. rewrite length_take.
    destruct complex; [done | simpl; lia].
  - rewrite length_fmap. unfold shown. rewrite length_take. lia.
  - eapply sublist_NoDup; [exact Hnd|]. by apply fmap_sublist.
  - intros tid Htid. by apply Htraces, Hshown_mem.
  - intros i j a b Hij Hi Hj.
    apply list_lookup_fmap_Some in Hi as (ta & Ha & Hi).
    apply list_lookup_fmap_Some in Hj as (tb & Hb & Hj).
    assert (ta = trace_stat df a) as <-.
    { pose proof (elem_of_sublist _ _ _ (list_elem_of_lookup_2 _ _ _ Hi) Hss) as Hin.
      apply Hmem in Hin as (tid & _ & ->). by subst. }
    assert (tb = trace_stat df b) as <-.
    { pose proof (elem_of_sublist _ _ _ (list_elem_of_lookup_2 _ _ _ Hj) Hss) as Hin.
      apply Hmem in Hin as (tid & _ & ->). by subst. }
    apply (StronglySorted_lookup (λ a b, ¬ stat_key_lt a b) shown i j ta tb);
      [|done..].
    eapply StronglySorted_sublist; [apply sublist_take | done].
  - intros tid r' Htid Hr' Htype.
    apply Hshown_mem in Htid as [Htid _].
    assert (trace_stat df (trace_id (span_columns r')) ∈ sorted) as Hin'.
    { apply Hmem. eexists. split; [|done]. apply Htraces. eauto. }
    assert (trace_stat df tid ∈ complex) as Hc
      by (eapply elem_of_sublist; [done | apply sublist_take]).
    destruct (complex_traces_tier sorted _ _ Hc Hin') as [Hout Htier].
    split; [done|]. intros Hnot.
    destruct (decide (trace_stat df (trace_id (span_columns r')) ∈ complex))
      as [Hin|Hnin].
    + apply (take_sorted_left_out (λ a b, ¬ stat_key_lt a b) complex 5);
        [done | by rewrite <-Hshown | done |].
      rewrite <-Hshown. intros Hs. apply Hnot. apply list_elem_of_fmap.
      by exists (trace_stat df (trace_id (span_columns r'))).
    + destruct (Hout Hnin) as [Hlt|[Hn5 H5]].
      * unfold stat_key_lt. lia.
      * by apply (take_sorted_left_out (λ a b, ¬ stat_key_lt a b) sorted 5).
Qed.

(** ** The whole visualisation *)

Lemma elem_of_sorted_anomaly_types df type :
  type ∈ sorted_anomaly_types df ↔ ∃ r, r ∈ df ∧ anomaly_type r = type.
Proof.
  unfold sorted_anomaly_types.
  rewrite merge_sort_Permutation, elem_of_first_seen, list_elem_of_fmap.
  naive_solver.
Qed.

Lemma example_traces_length df type sampled :
  example_traces df type = Some sampled → 0 < length sampled ≤ 5.
Proof.
  unfold example_traces. case_decide as Hlen; [done|]. intros [= <-].
  unfold sampled_traces. rewrite length_fmap, length_take.
  assert (complex_traces (sort_stats (trace_stats df (first_seen
            (trace_id ∘ span_columns <$> filter (λ r, anomaly_type r = type) df))))
          ≠ []) as Hne.
  { apply complex_traces_nonempty. intros Hnil.
    pose proof (Permutation_length (sort_stats_perm (trace_stats df (first_seen
            (trace_id ∘ span_columns <$> filter (λ r, anomaly_type r = type) df)))))
      as Hperm.
    rewrite Hnil, trace_stats_eq, length_fmap in Hperm. simpl in Hperm. lia. }
  destruct (complex_traces _); [done | cbn [length]; lia].
Qed.

Lemma example_traces_is_Some df type :
  type ∈ sorted_anomaly_types df → is_Some (example_traces df type).
Proof.
  intros (r & Hr & Htype)%elem_of_sorted_anomaly_types.
  unfold example_traces. case_decide as Hlen; [|by eexists]. exfalso.
  apply length_zero_iff_nil in Hlen.
  assert (trace_id (span_columns r) ∈
            first_seen (trace_id ∘ span_columns <$>
                          filter (λ r, anomaly_type r = type) df)) as Hin.
  { apply elem_of_first_seen, list_elem_of_fmap. exists r.
    split; [done|]. by apply list_elem_of_filter. }
  rewrite Hlen in Hin. by apply elem_of_nil in Hin.
Qed.

Lemma Forall2_keyed {A B} (f : A → option (A * B)) (l : list A)
    (kvs : list (A * B)) :
  Forall2 (λ x kv, f x = Some kv) l kvs →
  (∀ x kv, f x = Some kv → kv.1 = x) →
  kvs.*1 = l ∧ ∀ k v, (k, v) ∈ kvs → k ∈ l ∧ f k = Some (k, v).
Proof.
  intros Hall Hkey. induction Hall as [|x [k v] l kvs Hx _ [IH1 IH2]].
  - split; [done|]. by intros ? ? ?%elem_of_nil.
  - pose proof (Hkey _ _ Hx) as Hk. simpl in Hk. subst k.
    split; [by rewrite fmap_cons, IH1|].
    intros k' v' [[= -> ->]|Hin]%elem_of_cons; [split; [left | done]|].
    destruct (IH2 k' v' Hin) as [? ?]. split; [by right | done].
Qed.

(** X18.  When the visualisation completes, it has one section for each
    anomaly type that occurs in the frame, in sorted order and none twice.
    No section is the one that prints that no trace was found: each shows
    between one and five example traces, those chosen for its type, each
    with the view of that trace.  The parameter [num_examples] has no
    effect on what is shown. *)
Theorem visualization_sections num_examples limit df views :
  visualize_example_traces num_examples limit df = Some views →
  views.*1 = sorted_anomaly_types df ∧
  NoDup views.*1 ∧
  (∀ type, type ∈ views.*1 ↔ ∃ r, r ∈ df ∧ anomaly_type r = type) ∧
  (∀ type shown, (type, shown) ∈ views →
     ∃ examples,
       shown = Some examples ∧
       example_traces df type = Some examples.*1 ∧
       0 < length examples ≤ 5 ∧
       ∀ tid view, (tid, view) ∈ examples →
                   visualize_trace limit df tid = Some view) ∧
  ∀ n, visualize_example_traces n limit df = Some views.
Proof.
  intros Hviews. pose proof Hviews as Hall.
  unfold visualize_example_traces in Hall.
  apply mapM_Some, Forall2_keyed in Hall as [Hkeys Hentries].
  2: { intros type [type' shown] Hhead.
       destruct (example_traces df type); [|by injection Hhead].
       destruct (mapM _ _); [|done]. by injection Hhead. }
  split_and!.
  - done.
  - rewrite Hkeys. unfold sorted_anomaly_types.
    rewrite merge_sort_Permutation. apply NoDup_first_seen.
  - intros type. rewrite Hkeys. apply elem_of_sorted_anomaly_types.
  - intros type shown [Htype Hentry]%Hentries.
    destruct (example_traces_is_Some df type Htype) as [sampled Hsampled].
    rewrite Hsampled in Hentry.
    destruct (mapM _ sampled) as [examples|] eqn:Hex; [|done].
    injection Hentry as <-. exists examples.
    apply mapM_Some, Forall2_keyed in Hex as [Hfst Hview].
    2: { intros tid [tid' view] Hhead.
         destruct (visualize_trace limit df tid); [|done]. by injection Hhead. }
    split_and!; [done | by rewrite Hfst | | |].
    + rewrite <-(length_fmap fst), Hfst. by eapply example_traces_length.
    + rewrite <-(length_fmap fst), Hfst. by eapply example_traces_length.
    + intros tid view [_ Hin]%Hview.
      destruct (visualize_trace limit df tid); [|done]. by injection Hin as ->.
  - intros n. exact Hviews.
Qed.

(** X18 on the sample frame: two sections, each showing one trace. *)
Lemma viz_sample_sections :
  ∃ views,
    visualize_example_traces 10 20 viz_sample = Some views ∧
    views.*1 = ["cpu"; "normal"].
Proof.
  destruct (visualize_example_traces 10 20 viz_sample) as [views|] eqn:Hviews;
    [|by vm_compute in Hviews].
  exists views. split; [done|].
  destruct (visualization_sections 10 20 viz_sample views Hviews) as (-> & _).
  by vm_compute.
Defined.

(** ** The whole run *)

Lemma visualize_trace_is_Some df tid limit :
  NoDup (span_id ∘ span_columns <$> trace_rows df tid) →
  "" ∉ span_id ∘ span_columns <$> trace_rows df tid →
  length (trace_rows df tid) ≤ limit →
  is_Some (visualize_trace limit df tid).
Proof.
  intros Hnd Hempty Hlimit. rewrite visualize_trace_unfold.
  case_decide; [by eexists|].
  destruct (mapM_option_Forall2
              (λ root, print_span_tree limit (span_map (trace_rows df tid))
                         (span_id (span_columns root)) 0 false "")
              (filter (λ r, parent_span_id (span_columns r) = "") (trace_rows df tid))
              (λ _ _, True)) as (trees & -> & _); [|by eexists].
  intros root [Hp Hr]%list_elem_of_filter.
  destruct (print_span_tree_total (span_map (trace_rows df tid))
              (span_map_NoDup _) (span_map_keyed df tid)
              limit (span_id (span_columns root)) 0 false "" ∅)
    as (lines & -> & _); [| | | | | |by eexists].
  - by apply span_map_key_of_row.
  - apply not_elem_of_empty.
  - apply empty_subseteq.
  - by intros v ?%elem_of_empty.
  - apply (root_reaches_no_cycle _ _ (entry_of root));
      [by apply span_map_lookup_unique | done | by apply span_map_no_empty_key].
  - etrans; [apply size_span_map_keys | done].
Qed.

(** X19.  The whole visualisation completes, for every anomaly type and
    every example trace, whenever the span_ids of the frame are pairwise
    distinct and not empty and no trace has more rows than the recursion
    limit allows nested calls; on a frame with a row it then shows at least
    one section. *)
Theorem visualization_completes num_examples limit df :
  NoDup (span_id ∘ span_columns <$> df) →
  "" ∉ span_id ∘ span_columns <$> df →
  (∀ tid, length (trace_rows df tid) ≤ limit) →
  ∃ views,
    visualize_example_traces num_examples limit df = Some views ∧
    (df ≠ [] → views ≠ []).
Proof.
  intros Hnd Hempty Hlimit.
  assert (∀ tid, is_Some (visualize_trace limit df tid)) as Htrace.
  { intros tid. apply visualize_trace_is_Some; [| |done].
    - eapply sublist_NoDup; [exact Hnd|]. apply fmap_sublist, sublist_filter.
    - intros (r & Hid & [_ Hr]%list_elem_of_filter)%list_elem_of_fmap.
      apply Hempty. apply list_elem_of_fmap. by exists r. }
  assert (is_Some (visualize_example_traces num_examples limit df))
    as [views Hviews].
  { unfold visualize_example_traces. apply mapM_is_Some, Forall_forall.
    intros type _. simpl. destruct (example_traces df type) as [sampled|]; [|done].
    assert (is_Some (mapM (λ tid, view ← visualize_trace limit df tid;
                                  Some (tid, view)) sampled)) as [vs ->];
      [|by eexists].
    apply mapM_is_Some, Forall_forall. intros tid _. simpl.
    by destruct (Htrace tid) as [view ->]. }
  exists views. split; [done|]. intros Hne ->.
  unfold visualize_example_traces in Hviews. apply mapM_Some in Hviews.
  apply Forall2_nil_inv_r in Hviews.
  destruct df as [|r df]; [done|].
  assert (anomaly_type r ∈ sorted_anomaly_types (r :: df)) as Hin.
  { apply elem_of_sorted_anomaly_types. exists r. split; [left | done]. }
  rewrite Hviews in Hin. by apply elem_of_nil in Hin.
Qed.

(** X19 on the sample frame, with a limit of three. *)
Lemma viz_sample_completes :
  ∃ views, visualize_example_traces 10 3 viz_sample = Some views ∧ views ≠ [].
Proof.
  destruct (visualization_completes 10 3 viz_sample) as (views & Hviews & Hne).
  - apply (bool_decide_unpack _). by vm_compute.
  - apply (bool_decide_unpack _). by vm_compute.
  - intros tid. unfold trace_rows, viz_sample. simpl.
    repeat (rewrite filter_cons; case_decide); rewrite filter_nil; simpl; try lia;
      simpl in *; congruence.
  - exists views. split; [done|]. by apply Hne.
Defined.

(** ** The order of example traces of equal counts *)

Lemma insert_stat_sublist x l : l `sublist_of` insert_stat x l.
Proof.
  induction l as [|y l IH]; simpl; [apply sublist_nil_l|].
  case_decide; [by apply sublist_skip | by apply sublist_cons].
Qed.

Lemma insert_stat_before x b l :
  b ∈ l → ¬ stat_key_lt x b → [x; b] `sublist_of` insert_stat x l.
Proof.
  induction l as [|y l IH]; [by intros ?%elem_of_nil|]. intros Hb Hxb. simpl.
  case_decide as Hxy.
  - apply sublist_cons, IH; [|done].
    apply elem_of_cons in Hb as [->|Hb]; [done | done].
  - apply sublist_skip. by apply singleton_sublist_l.
Qed.

(** The sort is stable: an entry stays in front of a later entry whose key
    is not greater. *)
Lemma sort_stats_stable l a b :
  [a; b] `sublist_of` l → ¬ stat_key_lt a b → [a; b] `sublist_of` sort_stats l.
Proof.
  induction l as [|x l IH]; intros Hsub Hab; [by apply sublist_nil_r in Hsub|].
  simpl. apply sublist_cons_r in Hsub as [Hsub|(k & [= <- <-] & Hsub)].
  - etrans; [by apply IH | apply insert_stat_sublist].
  - apply insert_stat_before; [|done].
    rewrite sort_stats_perm. by apply singleton_sublist_l.
Qed.

(** Two entries that both survive in a sublist of a list without repeats
    keep their order there. *)
Lemma sublist_pair_restrict {A} (a b : A) (l' l : list A) :
  l' `sublist_of` l → NoDup l → [a; b] `sublist_of` l → a ∈ l' → b ∈ l' →
  [a; b] `sublist_of` l'.
Proof.
  induction 1 as [|x l' l Hsub IH|x l' l Hsub IH]; intros Hnd Hab Ha Hb.
  - by apply elem_of_nil in Ha.
  - apply NoDup_cons in Hnd as [Hx Hnd].
    apply sublist_cons_r in Hab as [Hab|(k & [= <- <-] & Hab)].
    + assert (a ∈ l) as Hal
        by (eapply elem_of_sublist; [|exact Hab]; left).
      assert (b ∈ l) as Hbl
        by (eapply elem_of_sublist; [|exact Hab]; right; left).
      apply elem_of_cons in Ha as [->|Ha]; [done|].
      apply elem_of_cons in Hb as [->|Hb]; [done|].
      apply sublist_cons. by apply IH.
    + apply singleton_sublist_l in Hab.
      apply elem_of_cons in Hb as [->|Hb]; [done|].
      apply sublist_skip. by apply singleton_sublist_l.
  - apply NoDup_cons in Hnd as [Hx Hnd].
    apply sublist_cons_r in Hab as [Hab|(k & [= <- <-] & Hab)].
    + by apply IH.
    + exfalso. apply Hx. by eapply elem_of_sublist.
Qed.

(** X20.  The order of the example traces is fixed by the frame.  Of two
    traces shown for an anomaly type, the one whose first row of the type
    comes earlier in the frame is shown first, unless the other has more
    services, or as many services and more spans: traces of equal counts
    keep the order of their first appearance. *)
Theorem example_traces_tie_order df type sampled a b :
  example_traces df type = Some sampled →
  a ∈ sampled → b ∈ sampled →
  [a; b] `sublist_of`
    first_seen (trace_id ∘ span_columns <$> filter (λ r, anomaly_type r = type) df) →
  ¬ stat_key_lt (trace_stat df a) (trace_stat df b) →
  [a; b] `sublist_of` sampled.
Proof.
  unfold example_traces.
  set (traces := first_seen (trace_id ∘ span_columns <$>
                               filter (λ r, anomaly_type r = type) df)).
  case_decide as Hlen; [done|]. intros [= <-]. rewrite trace_stats_eq.
  set (sorted := sort_stats (trace_stat df <$> traces)).
  unfold sampled_traces.
  set (shown := take (5 `min` length (complex_traces sorted)) (complex_traces sorted)).
  intros Ha Hb Hab Hkey.
  assert (sorted ≡ₚ trace_stat df <$> traces) as Hperm by apply sort_stats_perm.
  assert ((λ t : string * nat * nat, t.1.1) ∘ trace_stat df <$> traces = traces)
    as Hnames.
  { rewrite <-(list_fmap_id traces) at 2. by apply list_fmap_ext. }
  assert (NoDup sorted) as Hnd.
  { apply (NoDup_fmap_1 (λ t : string * nat * nat, t.1.1)).
    rewrite Hperm, <-list_fmap_compose, Hnames. apply NoDup_first_seen. }
  assert (shown `sublist_of` sorted) as Hss.
  { etrans; [apply sublist_take | apply complex_traces_sublist]. }
  assert (∀ tid, tid ∈ (λ t : string * nat * nat, t.1.1) <$> shown →
                 trace_stat df tid ∈ shown) as Hmem.
  { intros tid (t & -> & Ht)%list_elem_of_fmap.
    pose proof (elem_of_sublist _ _ _ Ht Hss) as Hin.
    rewrite Hperm in Hin. by apply list_elem_of_fmap in Hin as (tid & -> & _). }
  assert ([trace_stat df a; trace_stat df b] `sublist_of` shown) as Hpair.
  { apply (sublist_pair_restrict _ _ shown sorted); [done | done | | by apply Hmem..].
    apply sort_stats_stable; [|done].
    by apply (fmap_sublist (trace_stat df)) in Hab. }
  by apply (fmap_sublist (λ t : string * nat * nat, t.1.1)) in Hpair.
Qed.

(** X20 on two traces of equal counts: the first in the frame comes first. *)
Lemma viz_ties_order :
  ∃ sampled,
    example_traces viz_ties "normal" = Some sampled ∧
    ["Ta"; "Tb"] `sublist_of` sampled.
Proof.
  exists ["Ta"; "Tb"]. split; [by vm_compute|].
  apply (example_traces_tie_order viz_ties "normal" ["Ta"; "Tb"] "Ta" "Tb").
  - by vm_compute.
  - left.
  - right. left.
  - vm_compute. reflexivity.
  - vm_compute. intros [Hlt|[_ Hlt]]; lia.
Defined.

(** * The depth walk under the recursion limit *)

Lemma mapM_result_Raise {A B} (f : A → result B) (l : list A) e :
  mapM f l = Raise e → ∃ x, x ∈ l ∧ f x = Raise e.
Proof.
  induction l as [|x l IH]; [done|]. rewrite mapM_result_cons.
  destruct (f x) as [y|e'] eqn:Hx.
  - cbn [mbind result_bind]. destruct (mapM f l) as [ys|e'] eqn:Hl; [done|].
    cbn [mbind result_bind]. intros [= ->].
    destruct (IH eq_refl) as (x' & Hx' & He). exists x'. split; [by right | done].
  - cbn [mbind result_bind]. intros [= ->]. exists x. split; [left | done].
Qed.

(** A walk that returns has nested no more calls than allowed, so its depth
    is at most the limit. *)
Lemma calculate_depth_fuel_le ch n s V d :
  calculate_depth_fuel ch n s V = Ok d → d ≤ n.
Proof.
  revert s V d. induction n as [|n IH]; intros s V d Hd; [done|].
  rewrite calculate_depth_fuel_S in Hd.
  case_decide; [injection Hd as <-; lia|].
  destruct (get_children ch s) as [|c1 cs] eqn:Hch; [injection Hd as <-; lia|].
  destruct (mapM _ (c1 :: cs)) as [ds|] eqn:Hds in Hd; [|done].
  cbn [mbind result_bind] in Hd. apply mapM_result_Ok in Hds.
  destruct ds as [|d1 ds]; [by inversion Hds|].
  rewrite py_max_cons in Hd. cbn [mbind result_bind] in Hd. injection Hd as <-.
  assert (max_list (d1 :: ds) ≤ n) as Hm; [|simpl in Hm |- *; lia].
  apply max_list_le. intros x Hx. apply list_elem_of_lookup in Hx as [i Hi].
  destruct (Forall2_lookup_r _ _ _ _ _ Hds Hi) as (c & _ & Hc). by eapply IH.
Qed.

(** The only exception of the walk is the one of the limit. *)
Lemma calculate_depth_fuel_raises ch n s V e :
  calculate_depth_fuel ch n s V = Raise e → e = OutOfFuel.
Proof.
  revert s V. induction n as [|n IH]; intros s V He; [by injection He|].
  rewrite calculate_depth_fuel_S in He.
  case_decide; [done|].
  destruct (get_children ch s) as [|c1 cs] eqn:Hch; [done|].
  destruct (mapM _ (c1 :: cs)) as [ds|e'] eqn:Hds in He.
  - cbn [mbind result_bind] in He. apply mapM_result_Ok in Hds.
    destruct ds as [|d1 ds]; [by inversion Hds|].
    by rewrite py_max_cons in He.
  - cbn [mbind result_bind] in He. injection He as ->.
    apply mapM_result_Raise in Hds as (c & _ & Hc). by eapply IH.
Qed.

(** Whatever the limit, a walk that returns gives the depth. *)
Lemma calculate_depth_fuel_value df n s V d :
  calculate_depth_fuel (span_to_children df) n s V = Ok d → d = depth_from df s V.
Proof.
  intros Hd. pose proof (calculate_depth_from_Ok df s V) as Hfrom.
  unfold calculate_depth_from in Hfrom.
  destruct (decide (n ≤ depth_fuel df)) as [Hle|Hgt].
  - apply (calculate_depth_fuel_mono df n (depth_fuel df)) in Hd; [|done].
    congruence.
  - apply (calculate_depth_fuel_mono df (depth_fuel df) n) in Hfrom; [|lia].
    congruence.
Qed.

(** A limit above the depth lets the walk return. *)
Lemma calculate_depth_fuel_enough df n s V :
  depth_from df s V < n →
  calculate_depth_fuel (span_to_children df) n s V = Ok (depth_from df s V).
Proof.
  revert s V. induction n as [|n IH]; intros s V Hlt; [lia|].
  rewrite calculate_depth_fuel_S. rewrite depth_from_unfold in Hlt |- *.
  case_decide; [done|].
  destruct (get_children (span_to_children df) s) as [|c1 cs] eqn:Hch; [done|].
  rewrite (mapM_result_total _ _ (λ c, depth_from df c ({[s]} ∪ V))).
  - cbn [mbind result_bind]. rewrite fmap_cons, py_max_cons. done.
  - intros c Hc. apply IH.
    assert (depth_from df c ({[s]} ∪ V) ≤
            max_list ((λ c, depth_from df c ({[s]} ∪ V)) <$> c1 :: cs)); [|lia].
    apply max_list_ge, list_elem_of_fmap. by exists c.
Qed.

Lemma limited_walk_returns limit df s V d :
  calculate_depth_limited limit df s V = Ok d →
  d = depth_from df s V ∧ d ≤ limit.
Proof.
  unfold calculate_depth_limited, recursion_limit_reached.
  destruct (calculate_depth_fuel _ limit s V) as [d'|e] eqn:Hd; [|by destruct e].
  intros [= <-]. split; [by eapply calculate_depth_fuel_value|].
  by eapply calculate_depth_fuel_le.
Qed.

Lemma limited_walk_cases limit df s V :
  calculate_depth_limited limit df s V = Ok (depth_from df s V) ∨
  calculate_depth_limited limit df s V = Raise RecursionError.
Proof.
  destruct (calculate_depth_limited limit df s V) as [d|e] eqn:Hd.
  - left. by apply limited_walk_returns in Hd as [-> _].
  - right. unfold calculate_depth_limited, recursion_limit_reached in Hd.
    destruct (calculate_depth_fuel _ limit s V) as [d'|e'] eqn:Hd'; [done|].
    apply calculate_depth_fuel_raises in Hd' as ->. by injection Hd as <-.
Qed.

Lemma limited_walk_enough limit df s V :
  depth_from df s V < limit →
  calculate_depth_limited limit df s V = Ok (depth_from df s V).
Proof.
  intros Hlt. unfold calculate_depth_limited.
  by rewrite calculate_depth_fuel_enough.
Qed.

Lemma limited_walk_short limit df s V :
  limit < depth_from df s V →
  calculate_depth_limited limit df s V = Raise RecursionError.
Proof.
  intros Hlt. destruct (limited_walk_cases limit df s V) as [Hok|Hraise]; [|done].
  apply limited_walk_returns in Hok as [_ Hle]. lia.
Qed.

(** ** The loop over the roots, and the analysis *)

Lemma root_loop_limited limit df rs :
  (foldl (root_step_limited limit df) (Ok ([], [])) rs =
     foldl (root_step df) (Ok ([], [])) rs ∨
   foldl (root_step_limited limit df) (Ok ([], [])) rs = Raise RecursionError) ∧
  (Forall (λ r, depth_of df (span_id r) < limit) rs →
   foldl (root_step_limited limit df) (Ok ([], [])) rs =
     foldl (root_step df) (Ok ([], [])) rs) ∧
  (Exists (λ r, limit < depth_of df (span_id r)) rs →
   foldl (root_step_limited limit df) (Ok ([], [])) rs = Raise RecursionError).
Proof.
  induction rs as [|r rs (Hcases & Hall & Hex)] using rev_ind.
  - split; [by left|]. split; [done|]. by intros ?%Exists_nil.
  - rewrite !foldl_snoc.
    assert (∀ acc, root_step_limited limit df (Ok acc) r = root_step df (Ok acc) r ∨
                   root_step_limited limit df (Ok acc) r = Raise RecursionError)
      as Hstep.
    { intros [td tb]. unfold root_step_limited, root_step.
      cbn [mbind result_bind]. rewrite calculate_depth_Ok.
      destruct (limited_walk_cases limit df (span_id r) ∅) as [-> | ->];
        [by left | by right]. }
    destruct (root_loop_spec df rs) as (td & tb & Hfold & _).
    split_and!.
    + destruct Hcases as [-> | ->]; [|by right].
      rewrite Hfold. apply Hstep.
    + intros [Hrs Hr]%Forall_app. apply Forall_cons in Hr as [Hr _].
      rewrite (Hall Hrs), Hfold. unfold root_step_limited, root_step.
      cbn [mbind result_bind].
      by rewrite calculate_depth_Ok, (limited_walk_enough limit df (span_id r) ∅ Hr).
    + intros [Hrs|Hr]%Exists_app; [by rewrite (Hex Hrs)|].
      apply Exists_cons in Hr as [Hr|?%Exists_nil]; [|done].
      destruct Hcases as [-> | ->]; [|done].
      rewrite Hfold. unfold root_step_limited. cbn [mbind result_bind].
      by rewrite (limited_walk_short limit df (span_id r) ∅ Hr).
Qed.

Lemma analyze_trace_depth_limited_eq limit df :
  trace_metrics_limited limit df = trace_metrics df →
  analyze_trace_depth_limited limit df = analyze_trace_depth df.
Proof.
  intros Heq. unfold analyze_trace_depth_limited, analyze_trace_depth.
  by rewrite Heq.
Qed.

(** ** A chain deeper than the limit *)

#[global] Instance chain_id_inj : Inj (=) (=) chain_id.
Proof.
  intros i j. unfold chain_id. intros [= Heq]%(inj (String.append "n")).
  by apply (inj pretty).
Qed.

Lemma deep_chain_chain n k m :
  k + S m ≤ n → chain (deep_chain n) (chain_id <$> seq k (S m)).
Proof.
  revert k. induction m as [|m IH]; intros k Hk; [apply chain_one|].
  change (seq k (S (S m))) with (k :: seq (S k) (S m)).
  rewrite fmap_cons. change (seq (S k) (S m)) with (S k :: seq (S (S k)) m).
  rewrite fmap_cons. apply chain_cons.
  - exists (chain_row (S k)). split_and!.
    + apply list_elem_of_fmap. exists (S k). split; [done|].
      apply elem_of_seq. lia.
    + done.
    + simpl. by rewrite Nat.sub_0_r.
    + done.
  - change (chain_id (S k) :: (chain_id <$> seq (S (S k)) m))
      with (chain_id <$> seq (S k) (S m)).
    apply IH. lia.
Qed.

(** The root of a chain of [n] spans has depth at least [n]. *)
Lemma deep_chain_depth n : 0 < n → n ≤ depth_of (deep_chain n) (chain_id 0).
Proof.
  destruct n as [|n]; [lia|]. intros _.
  pose proof (deep_chain_chain (S n) 0 n ltac:(lia)) as Hchain.
  assert (NoDup (chain_id <$> seq 0 (S n))) as Hnd
    by (apply (NoDup_fmap_2 _), NoDup_seq).
  change (seq 0 (S n)) with (0 :: seq 1 n) in Hchain, Hnd.
  rewrite fmap_cons in Hchain, Hnd.
  pose proof (depth_of_chain_bound _ _ _ Hchain Hnd) as Hle.
  rewrite length_cons, length_fmap, length_seq in Hle. done.
Qed.

Lemma deep_chain_root n : 0 < n → chain_row 0 ∈ root_spans (deep_chain n).
Proof.
  intros Hn. apply list_elem_of_filter. split; [done|].
  apply list_elem_of_fmap. exists 0. split; [done|]. apply elem_of_seq. lia.
Qed.


Lemma deep_chain_child_of n p c :
  child_of (deep_chain n) p c → ∃ i, p = chain_id i ∧ c = chain_id (S i).
Proof.
  intros (r & Hr & Hc & Hp & Hne). unfold deep_chain in Hr.
  apply list_elem_of_fmap in Hr as (i & -> & _).
  unfold chain_row in Hc, Hp. cbn [span_id parent_span_id] in Hc, Hp.
  destruct (decide (i = 0)) as [->|Hi]; [congruence|].
  exists (i - 1). split; [done|]. rewrite <-Hc. f_equal. lia.
Qed.

Lemma deep_chain_descends n x y :
  tc (child_of (deep_chain n)) x y →
  ∃ i j, x = chain_id i ∧ y = chain_id j ∧ i < j.
Proof.
  induction 1 as [x y Hxy|x y z Hxy _ (j & k & Hy & Hz & Hjk)].
  - apply deep_chain_child_of in Hxy as (i & -> & ->). exists i, (S i). auto.
  - apply deep_chain_child_of in Hxy as (i & -> & Hy').
    rewrite Hy' in Hy. apply (inj chain_id) in Hy as <-.
    exists i, k. split_and!; [done|done|lia].
Qed.

Lemma deep_chain_acyclic n : acyclic (deep_chain n).
Proof.
  intros s Hs. apply deep_chain_descends in Hs as (i & j & -> & Hj & Hij).
  apply (inj chain_id) in Hj. lia.
Qed.

(** ** The walk and the analysis under a limit *)

Lemma mapM_recursion_limit_reached {A B} (f : A → result B) (l : list A) :
  mapM (λ x, recursion_limit_reached (f x)) l = recursion_limit_reached (mapM f l).
Proof.
  induction l as [|x l IH]; [done|]. rewrite !mapM_result_cons, IH.
  destruct (f x) as [y|e]; [|by destruct e]. cbn [mbind result_bind].
  cbn [recursion_limit_reached].
  destruct (mapM f l) as [ys|e]; [done | by destruct e].
Qed.

(** The bounded walk obeys the equation of the source, each nested call
    having one call less to nest. *)
Lemma calculate_depth_limited_S limit df span visited :
  calculate_depth_limited (S limit) df span visited =
    if decide (span ∈ visited) then Ok 0
    else match get_children (span_to_children df) span with
         | [] => Ok 1
         | children =>
             ds ← mapM (λ child,
                          calculate_depth_limited limit df child ({[span]} ∪ visited))
                       children;
             max_child_depth ← py_max ds;
             Ok (1 + max_child_depth)
         end.
Proof.
  unfold calculate_depth_limited. rewrite calculate_depth_fuel_S.
  case_decide; [done|].
  destruct (get_children (span_to_children df) span) as [|c1 cs] eqn:Hch; [done|].
  rewrite (mapM_recursion_limit_reached
             (λ child, calculate_depth_fuel (span_to_children df) limit child
                         ({[span]} ∪ visited))).
  destruct (mapM _ (c1 :: cs)) as [ds|e] eqn:Hds; [|by destruct e].
  cbn [mbind result_bind recursion_limit_reached].
  apply mapM_result_Ok in Hds. destruct ds as [|d1 ds]; [by inversion Hds|].
  by rewrite py_max_cons.
Qed.

(** C2, as the code has it.  The walk always ends, cyclic parent chains
    included: under a limit of nested calls it returns the depth, which is
    at most the number of rows plus one, or it raises RecursionError, and
    nothing else.  It returns whenever the depth is below the limit and
    raises whenever the depth is above it.  A span already on the path
    handed to the walk yields 0 in one call, and each child receives the
    path extended by the current span.  The analysis reports a depth for
    every trace with a root row when every root's depth is below the limit,
    and stops with RecursionError when the depth of some root is above
    it. *)
Theorem calculate_depth_within_limit limit df span visited :
  (calculate_depth_limited limit df span visited = Ok (depth_from df span visited) ∨
   calculate_depth_limited limit df span visited = Raise RecursionError) ∧
  (depth_from df span visited < limit →
   calculate_depth_limited limit df span visited = Ok (depth_from df span visited)) ∧
  (limit < depth_from df span visited →
   calculate_depth_limited limit df span visited = Raise RecursionError) ∧
  depth_from df span visited ≤ S (length df) ∧
  calculate_depth_limited (S limit) df span ({[span]} ∪ visited) = Ok 0 ∧
  calculate_depth_limited 0 df span visited = Raise RecursionError ∧
  calculate_depth_limited (S limit) df span visited =
    (if decide (span ∈ visited) then Ok 0
     else match get_children (span_to_children df) span with
          | [] => Ok 1
          | children =>
              ds ← mapM (λ child,
                           calculate_depth_limited limit df child
                             ({[span]} ∪ visited))
                        children;
              max_child_depth ← py_max ds;
              Ok (1 + max_child_depth)
          end) ∧
  ((∀ root, root ∈ root_spans df → depth_of df (span_id root) < limit) →
   ∃ report,
     analyze_trace_depth_limited limit df = Ok report ∧
     analyze_trace_depth df = Ok report ∧
     ∀ tid, roots_of df tid ≠ [] →
       ∃ d, dict_get tid (trace_depths report) = Some d ∧ d ≤ S (length df)) ∧
  (∀ root, root ∈ root_spans df → limit < depth_of df (span_id root) →
     analyze_trace_depth_limited limit df = Raise RecursionError).
Proof.
  split_and!.
  - apply limited_walk_cases.
  - apply limited_walk_enough.
  - apply limited_walk_short.
  - apply calculate_depth_from_total.
  - rewrite calculate_depth_limited_S. rewrite decide_True by set_solver. done.
  - done.
  - apply calculate_depth_limited_S.
  - intros Hroots.
    assert (trace_metrics_limited limit df = trace_metrics df) as Hmetrics.
    { apply root_loop_limited, Forall_forall. intros r. apply Hroots. }
    destruct (analyze_trace_depth_Ok df) as (report & Hrep & Hm).
    destruct (trace_metrics_spec df) as (td & tb & Hm' & Hinv).
    rewrite Hm in Hm'. injection Hm' as <- <-.
    exists report. split_and!; [|done|].
    { by rewrite analyze_trace_depth_limited_eq. }
    intros tid Hne. destruct (Hinv tid) as [Hd _]. rewrite Hd. unfold group_max.
    destruct (roots_of df tid) as [|r rs] eqn:Hr; [done|].
    eexists. split; [done|]. apply max_list_le. intros x Hx.
    apply list_elem_of_fmap in Hx as (r' & -> & _).
    apply calculate_depth_from_total.
  - intros root Hroot Hdeep.
    assert (trace_metrics_limited limit df = Raise RecursionError) as Hmetrics.
    { apply root_loop_limited, Exists_exists. by exists root. }
    unfold analyze_trace_depth_limited. by rewrite Hmetrics.
Qed.

(** On the chain of scenario 1 three nested calls are needed. *)
Example chain_T1_limits :
  calculate_depth_limited 3 chain_T1 "A" ∅ = Ok 3 ∧
  calculate_depth_limited 2 chain_T1 "A" ∅ = Raise RecursionError.
Proof. split; by vm_compute. Qed.

(** C2 as stated fails on a frame without any cycle.  The interpreter
    allows 1000 nested frames by default, the source never raises that
    limit, and every nested call of [calculate_depth] takes at least one
    frame (the generator expression of line 209 takes another), so fewer
    than 1000 calls nest.  On a trace that is one chain of 1001 spans the
    walk from the root, and with it the analysis, stops with RecursionError
    under every such limit: the trace has a root row, its parent relation
    has no cycle, and it gets no depth. *)
Lemma deep_chain_exceeds_recursion_limit :
  roots_of (deep_chain 1001) "T8" ≠ [] ∧
  acyclic (deep_chain 1001) ∧
  ∀ limit, limit ≤ 1000 →
    calculate_depth_limited limit (deep_chain 1001) (chain_id 0) ∅ =
      Raise RecursionError ∧
    analyze_trace_depth_limited limit (deep_chain 1001) = Raise RecursionError.
Proof.
  assert (chain_row 0 ∈ root_spans (deep_chain 1001)) as Hroot
    by (apply deep_chain_root; lia).
  pose proof (deep_chain_depth 1001 ltac:(lia)) as Hdepth.
  split_and!.
  - intros Hnil.
    assert (chain_row 0 ∈ roots_of (deep_chain 1001) "T8") as Hin
      by by apply list_elem_of_filter.
    rewrite Hnil in Hin. by apply elem_of_nil in Hin.
  - apply deep_chain_acyclic.
  - intros limit Hlimit. split.
    + apply limited_walk_short. change (depth_from ?df ?s ∅) with (depth_of df s).
      lia.
    + assert (trace_metrics_limited limit (deep_chain 1001) = Raise RecursionError)
        as Hmetrics.
      { apply root_loop_limited, Exists_exists. exists (chain_row 0).
        split; [done|]. change (span_id (chain_row 0)) with (chain_id 0). lia. }
      unfold analyze_trace_depth_limited. by rewrite Hmetrics.
Qed.

